(** * Monday Weekly: the merge store, the image scorer, the hash router and
      the importer, embedded from [App.jsx].

    The development follows the single-file React application.  JavaScript
    values are a small inductive type, the insertion-ordered [Map] is an
    association list, regular expression literals are data interpreted by a
    backtracking matcher, and the browser built-ins the code calls
    ([new URL], [fetch], [JSON.parse], [JSON.stringify]) are the fields of a
    class, so that every statement holds whatever they answer. *)

From Stdlib Require Import String Ascii List ZArith Bool Arith Lia Sorted.
Import ListNotations.
Open Scope string_scope.
Open Scope list_scope.

Set Warnings "-register-all".

(* ================================================================== *)
(** * Part I: definitions *)
(* ================================================================== *)

(** ** JavaScript values *)

(** Objects and arrays carry the reference that gives them identity: two
    objects are the same [Map] key only when they are the same reference.
    Numbers are the finite integral ones; [NaN] is kept apart because it is
    falsy and is a key of its own. *)
Definition ref := nat.

Inductive value : Type :=
| VUndefined
| VNull
| VBool (b : bool)
| VNum (n : Z)
| VNaN
| VStr (s : string)
| VArr (r : ref) (items : list value)
| VObj (r : ref) (props : list (string * value)).

(** [ToBoolean]. *)
Definition truthy (v : value) : bool :=
  match v with
  | VUndefined | VNull | VNaN => false
  | VBool b => b
  | VNum n => negb (n =? 0)%Z
  | VStr s => negb (s =? "")
  | VArr _ _ | VObj _ _ => true
  end.

Fixpoint own_prop (name : string) (props : list (string * value)) : option value :=
  match props with
  | [] => None
  | (k, v) :: rest => if k =? name then Some v else own_prop name rest
  end.

(** [o.name] for an [o] that is neither [null] nor [undefined].  The program
    reads the names [id] and [issues] only, which no array and no primitive
    wrapper defines. *)
Definition get (o : value) (name : string) : value :=
  match o with
  | VObj _ props =>
      match own_prop name props with Some v => v | None => VUndefined end
  | _ => VUndefined
  end.

(** [o.name], which throws a [TypeError] ([None]) on [null] and [undefined]. *)
Definition read (o : value) (name : string) : option value :=
  match o with
  | VUndefined | VNull => None
  | _ => Some (get o name)
  end.

(** [o?.name]. *)
Definition opt_chain (o : value) (name : string) : value :=
  match read o name with Some v => v | None => VUndefined end.

(** [Array.isArray]. *)
Definition isArray (v : value) : bool :=
  match v with VArr _ _ => true | _ => false end.

(** The elements of an array value (nothing for any other value). *)
Definition elements (v : value) : list value :=
  match v with VArr _ items => items | _ => [] end.

(** ** The insertion-ordered [Map] *)

(** A [Map] compares keys with SameValueZero: primitives by value, objects
    and arrays by reference.  [key_of] sends a value to its class. *)
Inductive key : Type :=
| KUndefined
| KNull
| KBool (b : bool)
| KNum (n : Z)
| KNaN
| KStr (s : string)
| KRef (r : ref).

Definition key_of (v : value) : key :=
  match v with
  | VUndefined => KUndefined
  | VNull => KNull
  | VBool b => KBool b
  | VNum n => KNum n
  | VNaN => KNaN
  | VStr s => KStr s
  | VArr r _ => KRef r
  | VObj r _ => KRef r
  end.

Definition key_eqb (a b : key) : bool :=
  match a, b with
  | KUndefined, KUndefined | KNull, KNull | KNaN, KNaN => true
  | KBool x, KBool y => Bool.eqb x y
  | KNum x, KNum y => (x =? y)%Z
  | KStr x, KStr y => (x =? y)
  | KRef x, KRef y => (x =? y)%nat
  | _, _ => false
  end.

Definition jsmap := list (key * value).

(** [map.set(k, v)]: an existing key keeps its place and takes the new value,
    a new key goes to the end. *)
Fixpoint map_set (k : key) (v : value) (m : jsmap) : jsmap :=
  match m with
  | [] => [(k, v)]
  | (k', v') :: rest =>
      if key_eqb k k' then (k, v) :: rest else (k', v') :: map_set k v rest
  end.

(** [map.get(k)]. *)
Fixpoint map_get (k : key) (m : jsmap) : option value :=
  match m with
  | [] => None
  | (k', v') :: rest => if key_eqb k k' then Some v' else map_get k rest
  end.

Definition map_keys (m : jsmap) : list key := map fst m.

(** [Array.from(map.values())]. *)
Definition map_values (m : jsmap) : list value := map snd m.

(** ** [mergeIssues] *)

(** One turn of either loop: [if (i?.id) map.set(i.id, i)]. *)
Definition set_if_id (m : jsmap) (i : value) : jsmap :=
  let id := opt_chain i "id" in
  if truthy id then map_set (key_of id) i m else m.

Definition mergeIssues (localIssues remoteIssues : list value) : list value :=
  let map := fold_left set_if_id localIssues [] in
  let map := fold_left set_if_id remoteIssues map in
  map_values map.

(** *** Vocabulary for the statements about [mergeIssues] *)

(** The key under which an entry is stored, when it is stored at all. *)
Definition entry_key (i : value) : option key :=
  let id := opt_chain i "id" in
  if truthy id then Some (key_of id) else None.

Definition has_truthy_id (i : value) : Prop := truthy (opt_chain i "id") = true.

(** The ids of a list: the keys of its entries that carry a truthy id. *)
Fixpoint ids (l : list value) : list key :=
  match l with
  | [] => []
  | i :: rest =>
      match entry_key i with
      | Some k => k :: ids rest
      | None => ids rest
      end
  end.

(** The last entry of [l] stored under [k]. *)
Fixpoint last_with (k : key) (l : list value) : option value :=
  match l with
  | [] => None
  | i :: rest =>
      match last_with k rest with
      | Some j => Some j
      | None =>
          match entry_key i with
          | Some k' => if key_eqb k k' then Some i else None
          | None => None
          end
      end
  end.

(** The entry of [l] stored under [k], looked up from the front. *)
Fixpoint entry_at (k : key) (l : list value) : option value :=
  match l with
  | [] => None
  | i :: rest =>
      match entry_key i with
      | Some k' => if key_eqb k k' then Some i else entry_at k rest
      | None => entry_at k rest
      end
  end.

(** Keys in order of first appearance. *)
Definition add_key (seen : list key) (k : key) : list key :=
  if existsb (key_eqb k) seen then seen else seen ++ [k].

Definition first_seen (ks : list key) : list key := fold_left add_key ks [].

(** Position of a key in a list of keys. *)
Fixpoint index_of (k : key) (ks : list key) : option nat :=
  match ks with
  | [] => None
  | k' :: rest =>
      if key_eqb k k' then Some 0
      else match index_of k rest with Some n => Some (S n) | None => None end
  end.


(** A map in which every entry sits under the key of its own id, each key
    once: what the two loops of [mergeIssues] build. *)
Definition well_keyed (m : jsmap) : Prop :=
  NoDup (map_keys m) /\
  Forall (fun kv => entry_key (snd kv) = Some (fst kv)) m.

(** *** The lists of the built-in test panel *)

Definition issue (r : ref) (id : string) (rest : list (string * value)) : value :=
  VObj r (("id", VStr id) :: rest).

Definition test_local : list value :=
  [ issue 1 "A" [("start", VStr "2025-01-01")];
    issue 2 "B" [("start", VStr "2025-01-02")] ].

Definition test_remote : list value :=
  [ issue 3 "B" [("start", VStr "2025-02-02"); ("marker", VStr "remote")];
    issue 4 "C" [("start", VStr "2025-01-03")] ].

(** Three entries that share the id ["A"]: two local ones, one remote. *)
Definition dup_first : value := issue 11 "A" [("v", VNum 1)].
Definition dup_second : value := issue 12 "A" [("v", VNum 2)].
Definition dup_remote : value := issue 13 "A" [("v", VNum 3)].
Definition other_b : value := issue 14 "B" [].

(** ** Strings *)

(** Strings are sequences of 8-bit characters; [toLowerCase] maps the
    letters A to Z and leaves every other character as it is. *)
Definition lower_char (c : ascii) : ascii :=
  let n := nat_of_ascii c in
  if (65 <=? n)%nat && (n <=? 90)%nat then ascii_of_nat (n + 32) else c.

Fixpoint toLowerCase (s : string) : string :=
  match s with
  | EmptyString => EmptyString
  | String c t => String (lower_char c) (toLowerCase t)
  end.

Definition nonempty (s : string) : bool := negb (s =? "").

(** [s.startsWith(p)]. *)
Fixpoint startsWith (p s : string) : bool :=
  match p, s with
  | EmptyString, _ => true
  | String a p', String b s' => Ascii.eqb a b && startsWith p' s'
  | String _ _, EmptyString => false
  end.

(** ** Regular expression literals *)

Inductive cclass : Type :=
| Only (cs : string)      (* [...] *)
| Except (cs : string).   (* [^...] *)

Inductive regex : Type :=
| Chars (s : string)      (* literal characters *)
| Class (c : cclass)      (* one character of a class *)
| Star (c : cclass)       (* greedy [c*] *)
| Plus (c : cclass)       (* greedy [c+] *)
| Words (ws : list string)   (* [w1|w2|...], literal alternatives *)
| Alt (a b : regex)       (* [a|b] *)
| Cat (a b : regex)       (* [ab] *)
| Opt (a : regex)         (* greedy [a?] *)
| Group (a : regex)       (* the capture group number 1 *)
| Bol                     (* [^] *)
| Eol.                    (* [$] *)

(** [seq [a; b; c]] is the pattern [abc]. *)
Definition seq (rs : list regex) : regex := fold_right Cat (Chars "") rs.

(** A matcher state: whether the position is the start of the input, the
    input that is left, and what group 1 captured. *)
Record mstate : Type :=
  { at_start : bool; rest : string; group1 : option string }.

Definition char_eqb (ci : bool) (a b : ascii) : bool :=
  if ci then Ascii.eqb (lower_char a) (lower_char b) else Ascii.eqb a b.

(** What is left of [s] after the literal [p], when [s] begins with it. *)
Fixpoint strip (ci : bool) (p s : string) : option string :=
  match p with
  | EmptyString => Some s
  | String a p' =>
      match s with
      | EmptyString => None
      | String b s' => if char_eqb ci a b then strip ci p' s' else None
      end
  end.

Fixpoint mem_char (ci : bool) (c : ascii) (cs : string) : bool :=
  match cs with
  | EmptyString => false
  | String d cs' => char_eqb ci c d || mem_char ci c cs'
  end.

Definition in_class (ci : bool) (c : ascii) (cl : cclass) : bool :=
  match cl with
  | Only cs => mem_char ci c cs
  | Except cs => negb (mem_char ci c cs)
  end.

(** The inputs left after a greedy run of characters satisfying [f], the
    longest run first, the empty run last. *)
Fixpoint greedy (f : ascii -> bool) (s : string) : list string :=
  match s with
  | EmptyString => [s]
  | String c t => if f c then greedy f t ++ [s] else [s]
  end.

Definition move (st : mstate) (t : string) : mstate :=
  {| at_start := at_start st && (String.length t =? String.length (rest st))%nat;
     rest := t;
     group1 := group1 st |}.

Definition capture (st st' : mstate) : mstate :=
  {| at_start := at_start st';
     rest := rest st';
     group1 := Some (substring 0 (String.length (rest st) - String.length (rest st'))
                               (rest st)) |}.

Definition literal (ci : bool) (st : mstate) (p : string) : list mstate :=
  match strip ci p (rest st) with Some t => [move st t] | None => [] end.

(** All the ways [r] matches at the position of [st], in the order in which
    a backtracking matcher tries them; the flag [ci] is the [i] flag. *)
Fixpoint run (ci : bool) (r : regex) (st : mstate) : list mstate :=
  match r with
  | Chars p => literal ci st p
  | Class c =>
      match rest st with
      | String x t => if in_class ci x c then [move st t] else []
      | EmptyString => []
      end
  | Star c => map (move st) (greedy (fun x => in_class ci x c) (rest st))
  | Plus c => map (move st) (removelast (greedy (fun x => in_class ci x c) (rest st)))
  | Words ws => flat_map (literal ci st) ws
  | Alt a b => run ci a st ++ run ci b st
  | Cat a b => flat_map (run ci b) (run ci a st)
  | Opt a => run ci a st ++ [st]
  | Group a => map (capture st) (run ci a st)
  | Bol => if at_start st then [st] else []
  | Eol => match rest st with EmptyString => [st] | String _ _ => [] end
  end.

Definition start_at (start : bool) (s : string) : mstate :=
  {| at_start := start; rest := s; group1 := None |}.

(** [re.test(s)]: is there a match at some position of [s]? *)
Fixpoint test_from (ci : bool) (r : regex) (start : bool) (s : string) : bool :=
  match run ci r (start_at start s) with
  | _ :: _ => true
  | [] =>
      match s with
      | String _ t => test_from ci r false t
      | EmptyString => false
      end
  end.

Definition test (ci : bool) (r : regex) (s : string) : bool :=
  test_from ci r true s.

(** [s.replace(re, by)] for a pattern without the [g] flag: the first match
    is replaced. *)
Fixpoint replace_from (ci : bool) (r : regex) (start : bool) (by_ s : string) : string :=
  match run ci r (start_at start s) with
  | st' :: _ => (by_ ++ rest st')%string
  | [] =>
      match s with
      | String c t => String c (replace_from ci r false by_ t)
      | EmptyString => EmptyString
      end
  end.

Definition replace (ci : bool) (r : regex) (by_ s : string) : string :=
  replace_from ci r true by_ s.

(** [s.matchAll(re)] for a pattern with the [g] flag, each match given by
    what its group 1 captured.  After a match the search resumes where the
    match ended ([skip] characters further), one character further after an
    empty match. *)
Fixpoint scan (ci : bool) (r : regex) (start : bool) (skip : nat) (s : string)
  : list (option string) :=
  match skip with
  | S n =>
      match s with
      | String _ t => scan ci r false n t
      | EmptyString => []
      end
  | O =>
      match run ci r (start_at start s) with
      | st' :: _ =>
          group1 st' ::
          match s with
          | String _ t =>
              scan ci r false (String.length s - String.length (rest st') - 1) t
          | EmptyString => []
          end
      | [] =>
          match s with
          | String _ t => scan ci r false 0 t
          | EmptyString => []
          end
      end
  end.

Definition matchAll (ci : bool) (r : regex) (s : string) : list (option string) :=
  scan ci r true 0 s.

(** ** The browser *)

(** The fields of [new URL(u)] that the program reads. *)
Record URL : Type :=
  { protocol : string; host : string; hostname : string;
    pathname : string; search : string }.

(** How [await fetch(...)] followed by [await res.text()] can end: the
    promise is rejected, or there is a response with its [ok] flag and its
    body text ([None] when reading the body is rejected). *)
Inductive fetch_outcome : Type :=
| NetworkError
| Response (ok : bool) (text : option string).

(** The built-ins of the platform that the program calls.  A browser gives
    the answers of one moment: a text that is parsed once gives one value.
    A text that is fetched or parsed again at a later moment gives fresh
    objects, which are the answers of a later browser. *)
Class Browser : Type :=
  { (** [new URL(u)]; [None] when the constructor throws. *)
    URL_parse : string -> option URL;
    (** [new URL(rel, base).toString()]; [None] when the constructor throws. *)
    URL_resolve : string -> string -> option string;
    (** [fetch(u, { cache: "no-store" })]. *)
    fetch : string -> fetch_outcome;
    (** [JSON.parse(text)]: the message of the [SyntaxError], or the value. *)
    JSON_parse : string -> string + value;
    (** [JSON.stringify(v, null, 2)]. *)
    JSON_stringify : value -> string;
    (** The message of the [TypeError] for reading a property of [null]. *)
    null_read_message : string }.

(** ** Image helpers *)

Definition JINA_PREFIX : string := "https://r.jina.ai/".

Definition toJinaProxy `{Browser} (url : string) : string :=
  match URL_parse url with
  | Some u => (JINA_PREFIX ++ protocol u ++ "//" ++ host u ++ pathname u ++ search u)%string
  | None => ""
  end.

(** [/^https?:\/\//i] *)
Definition re_http : regex := seq [Bol; Chars "http"; Opt (Chars "s"); Chars "://"].

Definition toAbsoluteUrl `{Browser} (maybe baseUrl : string) : string :=
  if negb (nonempty maybe) then ""
  else if test true re_http maybe then maybe
  else if startsWith "//" maybe then ("https:" ++ maybe)%string
  else
    match URL_parse baseUrl with
    | Some base =>
        match URL_resolve maybe (protocol base ++ "//" ++ host base)%string with
        | Some s => s
        | None => maybe
        end
    | None => maybe
    end.

(** [(\?|$)] *)
Definition query_or_end : regex := Alt (Chars "?") Eol.

(** [/\.svg(\?|$)/i] and [/\.gif(\?|$)/i] *)
Definition re_svg : regex := Cat (Chars ".svg") query_or_end.
Definition re_gif : regex := Cat (Chars ".gif") query_or_end.

Definition isBadExt (u : string) : bool :=
  test true re_svg u || test true re_gif u.

(** [/(logo|favicon|icon|sprite|wordmark|lockup|brandmark|badge|avatar|mark)/] *)
Definition re_logo : regex :=
  Words ["logo"; "favicon"; "icon"; "sprite"; "wordmark"; "lockup";
         "brandmark"; "badge"; "avatar"; "mark"].

Definition isLogoish (u : string) : bool :=
  let s := toLowerCase u in
  test false re_logo s.

(** [/\.(jpe?g|png|webp|avif)(\?|$)/i] *)
Definition re_good : regex :=
  seq [Chars ".";
       Alt (seq [Chars "jp"; Opt (Chars "e"); Chars "g"])
           (Words ["png"; "webp"; "avif"]);
       query_or_end].

Definition goodExt (u : string) : bool := test true re_good u.

(** [/(hero|featured|feature|article|banner|news|press|upload|uploads|media|images|photo|screenshot|figure|cover)/] *)
Definition re_hint : regex :=
  Words ["hero"; "featured"; "feature"; "article"; "banner"; "news"; "press";
         "upload"; "uploads"; "media"; "images"; "photo"; "screenshot";
         "figure"; "cover"].

(** [/(1200|1600|2048|1080|w=12|w=16|w=20)/] *)
Definition re_size : regex :=
  Words ["1200"; "1600"; "2048"; "1080"; "w=12"; "w=16"; "w=20"].

Definition scoreImage (u : string) : Z :=
  let s := toLowerCase u in
  let sc := 0%Z in
  let sc := if test false re_hint s then (sc + 10)%Z else sc in
  let sc := if goodExt s then (sc + 5)%Z else sc in
  let sc := if test false re_size s then (sc + 2)%Z else sc in
  let sc := if isLogoish s then (sc - 20)%Z else sc in
  let sc := if isBadExt s then (sc - 10)%Z else sc in
  sc.

(** The acceptance threshold of [resolveArticleImage]. *)
Definition THRESHOLD : Z := 1.

(** The double and the single quote, the two characters of the class that
    opens and closes an attribute value in the patterns. *)
Definition quotes : string := String "034"%char (String "039"%char EmptyString).

(** The pattern [metaRe], with the flags [gi]. *)
Definition metaRe : regex :=
  seq [Chars "<meta"; Plus (Except ">");
       Words ["property"; "name"]; Chars "="; Class (Only quotes);
       Alt (Chars "og:image")
           (Alt (Chars "og:image:secure_url")
                (seq [Chars "twitter:image"; Opt (Chars ":src")]));
       Class (Only quotes); Plus (Except ">");
       Chars "content="; Class (Only quotes);
       Group (Plus (Except quotes)); Class (Only quotes);
       Star (Except ">"); Chars ">"].

(** The pattern [imgRe], with the flags [gi]. *)
Definition imgRe : regex :=
  seq [Chars "<img"; Plus (Except ">"); Chars "src="; Class (Only quotes);
       Group (Plus (Except quotes)); Class (Only quotes);
       Star (Except ">"); Chars ">"].

(** [set.add(x)] on a [Set] of strings in insertion order. *)
Definition set_add (set : list string) (x : string) : list string :=
  if existsb (String.eqb x) set then set else set ++ [x].

(** One of the two loops: [for (const m of ...) if (m[1]) set.add(abs(m[1]))]. *)
Definition add_matches (abs : string -> string) (set : list string)
    (ms : list (option string)) : list string :=
  fold_left
    (fun set m =>
       match m with
       | Some g => if nonempty g then set_add set (abs g) else set
       | None => set
       end)
    ms set.

(** [Array.prototype.sort] with a comparator: a stable sort. *)
Fixpoint insert_by (cmp : string -> string -> Z) (x : string) (l : list string)
  : list string :=
  match l with
  | [] => [x]
  | y :: t => if (cmp x y <=? 0)%Z then x :: l else y :: insert_by cmp x t
  end.

Definition sort_by (cmp : string -> string -> Z) (l : list string) : list string :=
  fold_right (insert_by cmp) [] l.

(** The set of extracted, absolute urls of a page. *)
Definition extracted `{Browser} (url html : string) : list string :=
  let abs := fun u => toAbsoluteUrl u url in
  let set := [] in
  let set := add_matches abs set (matchAll true metaRe html) in
  let set := add_matches abs set (matchAll true imgRe html) in
  set.

(** The candidates: what survives the three filters. *)
Definition candidates_of `{Browser} (url html : string) : list string :=
  filter (fun u => negb (isLogoish u))
    (filter (fun u => negb (isBadExt u))
       (filter nonempty (extracted url html))).

(** How a call of an [async] function ends. *)
Inductive completion : Type :=
| Returns (s : string)
| Rejects.

Definition resolveArticleImage `{Browser} (url : string) : completion :=
  let proxy := toJinaProxy url in
  if negb (nonempty proxy) then Returns ""
  else
    match fetch proxy with
    | NetworkError => Rejects
    | Response ok body =>
        if negb ok then Returns ""
        else
          match body with
          | None => Rejects
          | Some html =>
              let candidates := candidates_of url html in
              match candidates with
              | [] => Returns ""
              | _ :: _ =>
                  let candidates :=
                    sort_by (fun a b => (scoreImage b - scoreImage a)%Z) candidates in
                  (* candidates[0] *)
                  match candidates with
                  | [] => Returns ""
                  | best :: _ =>
                      if (scoreImage best <? THRESHOLD)%Z then Returns ""
                      else Returns best
                  end
              end
          end
    end.

(** *** Vocabulary for the statements about the image helpers *)

(** [hay] contains [needle]. *)
Definition includes (needle hay : string) : Prop :=
  exists a b, hay = (a ++ needle ++ b)%string.

(** A url that ends in [.svg] or [.gif], in any letter case, or has a
    question mark right after that extension. *)
Definition bad_extension_shape (u : string) : Prop :=
  exists p x q,
    u = (p ++ x ++ q)%string /\
    (toLowerCase x = ".svg" \/ toLowerCase x = ".gif") /\
    (q = "" \/ exists q', q = ("?" ++ q')%string).

(** The comparator handed to [sort] in [resolveArticleImage]. *)
Definition by_score_desc (a b : string) : Z := (scoreImage b - scoreImage a)%Z.

(** *** A page for the examples *)

Definition demo_article : string := "https://example.com/post".

Definition demo_page : string :=
  "<html><head><meta property='og:image' content='https://cdn.example.com/uploads/hero-1200.jpg'></head><body><img src='/static/site-logo.png'><img alt='' src='https://cdn.example.com/media/chart-1600.svg'><img src='/pixel.png'></body></html>".

Definition demo_URL_parse (u : string) : option URL :=
  if startsWith "https://example.com" u
  then Some {| protocol := "https:"; host := "example.com";
               hostname := "example.com";
               pathname := substring 19 (String.length u) u; search := "" |}
  else None.

Definition demo_fetch (u : string) : fetch_outcome :=
  if u =? "https://r.jina.ai/https://example.com/post"
  then Response true (Some demo_page)
  else NetworkError.

Definition demo_svg : string := "https://cdn.example.com/media/chart-1600.svg".
Definition demo_hero : string := "https://cdn.example.com/uploads/hero-1200.jpg".

(** ** The hash router *)

Record route : Type := { name : string; params : list string }.

(** [s.split("/")]. *)
Fixpoint split_slash (s : string) : list string :=
  match s with
  | EmptyString => [EmptyString]
  | String c t =>
      if Ascii.eqb c "/" then EmptyString :: split_slash t
      else
        match split_slash t with
        | part :: parts => String c part :: parts
        | [] => [String c EmptyString]
        end
  end.

(** [/^#/] *)
Definition re_leading_hash : regex := Cat Bol (Chars "#").

Definition parseHashFromString (hashRaw : string) : route :=
  let hash := replace false re_leading_hash "" hashRaw in
  let parts := filter nonempty (split_slash hash) in
  match parts with
  | p0 :: p1 :: _ =>
      if (p0 =? "issue") && nonempty p1
      then {| name := "issue"; params := [p1] |}
      else {| name := "home"; params := [] |}
  | _ => {| name := "home"; params := [] |}
  end.

(** *** Vocabulary for the statements about the router *)

Definition home : route := {| name := "home"; params := [] |}.

(** The segments the router looks at: the non-empty pieces between slashes
    once one leading [#] is gone. *)
Definition segments (s : string) : list string :=
  filter nonempty
    (split_slash match s with
                 | String "#" t => t
                 | _ => s
                 end).

(** ** The store and the importer *)

Definition STORAGE_KEY : string := "monday.weekly.data.v1".

Definition bootstrapData : value :=
  VObj 100
    [("issues",
      VArr 101
        [VObj 102
           [("id", VStr "2025-08-18_2025-08-24");
            ("start", VStr "2025-08-18");
            ("end", VStr "2025-08-24");
            ("publishedAt", VStr "2025-08-25T10:00:00+08:00");
            ("title", VStr "2025-08-18 至 2025-08-24 周报 / Weekly");
            ("summaryCN", VStr "本周经严核的科技/IT大事件精选。");
            ("summaryEN", VStr "Verified, cross-sourced tech/IT developments for the week.");
            ("items", VArr 103 [])]])].

(** The state of the page that the importer touches: the data of
    [useLocalData], the importer's [error], whether the dialog is shown, and
    the next free reference for objects the page creates. *)
Record page : Type :=
  { data : value; error : string; showImporter : bool; next_ref : ref }.

(** [prev?.issues || []], read as a list.  A store whose [issues] is truthy
    without being an array is outside the model and counts as empty. *)
Definition issues_or_empty (prev : value) : list value :=
  let x := opt_chain prev "issues" in
  if truthy x then elements x else [].

(** [{ issues: xs }], a new object holding a new array. *)
Definition new_data (r : ref) (xs : list value) : value :=
  VObj r [("issues", VArr (S r) xs)].

(** [xs.map((i) => [i.id, i])]; reading [i.id] throws on [null] and
    [undefined]. *)
Fixpoint keyed (xs : list value) : option (list (key * value)) :=
  match xs with
  | [] => Some []
  | i :: rest =>
      match read i "id" with
      | None => None
      | Some id =>
          match keyed rest with
          | Some pairs => Some ((key_of id, i) :: pairs)
          | None => None
          end
      end
  end.

Definition set_pair (m : jsmap) (kv : key * value) : jsmap :=
  map_set (fst kv) (snd kv) m.

(** The function handed to [setData] by the root's [onImport]:
    [None] when it throws. *)
Definition import_update (payload prev : value) (r : ref) : option value :=
  match keyed (issues_or_empty prev) with
  | None => None
  | Some old =>
      let existing := fold_left set_pair old [] in
      match keyed (elements (get payload "issues")) with
      | None => None
      | Some new =>
          let existing := fold_left set_pair new existing in
          Some (new_data r (map_values existing))
      end
  end.

(** The root's [onImport]; [None] when the state update throws. *)
Definition onImport (payload : value) (a : page) : option page :=
  if negb (truthy (opt_chain payload "issues")) then Some a
  else
    match import_update payload (data a) (next_ref a) with
    | Some d =>
        Some {| data := d; error := error a; showImporter := showImporter a;
                next_ref := S (S (next_ref a)) |}
    | None => None
    end.

Definition setError (msg : string) (a : page) : page :=
  {| data := data a; error := msg; showImporter := showImporter a;
     next_ref := next_ref a |}.

(** [close], which the root passes as [() => setShowImporter(false)]. *)
Definition close (a : page) : page :=
  {| data := data a; error := error a; showImporter := false;
     next_ref := next_ref a |}.

Definition MSG_NO_ISSUES : string := "缺少 issues 数组".
Definition MSG_NO_ID : string := "每个 issue 需要 id (YYYY-MM-DD_YYYY-MM-DD)".
Definition BACKSLASH_HINT : string :=
  " 提示：检查反斜杠（使用 \ 或合法的 \uXXXX 转义）。".

(** The characters that may follow a backslash in the pattern of the hint:
    the double quote, then [\/bfnrtu]. *)
Definition escape_chars : string := String "034"%char "\/bfnrtu".

(** The pattern of [hasBackslash]: a backslash and one character that is
    none of [escape_chars]. *)
Definition re_backslash : regex := Cat (Chars "\") (Class (Except escape_chars)).

(** The loop [for (const issue of payload.issues) if (!issue.id) throw ...]:
    the message of what it throws, if it throws. *)
Fixpoint check_ids `{Browser} (issues : list value) : option string :=
  match issues with
  | [] => None
  | issue :: rest =>
      match read issue "id" with
      | None => Some null_read_message
      | Some id => if negb (truthy id) then Some MSG_NO_ID else check_ids rest
      end
  end.

(** The [try] block up to the call of [onImport]: the payload, or the
    message of the error that was thrown. *)
Definition checked_payload `{Browser} (text : string) : string + value :=
  match JSON_parse text with
  | inl msg => inl msg
  | inr payload =>
      if negb (truthy payload) || negb (isArray (get payload "issues"))
      then inl MSG_NO_ISSUES
      else
        match check_ids (elements (get payload "issues")) with
        | Some msg => inl msg
        | None => inr payload
        end
  end.

(** Which of the two callbacks [handleImport] ends with, and the state of
    the page after it ([None] when the state update of [onImport] throws). *)
Inductive import_outcome : Type :=
| Applied (payload : value) (after : option page)
| Rejected (after : page).

Definition handleImport `{Browser} (text : string) (a : page) : import_outcome :=
  let a := setError "" a in
  match checked_payload text with
  | inr payload =>
      Applied payload
        match onImport payload a with
        | Some a' => Some (close a')
        | None => None
        end
  | inl message =>
      let hasBackslash := test false re_backslash text in
      let hint := if hasBackslash then BACKSLASH_HINT else "" in
      Rejected (setError (message ++ hint)%string a)
  end.

(** The file that [downloadJSON] offers. *)
Record download : Type := { file_name : string; file_text : string }.

Definition downloadJSON `{Browser} (filenameBase : string) (d : value) : download :=
  {| file_name := (filenameBase ++ ".json")%string;
     file_text := JSON_stringify d |}.

(** A string without a slash, such as an issue id. *)
Fixpoint slash_free (s : string) : bool :=
  match s with
  | EmptyString => true
  | String c t => negb (Ascii.eqb c "/") && slash_free t
  end.

(** What the router answers on a list of segments. *)
Definition route_of (parts : list string) : route :=
  match parts with
  | "issue" :: p :: _ => {| name := "issue"; params := [p] |}
  | _ => home
  end.

(** *** Vocabulary for the statements about the importer *)

(** The pasted text parses to an object with an [issues] array in which
    every issue has a truthy id. *)
Definition accepted `{Browser} (text : string) : Prop :=
  exists payload r items,
    JSON_parse text = inr payload /\
    get payload "issues" = VArr r items /\
    Forall has_truthy_id items.

(** The text has a backslash followed by a character that starts no JSON
    escape. *)
Definition illegal_escape (text : string) : Prop :=
  exists pre c post,
    text = (pre ++ String "\" (String c post))%string /\
    mem_char false c escape_chars = false.

(** The message that describes why a text is not accepted. *)
Definition describes `{Browser} (text msg : string) : Prop :=
  JSON_parse text = inl msg \/
  (exists payload,
     JSON_parse text = inr payload /\
     isArray (get payload "issues") = false /\ msg = MSG_NO_ISSUES) \/
  (exists payload r items,
     JSON_parse text = inr payload /\
     get payload "issues" = VArr r items /\
     ~ Forall has_truthy_id items /\
     (msg = MSG_NO_ID \/ msg = null_read_message)).

(** ** Equality of what two values serialise to *)

Section Pairwise.
Variable A : Type.
Variable f : A -> A -> bool.

Fixpoint all2 (xs ys : list A) : bool :=
  match xs, ys with
  | [], [] => true
  | x :: xs', y :: ys' => f x y && all2 xs' ys'
  | _, _ => false
  end.

Fixpoint props2 (ps qs : list (string * A)) : bool :=
  match ps, qs with
  | [], [] => true
  | (k, x) :: ps', (k', y) :: qs' => (k =? k') && f x y && props2 ps' qs'
  | _, _ => false
  end.
End Pairwise.

Arguments all2 {A} f xs ys.
Arguments props2 {A} f ps qs.

(** Two values with the same JSON text: equal up to the references of their
    objects and arrays. *)
Fixpoint json_eqb (v w : value) : bool :=
  match v, w with
  | VUndefined, VUndefined | VNull, VNull | VNaN, VNaN => true
  | VBool a, VBool b => Bool.eqb a b
  | VNum a, VNum b => (a =? b)%Z
  | VStr a, VStr b => (a =? b)
  | VArr _ xs, VArr _ ys => all2 json_eqb xs ys
  | VObj _ ps, VObj _ qs => props2 json_eqb ps qs
  | _, _ => false
  end.

Definition deep_equal (v w : value) : Prop := json_eqb v w = true.

(** The references of the objects and arrays inside a value. *)
Fixpoint refs_of (v : value) : list ref :=
  match v with
  | VArr r xs => r :: flat_map refs_of xs
  | VObj r ps => r :: flat_map (fun kv => match kv with (_, x) => refs_of x end) ps
  | _ => []
  end.

(** [w] shares no object with [v], as a freshly parsed value does. *)
Definition fresh_for (v w : value) : Prop :=
  Forall (fun r => ~ In r (refs_of v)) (refs_of w).

Definition primitive (v : value) : bool :=
  match v with VArr _ _ | VObj _ _ => false | _ => true end.

(** The invariant of the store's collection: every entry has a truthy id
    that is a primitive, and no two entries share an id. *)
Definition store_invariant (issues : list value) : Prop :=
  Forall (fun e => has_truthy_id e /\ primitive (opt_chain e "id") = true) issues /\
  NoDup (ids issues).

(** ** A browser for the examples *)

(** JSON texts are written with single quotes below and turned into the
    real thing by [dq]. *)
Fixpoint dq (s : string) : string :=
  match s with
  | EmptyString => EmptyString
  | String c t => String (if Ascii.eqb c "'" then "034"%char else c) (dq t)
  end.

Definition demo_import_text : string :=
  dq "{'issues': [{'id': 'B', 'start': '2025-02-02'}, {'id': 'C', 'start': '2025-01-03'}]}".

Definition demo_import_payload : value :=
  VObj 60
    [("issues",
      VArr 61 [issue 62 "B" [("start", VStr "2025-02-02")];
               issue 63 "C" [("start", VStr "2025-01-03")]])].

(** A text with the authoring mistake the hint is about. *)
Definition demo_bad_text : string := dq "{'issues': [{'id': 'C:\weekly'}]}".

Definition demo_noid_text : string :=
  dq "{'issues': [{'id': 'A'}, {'title': 'no id'}]}".

Definition demo_noid_payload : value :=
  VObj 64
    [("issues", VArr 65 [issue 66 "A" []; VObj 67 [("title", VStr "no id")]])].

(** An issue whose id is an array: truthy, so the importer accepts it. *)
Definition array_id_text : string := dq "{'issues': [{'id': ['x']}]}".

Definition array_id_payload : value :=
  VObj 30 [("issues", VArr 31 [VObj 32 [("id", VArr 33 [VStr "x"])]])].

Definition empty_page : page :=
  {| data := new_data 0 []; error := ""; showImporter := true; next_ref := 2 |}.

(** The store after [array_id_text] was imported into [empty_page], what
    [downloadJSON] writes for it, and that text parsed again. *)
Definition array_id_store : value :=
  new_data 2 [VObj 32 [("id", VArr 33 [VStr "x"])]].

Definition array_id_export : string :=
  dq "{
  'issues': [
    {
      'id': [
        'x'
      ]
    }
  ]
}".

Definition array_id_reparsed : value :=
  VObj 70 [("issues", VArr 71 [VObj 72 [("id", VArr 73 [VStr "x"])]])].

(** The store after [demo_import_text] was imported into [empty_page], its
    export, and the export parsed again. *)
Definition demo_store : value :=
  new_data 2 [issue 62 "B" [("start", VStr "2025-02-02")];
              issue 63 "C" [("start", VStr "2025-01-03")]].

Definition demo_store_export : string :=
  dq "{
  'issues': [
    {
      'id': 'B',
      'start': '2025-02-02'
    },
    {
      'id': 'C',
      'start': '2025-01-03'
    }
  ]
}".

Definition demo_store_reparsed : value :=
  VObj 80
    [("issues",
      VArr 81 [issue 82 "B" [("start", VStr "2025-02-02")];
               issue 83 "C" [("start", VStr "2025-01-03")]])].

Definition demo_JSON_parse (text : string) : string + value :=
  if text =? demo_import_text then inr demo_import_payload
  else if text =? demo_noid_text then inr demo_noid_payload
  else if text =? array_id_text then inr array_id_payload
  else if text =? array_id_export then inr array_id_reparsed
  else if text =? demo_store_export then inr demo_store_reparsed
  else inl "Bad escaped character in JSON".

Definition demo_JSON_stringify (v : value) : string :=
  if json_eqb v array_id_store then array_id_export
  else if json_eqb v demo_store then demo_store_export
  else "null".

Definition demo_browser : Browser :=
  {| URL_parse := demo_URL_parse;
     URL_resolve := fun rel base => Some (base ++ rel)%string;
     fetch := demo_fetch;
     JSON_parse := demo_JSON_parse;
     JSON_stringify := demo_JSON_stringify;
     null_read_message := "Cannot read properties of null (reading 'id')" |}.

(** The same browser when the network is down: every fetch is rejected. *)
Definition unreachable_browser : Browser :=
  {| URL_parse := demo_URL_parse;
     URL_resolve := fun rel base => Some (base ++ rel)%string;
     fetch := fun _ => NetworkError;
     JSON_parse := demo_JSON_parse;
     JSON_stringify := demo_JSON_stringify;
     null_read_message := "Cannot read properties of null (reading 'id')" |}.

(* ================================================================== *)
(** * Part I, continued: the rest of the page *)
(* ================================================================== *)

From Stdlib Require Import DecimalString DecimalZ Permutation.

(** ** Strings of values *)

(** A number in a template literal: its decimal digits. *)
Definition number_text (n : Z) : string := NilZero.string_of_int (Z.to_int n).

(** [parts.join(sep)] on strings. *)
Fixpoint join (sep : string) (parts : list string) : string :=
  match parts with
  | [] => EmptyString
  | [p] => p
  | p :: rest => (p ++ sep ++ join sep rest)%string
  end.

(** [String(v)], as a template literal applies it. *)
Fixpoint ToString (v : value) : string :=
  match v with
  | VUndefined => "undefined"
  | VNull => "null"
  | VBool true => "true"
  | VBool false => "false"
  | VNum n => number_text n
  | VNaN => "NaN"
  | VStr s => s
  | VArr _ items =>
      join ","
        (map (fun x => match x with
                       | VUndefined | VNull => EmptyString
                       | _ => ToString x
                       end) items)
  | VObj _ _ => "[object Object]"
  end.

(** ** The root: loading remote content *)

(** [fetchJSON(url)]: the parsed body, or [None] when the call throws (the
    fetch is rejected, the status is not a success, the body is no JSON). *)
Definition fetchJSON `{Browser} (url : string) : option value :=
  match fetch url with
  | Response true (Some body) =>
      match JSON_parse body with
      | inr v => Some v
      | inl _ => None
      end
  | _ => None
  end.

Definition MANIFEST_URL : string := "/content/index.json".

(** [`/content/${name}`] *)
Definition content_url (name : value) : string :=
  ("/content/" ++ ToString name)%string.

(** What one fetched file adds to [mergedIssues]; [None] is the [null] that
    [.catch(() => null)] puts in place of a file that failed. *)
Definition file_issues (p : option value) : list value :=
  match p with
  | Some v =>
      if truthy v && isArray (get v "issues") then elements (get v "issues")
      else []
  | None => []
  end.

(** The files of a manifest, fetched in order ([Promise.all] keeps it). *)
Definition fetch_files `{Browser} (files : list value) : list (option value) :=
  map (fun name => fetchJSON (content_url name)) files.

(** The first effect of the root: the data it hands to [setData], or [None]
    when it does not call [setData] (every failure ends in the empty
    [catch]). *)
Definition load_manifest `{Browser} (prev : value) (r : ref) : option value :=
  match fetchJSON MANIFEST_URL with
  | None => None
  | Some idx =>
      if truthy idx && isArray (get idx "issues")
      then Some (new_data r (mergeIssues (issues_or_empty prev)
                                         (elements (get idx "issues"))))
      else if truthy idx && isArray (get idx "files")
                && negb (length (elements (get idx "files")) =? 0)%nat
      then
        let payloads := fetch_files (elements (get idx "files")) in
        let mergedIssues := flat_map file_issues payloads in
        if negb (length mergedIssues =? 0)%nat
        then Some (new_data r (mergeIssues (issues_or_empty prev) mergedIssues))
        else None
      else None
  end.

(** How an effect of the root ends. *)
Inductive effect_result : Type :=
| NoUpdate
| Update (d : value)
| Throws.

(** [xs.some((i) => i.id === id)] for a string [id]; reading [i.id] throws
    on [null] and [undefined]. *)
Fixpoint has_issue (id : string) (xs : list value) : option bool :=
  match xs with
  | [] => Some false
  | i :: rest =>
      match read i "id" with
      | None => None
      | Some (VStr s) => if s =? id then Some true else has_issue id rest
      | Some _ => has_issue id rest
      end
  end.

(** [x?.length] *)
Definition length_of (x : value) : value :=
  match x with
  | VArr _ items => VNum (Z.of_nat (length items))
  | VStr s => VNum (Z.of_nat (String.length s))
  | VObj _ _ => get x "length"
  | _ => VUndefined
  end.

Fixpoint chars (s : string) : list value :=
  match s with
  | EmptyString => []
  | String c t => VStr (String c EmptyString) :: chars t
  end.

(** What [for (const i of x)] goes through; [None] when [x] is not iterable. *)
Definition iterate (x : value) : option (list value) :=
  match x with
  | VArr _ items => Some items
  | VStr s => Some (chars s)
  | _ => None
  end.

(** [`/content/${id}.json`] *)
Definition issue_url (id : string) : string :=
  ("/content/" ++ id ++ ".json")%string.

(** The second effect of the root: the lazy load of the issue of the route. *)
Definition lazy_load `{Browser} (route_name : string) (params : list string)
    (d : value) (r : ref) : effect_result :=
  if negb (route_name =? "issue") then NoUpdate
  else
    match params with
    | [] => NoUpdate
    | id :: _ =>
        if negb (nonempty id) then NoUpdate
        else
          match has_issue id (issues_or_empty d) with
          | None => Throws
          | Some true => NoUpdate
          | Some false =>
              match fetchJSON (issue_url id) with
              | None => NoUpdate
              | Some payload =>
                  let issues := opt_chain payload "issues" in
                  if truthy (length_of issues)
                  then
                    match iterate issues with
                    | Some xs =>
                        Update (new_data r (mergeIssues (issues_or_empty d) xs))
                    | None => Throws
                    end
                  else NoUpdate
              end
          end
    end.

(** *** A site for the examples *)

Definition week34 : value := issue 202 "2025-08-18_2025-08-24" [("title", VStr "remote")].
Definition week35 : value := issue 212 "2025-08-25_2025-08-31" [].
Definition week36 : value := issue 222 "2025-09-01_2025-09-07" [].

Definition site_manifest_text : string :=
  dq "{'files': ['2025-08-18_2025-08-24.json', 'missing.json', '2025-08-25_2025-08-31.json']}".

Definition site_manifest : value :=
  VObj 190
    [("files",
      VArr 191 [VStr "2025-08-18_2025-08-24.json"; VStr "missing.json";
                VStr "2025-08-25_2025-08-31.json"])].

Definition week34_text : string :=
  dq "{'issues': [{'id': '2025-08-18_2025-08-24', 'title': 'remote'}]}".
Definition week35_text : string := dq "{'issues': [{'id': '2025-08-25_2025-08-31'}]}".
Definition week36_text : string := dq "{'issues': [{'id': '2025-09-01_2025-09-07'}]}".

(** The site answers for the manifest, for three weeks, and, under the name
    of a fourth week, with the file of the third. *)
Definition site_fetch (u : string) : fetch_outcome :=
  if u =? "/content/index.json" then Response true (Some site_manifest_text)
  else if u =? "/content/2025-08-18_2025-08-24.json" then Response true (Some week34_text)
  else if u =? "/content/2025-08-25_2025-08-31.json" then Response true (Some week35_text)
  else if u =? "/content/2025-09-01_2025-09-07.json" then Response true (Some week36_text)
  else if u =? "/content/2025-09-08_2025-09-14.json" then Response true (Some week36_text)
  else Response false None.

Definition site_JSON_parse (text : string) : string + value :=
  if text =? site_manifest_text then inr site_manifest
  else if text =? week34_text then inr (VObj 200 [("issues", VArr 201 [week34])])
  else if text =? week35_text then inr (VObj 210 [("issues", VArr 211 [week35])])
  else if text =? week36_text then inr (VObj 220 [("issues", VArr 221 [week36])])
  else inl "Unexpected token".

Definition site_browser : Browser :=
  {| URL_parse := demo_URL_parse;
     URL_resolve := fun rel base => Some (base ++ rel)%string;
     fetch := site_fetch;
     JSON_parse := site_JSON_parse;
     JSON_stringify := fun _ => "null";
     null_read_message := "Cannot read properties of null (reading 'id')" |}.

(** ** Navigation *)

(** What [go(to)] assigns to [window.location.hash]. *)
Definition go_hash (to : string) : string :=
  ("#" ++ replace false re_leading_hash "" to)%string.

(** The archive's [openIssue]: [(id) => go(`/issue/${id}`)]. *)
Definition openIssue (id : value) : string :=
  go_hash ("/issue/" ++ ToString id)%string.

(** [onBack]: [() => go("/")]. *)
Definition onBack : string := go_hash "/".

(** ** More vocabulary for the image helpers *)

(** The three marks that raise a score. *)
Definition has_hint (u : string) : bool := test false re_hint (toLowerCase u).
Definition has_good_ext (u : string) : bool := goodExt (toLowerCase u).
Definition has_size (u : string) : bool := test false re_size (toLowerCase u).

(** A page whose three images score the same. *)
Definition tie_page : string :=
  "<meta name='twitter:image' content='https://cdn.example.com/a.png'><img src='https://cdn.example.com/b.jpg'><img src='https://cdn.example.com/c.webp'>".

Definition tie_browser : Browser :=
  {| URL_parse := demo_URL_parse;
     URL_resolve := fun rel base => Some (base ++ rel)%string;
     fetch := fun _ => Response true (Some tie_page);
     JSON_parse := fun _ => inl "Unexpected token";
     JSON_stringify := fun _ => "null";
     null_read_message := "Cannot read properties of null (reading 'id')" |}.

(** A url that begins with [http://] or [https://], in any letter case. *)
Definition absolute_http (u : string) : Prop :=
  exists x t,
    u = (x ++ t)%string /\
    (toLowerCase x = "http://" \/ toLowerCase x = "https://").

(** ** The placeholder chain *)

(** [parseInt(s, 10)]: white space, a sign, then decimal digits as far as
    they go; [None] is [NaN]. *)
Definition is_space (c : ascii) : bool :=
  let n := nat_of_ascii c in
  (n =? 32)%nat || ((9 <=? n)%nat && (n <=? 13)%nat).

Fixpoint skip_spaces (s : string) : string :=
  match s with
  | String c t => if is_space c then skip_spaces t else s
  | EmptyString => s
  end.

Definition digit_value (c : ascii) : option Z :=
  let n := nat_of_ascii c in
  if (48 <=? n)%nat && (n <=? 57)%nat then Some (Z.of_nat (n - 48)) else None.

Fixpoint read_digits (acc : option Z) (s : string) : option Z :=
  match s with
  | String c t =>
      match digit_value c with
      | Some d =>
          read_digits
            (Some (10 * match acc with Some a => a | None => 0 end + d)%Z) t
      | None => acc
      end
  | EmptyString => acc
  end.

Definition parseInt10 (s : string) : option Z :=
  match skip_spaces s with
  | String "-" t => option_map Z.opp (read_digits None t)
  | String "+" t => read_digits None t
  | t => read_digits None t
  end.

(** The part of an [img] element that the fallback touches: its [src]
    attribute, [dataset.fidx] and whether [style.display] is ["none"]. *)
Record img_el : Type :=
  { src_attr : string; fidx : option string; hidden : bool }.

(** [randomUnsplash(w, h, sig)]; a caller that gives no [sig] gets a random
    one, which is an argument here. *)
Definition randomUnsplash (w h sig : Z) : string :=
  ("https://source.unsplash.com/random/" ++ number_text w ++ "x" ++ number_text h
   ++ "/?wallpapers&sig=" ++ number_text sig)%string.

Definition picsum (w h sig : Z) : string :=
  ("https://picsum.photos/seed/" ++ number_text sig ++ "/" ++ number_text w
   ++ "/" ++ number_text h)%string.

Definition grey_svg (w h : Z) : string :=
  ("data:image/svg+xml,%3Csvg xmlns='http://www.w3.org/2000/svg' width='"
   ++ number_text w ++ "' height='" ++ number_text h
   ++ "'%3E%3Crect width='100%25' height='100%25' fill='%23f3f4f6'/%3E%3C/svg%3E")%string.

(** [placeholderChain(w, h)], with the random [sig] it draws as argument. *)
Definition placeholderChain (sig w h : Z) : list string :=
  [randomUnsplash w h sig; picsum w h sig; grey_svg w h].

(** [list[i]] written to [imgEl.src]: outside the list it is [undefined],
    which the attribute holds as a string. *)
Definition list_at (list : list string) (i : Z) : string :=
  if (i <? 0)%Z then "undefined"
  else match nth_error list (Z.to_nat i) with
       | Some s => s
       | None => "undefined"
       end.

(** [setNextFallback(imgEl, w, h)]: what it returns and the element after. *)
Definition setNextFallback (sig : Z) (imgEl : img_el) (w h : Z) : bool * img_el :=
  let i := parseInt10 match fidx imgEl with
                      | Some s => if nonempty s then s else "0"
                      | None => "0"
                      end in
  let list := placeholderChain sig w h in
  match i with
  | Some i =>
      if (i <? Z.of_nat (length list))%Z
      then (true, {| src_attr := list_at list i;
                     fidx := Some (number_text (i + 1));
                     hidden := hidden imgEl |})
      else (false, {| src_attr := src_attr imgEl; fidx := fidx imgEl;
                      hidden := true |})
  | None => (false, {| src_attr := src_attr imgEl; fidx := fidx imgEl;
                       hidden := true |})
  end.

(** A run of failures: one call of [setNextFallback] per element of [sigs]. *)
Fixpoint fallbacks (sigs : list Z) (imgEl : img_el) (w h : Z) : list bool * img_el :=
  match sigs with
  | [] => ([], imgEl)
  | sig :: rest =>
      let (ok, el) := setNextFallback sig imgEl w h in
      let (oks, final) := fallbacks rest el w h in
      (ok :: oks, final)
  end.

(** ** The image of an item *)

Definition IMG_CACHE_KEY : string := "mw.img.cache.v2".

(** [/^www\./] *)
Definition re_www : regex := Cat Bol (Chars "www.").

Definition domainFromUrl `{Browser} (u : string) : string :=
  match URL_parse u with
  | Some parsed => replace false re_www "" (hostname parsed)
  | None => ""
  end.

(** What [localStorage] holds under one key: nothing or a text; [Blocked]
    is a storage every access to which throws. *)
Inductive storage : Type :=
| Blocked
| Holds (text : option string).

(** The object [{}]; no one compares a cache with another object. *)
Definition empty_cache : value := VObj 0 [].

(** [JSON.parse(localStorage.getItem(IMG_CACHE_KEY) || "{}")], with [{}]
    for whatever is thrown. *)
Definition loadImgCache `{Browser} (st : storage) : value :=
  match st with
  | Blocked => empty_cache
  | Holds None => empty_cache
  | Holds (Some text) =>
      if nonempty text
      then match JSON_parse text with
           | inr v => v
           | inl _ => empty_cache
           end
      else empty_cache
  end.

(** [localStorage.setItem(IMG_CACHE_KEY, JSON.stringify(map))], a refusal
    of which is ignored. *)
Definition saveImgCache `{Browser} (map : value) (st : storage) : storage :=
  match st with
  | Blocked => Blocked
  | Holds _ => Holds (Some (JSON_stringify map))
  end.

(** [props] with [k] set to [v]: in place when [k] is there, at the end
    when it is new. *)
Fixpoint set_prop (k : string) (v : value) (props : list (string * value))
  : list (string * value) :=
  match props with
  | [] => [(k, v)]
  | (k', v') :: rest =>
      if k' =? k then (k, v) :: rest else (k', v') :: set_prop k v rest
  end.

(** [o[k] = v] in a module, which is strict code: a [TypeError] ([None]) on
    [null], [undefined] and the primitives.  On an array the property is
    set but is no element, so that the array serialises as before; the keys
    here are article urls, never indices. *)
Definition assign (o : value) (k : string) (v : value) : option value :=
  match o with
  | VObj r props => Some (VObj r (set_prop k v props))
  | VArr _ _ => Some o
  | _ => None
  end.

(** The fields of an item that the image depends on; a missing string
    field is the empty string. *)
Record item_image : Type :=
  { image_src : string; image_caption : string;
    image_credit : string; image_href : string }.

Record item : Type :=
  { the_image : option item_image;    (* [item.image] *)
    link_urls : list string }.        (* the [url] of each of [item.links] *)

(** The state [img] of [useResolvedImage]. *)
Record resolved : Type :=
  { src : value; caption : string; credit : string; href : string }.

Definition explicit_src (it : item) : string :=
  match the_image it with Some im => image_src im | None => "" end.

(** [s && !isLogoish(s) && !isBadExt(s)] *)
Definition usable (s : string) : bool :=
  nonempty s && negb (isLogoish s) && negb (isBadExt s).

Definition firstUrl (it : item) : string :=
  match link_urls it with
  | u :: _ => u
  | [] => ""
  end.

Definition unsplash_placeholder (sig : Z) : resolved :=
  {| src := VStr (randomUnsplash 1200 800 sig);
     caption := "Unsplash Wallpapers (random)";
     credit := "Unsplash";
     href := "https://unsplash.com/t/wallpapers" |}.

(** The initial state, [sig] being the random number of the placeholder. *)
Definition initial (it : item) (sig : Z) : resolved :=
  let s := explicit_src it in
  if usable s
  then match the_image it with
       | Some im =>
           {| src := VStr s; caption := image_caption im;
              credit := image_credit im;
              href := if nonempty (image_href im) then image_href im else s |}
       | None => unsplash_placeholder sig
       end
  else unsplash_placeholder sig.

Definition og_image `{Browser} (s : value) (u : string) : resolved :=
  {| src := s; caption := domainFromUrl u; credit := "OG"; href := u |}.

(** The effect of [useResolvedImage], run to its end: the state [img] and
    the storage after it.  [alive] says whether the component is still
    mounted when the scrape comes back; no one else writes the storage
    while the effect runs. *)
Definition resolve_effect `{Browser} (it : item) (alive : bool)
    (img : resolved) (st : storage) : resolved * storage :=
  if usable (explicit_src it) then (img, st)
  else
    let cache := loadImgCache st in
    let u := firstUrl it in
    if negb (nonempty u) then (img, st)
    else
      match read cache u with
      | None => (img, st)
      | Some hit =>
          if truthy hit then (og_image hit u, st)
          else
            match resolveArticleImage u with
            | Rejects => (img, st)
            | Returns s =>
                if negb alive then (img, st)
                else if nonempty s
                then
                  let nextCache := loadImgCache st in
                  match assign nextCache u (VStr s) with
                  | Some written =>
                      (og_image (VStr s) u, saveImgCache written st)
                  | None => (img, st)
                  end
                else (img, st)
            end
      end.

Definition useResolvedImage `{Browser} (it : item) (sig : Z) (alive : bool)
    (st : storage) : resolved * storage :=
  resolve_effect it alive (initial it sig) st.

(** The text written for [v] is read back, by a browser that may be
    another one, as a value that serialises as [v] does. *)
Definition reads_back (writer reader : Browser) (v stored : value) : Prop :=
  nonempty (@JSON_stringify writer v) = true /\
  @JSON_parse reader (@JSON_stringify writer v) = inr stored /\
  deep_equal v stored.

(** *** A browser with an image cache, for the examples *)

Definition cache_text : string :=
  dq "{'https://example.com/post':'https://cdn.example.com/uploads/hero-1200.jpg'}".

Definition cache_browser : Browser :=
  {| URL_parse := demo_URL_parse;
     URL_resolve := fun rel base => Some (base ++ rel)%string;
     fetch := demo_fetch;
     JSON_parse := fun text =>
       if text =? cache_text then inr (VObj 500 [(demo_article, VStr demo_hero)])
       else inl "Unexpected token";
     JSON_stringify := fun v =>
       if json_eqb v (VObj 0 [(demo_article, VStr demo_hero)]) then cache_text
       else "{}";
     null_read_message := "Cannot read properties of null (reading 'id')" |}.

(** The same browser without a network. *)
Definition offline_browser : Browser :=
  {| URL_parse := demo_URL_parse;
     URL_resolve := fun rel base => Some (base ++ rel)%string;
     fetch := fun _ => NetworkError;
     JSON_parse := @JSON_parse cache_browser;
     JSON_stringify := @JSON_stringify cache_browser;
     null_read_message := "Cannot read properties of null (reading 'id')" |}.

Definition demo_item : item :=
  {| the_image :=
       Some {| image_src := "https://example.com/static/site-logo.png";
               image_caption := ""; image_credit := ""; image_href := "" |};
     link_urls := [demo_article] |}.

(** ** The admin gate *)

(** The two parameters of [window.location.search] that [useAdmin] reads;
    [None] is the [null] that [URLSearchParams.get] gives for a missing
    one. *)
Record query : Type :=
  { key_param : option string; admin_param : option string }.

(** [localStorage.getItem("mw.admin") === "1"], [false] when that throws. *)
Definition stored_admin (st : storage) : bool :=
  match st with
  | Holds (Some t) => t =? "1"
  | _ => false
  end.

(** [localStorage.setItem("mw.admin", "1")], a refusal of which is
    ignored. *)
Definition store_admin (st : storage) : storage :=
  match st with
  | Blocked => Blocked
  | Holds _ => Holds (Some "1")
  end.

(** [useAdmin] after its effect: the state [isAdmin] and the storage.
    [envKey] is the build's [VITE_ADMIN_KEY], trimmed, empty when there is
    none. *)
Definition useAdmin (envKey : string) (q : query) (st : storage) : bool * storage :=
  let isAdmin := stored_admin st in
  let urlKey :=
    match key_param q with
    | Some k => if nonempty k then k else ""
    | None => ""
    end in
  let enableFlag :=
    match admin_param q with
    | Some a => a =? "1"
    | None => false
    end in
  let ok := if nonempty envKey then urlKey =? envKey else enableFlag in
  if ok then (true, store_admin st) else (isAdmin, st).

(** ** The issue on screen *)

(** [a === b]: as [SameValueZero], but that [NaN] equals nothing. *)
Definition strict_eq (a b : value) : bool :=
  match a with
  | VNaN => false
  | _ => key_eqb (key_of a) (key_of b)
  end.

(** [xs.find((i) => i.id === id)]: [Some None] is [undefined], [None] the
    [TypeError] of reading [id] of [null] or [undefined]. *)
Fixpoint find_id (id : value) (xs : list value) : option (option value) :=
  match xs with
  | [] => Some None
  | i :: rest =>
      match read i "id" with
      | None => None
      | Some v => if strict_eq v id then Some (Some i) else find_id id rest
      end
  end.

(** [currentIssue], from the route and the sorted issues. *)
Definition currentIssue (rt : route) (issuesSorted : list value) : option value :=
  if negb (name rt =? "issue") then Some VNull
  else
    let id :=
      match params rt with
      | p :: _ => VStr p
      | [] => VUndefined
      end in
    match find_id id issuesSorted with
    | None => None
    | Some (Some i) => if truthy i then Some i else Some VNull
    | Some None => Some VNull
    end.

(** Which page [MondayWeekly] renders: the issue page of an issue, or the
    archive. *)
Inductive screen : Type :=
| IssuePage (issue : value)
| ArchivePage.

Definition shown (rt : route) (current : value) : screen :=
  if (name rt =? "issue") && truthy current then IssuePage current
  else ArchivePage.

(** ** The writers of the store *)

(** One write to the store by the page: the manifest load, the lazy load
    of the issue of a route, or an import that was applied. *)
Inductive writes `{Browser} : value -> value -> Prop :=
| manifest_loaded (prev d : value) (r : ref) :
    load_manifest prev r = Some d -> writes prev d
| issue_loaded (route_name : string) (params : list string) (prev d : value) (r : ref) :
    lazy_load route_name params prev r = Update d -> writes prev d
| imported (text : string) (a a' : page) (payload : value) :
    handleImport text a = Applied payload (Some a') -> writes (data a) (data a').

(** Any number of writes, one after the other. *)
Inductive history `{Browser} : value -> value -> Prop :=
| no_write (d : value) : history d d
| then_write (d0 d d' : value) : history d0 d -> writes d d' -> history d0 d'.

(** The store of the example site after the manifest load, and after the
    lazy load of a further week. *)
Definition loaded_store : value :=
  new_data 300 (mergeIssues (issues_or_empty bootstrapData) [week34; week35]).

Definition later_store : value :=
  new_data 310 (mergeIssues (issues_or_empty loaded_store) [week36]).

(** ** Answers at a later moment *)

(** Induction on values, through the elements of arrays and the properties
    of objects. *)
Section ValueInduction.
Variable P : value -> Prop.
Hypothesis P_undefined : P VUndefined.
Hypothesis P_null : P VNull.
Hypothesis P_bool : forall b, P (VBool b).
Hypothesis P_num : forall n, P (VNum n).
Hypothesis P_nan : P VNaN.
Hypothesis P_str : forall s, P (VStr s).
Hypothesis P_arr : forall r items, Forall P items -> P (VArr r items).
Hypothesis P_obj :
  forall r props, Forall (fun kv => P (snd kv)) props -> P (VObj r props).

Fixpoint value_induction (v : value) : P v :=
  match v with
  | VUndefined => P_undefined
  | VNull => P_null
  | VBool b => P_bool b
  | VNum n => P_num n
  | VNaN => P_nan
  | VStr s => P_str s
  | VArr r items =>
      P_arr r items
        ((fix all (l : list value) : Forall P l :=
            match l with
            | [] => Forall_nil P
            | x :: rest => Forall_cons x (value_induction x) (all rest)
            end) items)
  | VObj r props =>
      P_obj r props
        ((fix all (l : list (string * value)) : Forall (fun kv => P (snd kv)) l :=
            match l with
            | [] => Forall_nil _
            | (k, x) :: rest =>
                Forall_cons (k, x) (value_induction x) (all rest)
            end) props)
  end.

End ValueInduction.

(** The value that a later parse of the same text gives: the same shape
    and the same primitives, in objects and arrays that did not exist
    before.  [n] is the distance of the new references from the old. *)
Fixpoint refresh (n : nat) (v : value) : value :=
  match v with
  | VArr r items => VArr (n + r) (map (refresh n) items)
  | VObj r props =>
      VObj (n + r) (map (fun kv => match kv with (k, x) => (k, refresh n x) end) props)
  | _ => v
  end.

(** The browser [n] parses later: the same answers, in fresh objects. *)
Definition later (B : Browser) (n : nat) : Browser :=
  {| URL_parse := @URL_parse B;
     URL_resolve := @URL_resolve B;
     fetch := @fetch B;
     JSON_parse := fun text =>
       match @JSON_parse B text with
       | inr v => inr (refresh n v)
       | inl msg => inl msg
       end;
     JSON_stringify := @JSON_stringify B;
     null_read_message := @null_read_message B |}.

(** The site answers the second browser as it answered the first: what
    [fetchJSON] gives for a url is thrown for both or is, for the second, a
    value that serialises as the one the first was given.  Nothing is said
    about the references of the objects, which are fresh at every parse. *)
Definition answers_again (first second : Browser) : Prop :=
  forall u,
    match @fetchJSON first u, @fetchJSON second u with
    | Some v, Some w => deep_equal v w
    | None, None => True
    | _, _ => False
    end.

(** The ids of a list of issues are primitives: strings, numbers, booleans. *)
Definition primitive_ids (issues : list value) : Prop :=
  Forall (fun e => primitive (opt_chain e "id") = true) issues.

(** ** The hash that the browser hands back *)

Definition hex_digit (n : N) : ascii :=
  match n with
  | 0 => "0" | 1 => "1" | 2 => "2" | 3 => "3" | 4 => "4" | 5 => "5"
  | 6 => "6" | 7 => "7" | 8 => "8" | 9 => "9" | 10 => "A" | 11 => "B"
  | 12 => "C" | 13 => "D" | 14 => "E" | _ => "F"
  end%N%char.

(** The percent-encoding of a byte: [%] and two upper-case hex digits. *)
Definition percent_byte (c : ascii) : string :=
  let n := N_of_ascii c in
  String "%" (String (hex_digit (n / 16)) (String (hex_digit (n mod 16)) EmptyString)).

(** Tab, line feed and carriage return, which the url parser removes. *)
Definition tab_or_newline (c : ascii) : bool :=
  let n := N_of_ascii c in
  ((n =? 9) || (n =? 10) || (n =? 13))%N.

(** The bytes that stay as they are in a fragment: the printable ASCII
    characters but the space, the double quote, [<], [>] and the backquote.
    Strings are the UTF-8 bytes of the text, so that every byte of a
    character outside ASCII is encoded. *)
Definition fragment_keeps (c : ascii) : bool :=
  let n := N_of_ascii c in
  ((33 <=? n) && (n <=? 126)
   && negb ((n =? 34) || (n =? 60) || (n =? 62) || (n =? 96)))%N.

(** The fragment that the url parser makes of an input. *)
Fixpoint fragment_encode (s : string) : string :=
  match s with
  | EmptyString => EmptyString
  | String c t =>
      if tab_or_newline c then fragment_encode t
      else if fragment_keeps c then String c (fragment_encode t)
      else (percent_byte c ++ fragment_encode t)%string
  end.

(** What [window.location.hash] reads once [assigned] was assigned to it:
    one leading [#] is dropped, the rest becomes the fragment of the url,
    and the getter puts a [#] before a fragment that is not empty. *)
Definition location_hash (assigned : string) : string :=
  let input := match assigned with String "#" t => t | _ => assigned end in
  let fragment := fragment_encode input in
  if nonempty fragment then String "#" fragment else EmptyString.

(** [parseHash()] after [go(to)]: the route the page then shows. *)
Definition route_after_go (to : string) : route :=
  parseHashFromString (location_hash (go_hash to)).

(** A string that the url parser leaves as it is. *)
Definition plain (s : string) : bool :=
  (fragment_encode s =? s).

(** The pieces between the slashes of a route string, one leading [#]
    dropped; the router looks at the pieces that are not empty. *)
Definition pieces (s : string) : list string :=
  split_slash match s with
              | String "#" t => t
              | _ => s
              end.

(* ================================================================== *)
(** * Part II: lemmas and theorems *)
(* ================================================================== *)

(** ** Keys *)

Lemma key_eqb_eq (a b : key) : key_eqb a b = true <-> a = b.
Proof.
  destruct a, b; simpl; split; intro H;
    try reflexivity; try discriminate; try congruence.
  - apply Bool.eqb_prop in H. now subst.
  - injection H as ->. apply Bool.eqb_reflx.
  - apply Z.eqb_eq in H. now subst.
  - injection H as ->. apply Z.eqb_refl.
  - apply String.eqb_eq in H. now subst.
  - injection H as ->. apply String.eqb_refl.
  - apply Nat.eqb_eq in H. now subst.
  - injection H as ->. apply Nat.eqb_refl.
Qed.

Lemma key_eqb_refl (a : key) : key_eqb a a = true.
Proof. now apply key_eqb_eq. Qed.

Lemma key_eqb_neq (a b : key) : key_eqb a b = false <-> a <> b.
Proof.
  split.
  - intros H E. apply key_eqb_eq in E. congruence.
  - intros H. destruct (key_eqb a b) eqn:E; [|reflexivity].
    apply key_eqb_eq in E. contradiction.
Qed.

Lemma key_eqb_sym (a b : key) : key_eqb a b = key_eqb b a.
Proof.
  destruct (key_eqb a b) eqn:E.
  - apply key_eqb_eq in E. subst. symmetry. apply key_eqb_refl.
  - symmetry. apply key_eqb_neq. apply key_eqb_neq in E. congruence.
Qed.

Lemma existsb_key_In (k : key) (ks : list key) :
  existsb (key_eqb k) ks = true <-> In k ks.
Proof.
  rewrite existsb_exists. split.
  - intros [x [Hx E]]. apply key_eqb_eq in E. now subst.
  - intros H. exists k. split; [assumption | apply key_eqb_refl].
Qed.

Lemma existsb_key_notIn (k : key) (ks : list key) :
  existsb (key_eqb k) ks = false <-> ~ In k ks.
Proof.
  rewrite <- existsb_key_In. destruct (existsb (key_eqb k) ks).
  - split; [discriminate | intros H; exfalso; now apply H].
  - split; [intros _; discriminate | reflexivity].
Qed.

(** ** The association list behind the [Map] *)

Lemma map_keys_set (k : key) (v : value) (m : jsmap) :
  map_keys (map_set k v m) = add_key (map_keys m) k.
Proof.
  unfold add_key. induction m as [|[k' v'] m IH]; simpl.
  - reflexivity.
  - destruct (key_eqb k k') eqn:E; simpl.
    + apply key_eqb_eq in E. now subst.
    + rewrite IH. unfold map_keys.
      destruct (existsb (key_eqb k) (map fst m)); reflexivity.
Qed.

Lemma map_get_set (k k' : key) (v : value) (m : jsmap) :
  map_get k' (map_set k v m) = if key_eqb k' k then Some v else map_get k' m.
Proof.
  induction m as [|[k0 v0] m IH]; simpl.
  - reflexivity.
  - destruct (key_eqb k k0) eqn:E; simpl.
    + apply key_eqb_eq in E. subst k0. destruct (key_eqb k' k); reflexivity.
    + rewrite IH. destruct (key_eqb k' k0) eqn:E0.
      * apply key_eqb_eq in E0. subst k0.
        rewrite key_eqb_sym, E. reflexivity.
      * reflexivity.
Qed.

Lemma map_get_None (k : key) (m : jsmap) :
  map_get k m = None <-> ~ In k (map_keys m).
Proof.
  induction m as [|[k' v'] m IH]; simpl.
  - tauto.
  - destruct (key_eqb k k') eqn:E.
    + apply key_eqb_eq in E. subst. split; [discriminate | intros H; exfalso; auto].
    + apply key_eqb_neq in E. rewrite IH. split.
      * intros H [H1 | H1]; [congruence | contradiction].
      * intros H H1. apply H. now right.
Qed.

Lemma map_get_In (k : key) (v : value) (m : jsmap) :
  NoDup (map_keys m) -> (map_get k m = Some v <-> In (k, v) m).
Proof.
  induction m as [|[k' v'] m IH]; simpl; intros ND.
  - split; [discriminate | contradiction].
  - inversion ND as [|? ? Hnot ND']; subst.
    destruct (key_eqb k k') eqn:E.
    + apply key_eqb_eq in E. subst k'. split.
      * intros [= ->]. now left.
      * intros [[= ->] | H]; [reflexivity|].
        exfalso. apply Hnot. unfold map_keys.
        change k with (fst (k, v)). now apply in_map.
    + apply key_eqb_neq in E. rewrite (IH ND'). split.
      * intros H. now right.
      * intros [[= -> ->] | H]; [congruence | assumption].
Qed.

Lemma jsmap_ext (m1 m2 : jsmap) :
  NoDup (map_keys m1) ->
  map_keys m1 = map_keys m2 ->
  (forall k, map_get k m1 = map_get k m2) ->
  m1 = m2.
Proof.
  revert m2. induction m1 as [|[k1 v1] m1 IH]; intros [|[k2 v2] m2] ND HK HG;
    simpl in HK; try discriminate; [reflexivity|].
  injection HK as -> HK.
  inversion ND as [|? ? Hnot ND']; subst.
  pose proof (HG k2) as Hk. simpl in Hk. rewrite key_eqb_refl in Hk.
  injection Hk as ->. f_equal.
  apply IH; [assumption | assumption |].
  intros k. destruct (key_eqb k k2) eqn:E.
  - apply key_eqb_eq in E. subst k.
    assert (H1 : map_get k2 m1 = None) by now apply map_get_None.
    assert (H2 : map_get k2 m2 = None)
      by (apply map_get_None; unfold map_keys in *; now rewrite <- HK).
    congruence.
  - specialize (HG k). simpl in HG. now rewrite E in HG.
Qed.

(** ** Keys in order of first appearance *)

Lemma add_key_In (k x : key) (seen : list key) :
  In x (add_key seen k) <-> In x seen \/ x = k.
Proof.
  unfold add_key. destruct (existsb (key_eqb k) seen) eqn:E.
  - apply existsb_key_In in E. split; [tauto|]. intros [H | ->]; assumption.
  - rewrite in_app_iff. simpl. intuition congruence.
Qed.

Lemma add_key_NoDup (k : key) (seen : list key) :
  NoDup seen -> NoDup (add_key seen k).
Proof.
  unfold add_key. intros ND. destruct (existsb (key_eqb k) seen) eqn:E.
  - assumption.
  - apply existsb_key_notIn in E.
    apply NoDup_app; [assumption | repeat constructor; intros [] |].
    intros x Hx [-> | []]. contradiction.
Qed.

Lemma add_keys_In (x : key) (ks seen : list key) :
  In x (fold_left add_key ks seen) <-> In x seen \/ In x ks.
Proof.
  revert seen. induction ks as [|k ks IH]; intros seen; simpl.
  - tauto.
  - rewrite IH, add_key_In. intuition congruence.
Qed.

Lemma add_keys_NoDup (ks seen : list key) :
  NoDup seen -> NoDup (fold_left add_key ks seen).
Proof.
  revert seen. induction ks as [|k ks IH]; intros seen ND; simpl.
  - assumption.
  - apply IH. now apply add_key_NoDup.
Qed.

Lemma add_keys_present (ks seen : list key) :
  (forall k, In k ks -> In k seen) -> fold_left add_key ks seen = seen.
Proof.
  revert seen. induction ks as [|k ks IH]; intros seen H; simpl.
  - reflexivity.
  - assert (E : add_key seen k = seen).
    { unfold add_key.
      assert (Hk : existsb (key_eqb k) seen = true)
        by (apply existsb_key_In; apply H; now left).
      now rewrite Hk. }
    rewrite E. apply IH. intros x Hx. apply H. now right.
Qed.

Lemma add_keys_fresh (ks seen : list key) :
  NoDup (seen ++ ks) -> fold_left add_key ks seen = seen ++ ks.
Proof.
  revert seen. induction ks as [|k ks IH]; intros seen ND; simpl.
  - now rewrite app_nil_r.
  - assert (Hk : ~ In k seen).
    { apply NoDup_remove_2 in ND. intros H. apply ND.
      apply in_or_app. now left. }
    assert (E : add_key seen k = seen ++ [k]).
    { unfold add_key. apply existsb_key_notIn in Hk. now rewrite Hk. }
    rewrite E, IH.
    + now rewrite <- app_assoc.
    + now rewrite <- app_assoc.
Qed.

Lemma first_seen_In (x : key) (ks : list key) : In x (first_seen ks) <-> In x ks.
Proof. unfold first_seen. rewrite add_keys_In. simpl. tauto. Qed.

Lemma first_seen_NoDup (ks : list key) : NoDup (first_seen ks).
Proof. unfold first_seen. apply add_keys_NoDup. constructor. Qed.

Lemma first_seen_id (ks : list key) : NoDup ks -> first_seen ks = ks.
Proof. intros ND. unfold first_seen. now rewrite add_keys_fresh. Qed.

(** ** Entries and their keys *)

Lemma set_if_id_entry_key (m : jsmap) (i : value) :
  set_if_id m i =
  match entry_key i with Some k => map_set k i m | None => m end.
Proof.
  unfold set_if_id, entry_key. now destruct (truthy (opt_chain i "id")).
Qed.

Lemma entry_key_truthy (i : value) (k : key) :
  entry_key i = Some k -> has_truthy_id i /\ k = key_of (opt_chain i "id").
Proof.
  unfold entry_key, has_truthy_id.
  destruct (truthy (opt_chain i "id")); [|discriminate].
  intros [= <-]. now split.
Qed.

Lemma has_truthy_id_entry_key (i : value) :
  has_truthy_id i -> entry_key i = Some (key_of (opt_chain i "id")).
Proof. unfold entry_key, has_truthy_id. now intros ->. Qed.

Lemma ids_app (l1 l2 : list value) : ids (l1 ++ l2) = ids l1 ++ ids l2.
Proof.
  induction l1 as [|i l1 IH]; simpl; [reflexivity|].
  destruct (entry_key i); simpl; now rewrite IH.
Qed.

Lemma ids_In (k : key) (l : list value) :
  In k (ids l) <-> exists i, In i l /\ entry_key i = Some k.
Proof.
  induction l as [|i l IH]; simpl.
  - split; [contradiction | intros [? [[] _]]].
  - destruct (entry_key i) as [k'|] eqn:E; simpl; rewrite ?IH; split.
    + intros [-> | [j [Hj Ej]]]; [exists i | exists j]; auto.
    + intros [j [[-> | Hj] Ej]]; [left; congruence | right; exists j; auto].
    + intros [j [Hj Ej]]. exists j; auto.
    + intros [j [[-> | Hj] Ej]]; [congruence | exists j; auto].
Qed.

Lemma last_with_app (k : key) (l1 l2 : list value) :
  last_with k (l1 ++ l2) =
  match last_with k l2 with Some e => Some e | None => last_with k l1 end.
Proof.
  induction l1 as [|i l1 IH]; simpl.
  - now destruct (last_with k l2).
  - rewrite IH. now destruct (last_with k l2).
Qed.

Lemma last_with_Some (k : key) (l : list value) (e : value) :
  last_with k l = Some e -> In e l /\ entry_key e = Some k.
Proof.
  induction l as [|i l IH]; simpl; [discriminate|].
  destruct (last_with k l) as [j|].
  - intros [= <-]. destruct (IH eq_refl) as [H1 H2]. auto.
  - destruct (entry_key i) as [k'|] eqn:E; [|discriminate].
    destruct (key_eqb k k') eqn:Ek; [|discriminate].
    apply key_eqb_eq in Ek. subst k'. intros [= <-]. auto.
Qed.

Lemma last_with_None (k : key) (l : list value) :
  last_with k l = None <-> ~ In k (ids l).
Proof.
  induction l as [|i l IH]; simpl; [tauto|].
  destruct (last_with k l) as [j|] eqn:El.
  - split; [discriminate|]. intros Hn. exfalso. apply Hn.
    destruct (last_with_Some k l j El) as [Hj Hk].
    assert (Hin : In k (ids l)) by (apply ids_In; now exists j).
    destruct (entry_key i); [now right | assumption].
  - destruct (entry_key i) as [k'|] eqn:E.
    + destruct (key_eqb k k') eqn:Ek.
      * apply key_eqb_eq in Ek. subst. split; [discriminate|].
        intros Hn. exfalso. apply Hn. now left.
      * apply key_eqb_neq in Ek. split; [|reflexivity].
        intros _ [Hin | Hin]; [congruence | now apply IH in Hin].
    + split; [|reflexivity]. intros _. now apply IH.
Qed.

Lemma last_with_present (k : key) (l : list value) :
  In k (ids l) -> exists e, last_with k l = Some e.
Proof.
  intros H. destruct (last_with k l) as [e|] eqn:E; [now exists e|].
  apply last_with_None in E. contradiction.
Qed.

(** ** What the loops build *)

Lemma fill_keys (l : list value) (m : jsmap) :
  map_keys (fold_left set_if_id l m) = fold_left add_key (ids l) (map_keys m).
Proof.
  revert m. induction l as [|i l IH]; intros m; simpl; [reflexivity|].
  rewrite IH, set_if_id_entry_key.
  destruct (entry_key i) as [k|]; simpl; [|reflexivity].
  now rewrite map_keys_set.
Qed.

Lemma fill_get (k : key) (l : list value) (m : jsmap) :
  map_get k (fold_left set_if_id l m) =
  match last_with k l with Some e => Some e | None => map_get k m end.
Proof.
  revert m. induction l as [|i l IH]; intros m; simpl; [reflexivity|].
  rewrite IH, set_if_id_entry_key.
  destruct (last_with k l) as [j|]; [reflexivity|].
  destruct (entry_key i) as [k'|]; [|reflexivity].
  rewrite map_get_set. now destruct (key_eqb k k').
Qed.

Lemma map_set_well_keyed (k : key) (i : value) (m : jsmap) :
  entry_key i = Some k -> well_keyed m -> well_keyed (map_set k i m).
Proof.
  intros Ek [ND F]. split.
  - rewrite map_keys_set. now apply add_key_NoDup.
  - clear ND. induction m as [|[k' v'] m IH]; simpl.
    + constructor; [assumption | constructor].
    + inversion F as [|? ? Hhd Htl]; subst.
      destruct (key_eqb k k'); constructor; auto.
Qed.

Lemma fill_well_keyed (l : list value) (m : jsmap) :
  well_keyed m -> well_keyed (fold_left set_if_id l m).
Proof.
  revert m. induction l as [|i l IH]; intros m W; simpl; [assumption|].
  apply IH. rewrite set_if_id_entry_key.
  destruct (entry_key i) as [k|] eqn:E; [|assumption].
  now apply map_set_well_keyed.
Qed.

Lemma well_keyed_nil : well_keyed [].
Proof. split; constructor. Qed.

Lemma well_keyed_ids (m : jsmap) :
  well_keyed m -> ids (map_values m) = map_keys m.
Proof.
  intros [_ F]. induction F as [|[k v] m Hkv F IH]; simpl; [reflexivity|].
  simpl in Hkv. rewrite Hkv. simpl. now rewrite IH.
Qed.

Lemma well_keyed_entry_at (k : key) (m : jsmap) :
  well_keyed m -> entry_at k (map_values m) = map_get k m.
Proof.
  intros [_ F]. induction F as [|[k' v] m Hkv F IH]; simpl; [reflexivity|].
  simpl in Hkv. rewrite Hkv, IH. reflexivity.
Qed.

Lemma well_keyed_last (k : key) (m : jsmap) :
  well_keyed m -> last_with k (map_values m) = map_get k m.
Proof.
  intros [ND F]. induction F as [|[k' v] m Hkv F IH]; simpl; [reflexivity|].
  simpl in Hkv. inversion ND as [|? ? Hnot ND']; subst.
  rewrite (IH ND'), Hkv. destruct (key_eqb k k') eqn:E.
  - apply key_eqb_eq in E. subst k'.
    assert (H : map_get k m = None) by now apply map_get_None.
    now rewrite H.
  - now destruct (map_get k m).
Qed.

Lemma well_keyed_values (m : jsmap) (e : value) :
  well_keyed m ->
  (In e (map_values m) <-> exists k, entry_key e = Some k /\ map_get k m = Some e).
Proof.
  intros [ND F]. split.
  - intros H. unfold map_values in H. apply in_map_iff in H.
    destruct H as [[k v] [Hv Hin]]. simpl in Hv. subst v.
    exists k. split.
    + rewrite Forall_forall in F. exact (F _ Hin).
    + now apply map_get_In.
  - intros [k [_ Hg]]. apply map_get_In in Hg; [|assumption].
    unfold map_values. change e with (snd (k, e)). now apply in_map.
Qed.

(** Reading a map out and loading it again rebuilds the same map. *)
Lemma refill (m : jsmap) :
  well_keyed m -> fold_left set_if_id (map_values m) [] = m.
Proof.
  intros W. apply jsmap_ext.
  - apply fill_well_keyed, well_keyed_nil.
  - rewrite fill_keys, (well_keyed_ids m W). simpl.
    apply first_seen_id. apply W.
  - intros k. rewrite fill_get, (well_keyed_last k m W). simpl.
    now destruct (map_get k m).
Qed.

(** Running a loop a second time over the same list changes nothing. *)
Lemma fill_twice (l : list value) (m : jsmap) :
  NoDup (map_keys m) ->
  fold_left set_if_id l (fold_left set_if_id l m) = fold_left set_if_id l m.
Proof.
  intros ND. apply jsmap_ext.
  - rewrite !fill_keys. now repeat apply add_keys_NoDup.
  - rewrite fill_keys. apply add_keys_present.
    intros k Hk. rewrite fill_keys. apply add_keys_In. now right.
  - intros k. rewrite !fill_get. now destruct (last_with k l).
Qed.

Lemma mergeIssues_fill (L R : list value) :
  mergeIssues L R = map_values (fold_left set_if_id (L ++ R) []).
Proof. unfold mergeIssues. now rewrite fold_left_app. Qed.

Lemma merged_well_keyed (L R : list value) :
  well_keyed (fold_left set_if_id (L ++ R) []).
Proof. apply fill_well_keyed, well_keyed_nil. Qed.

Lemma mergeIssues_ids (L R : list value) :
  ids (mergeIssues L R) = first_seen (ids L ++ ids R).
Proof.
  rewrite mergeIssues_fill, (well_keyed_ids _ (merged_well_keyed L R)).
  rewrite fill_keys, ids_app. reflexivity.
Qed.

Lemma mergeIssues_In (L R : list value) (e : value) :
  In e (mergeIssues L R) <->
  exists k, entry_key e = Some k /\ last_with k (L ++ R) = Some e.
Proof.
  rewrite mergeIssues_fill, (well_keyed_values _ e (merged_well_keyed L R)).
  split; intros [k [Hk Hg]]; exists k; split; try assumption.
  - rewrite fill_get in Hg. simpl in Hg. now destruct (last_with k (L ++ R)).
  - rewrite fill_get, Hg. reflexivity.
Qed.

Lemma mergeIssues_entry_at (L R : list value) (k : key) :
  entry_at k (mergeIssues L R) = last_with k (L ++ R).
Proof.
  rewrite mergeIssues_fill, (well_keyed_entry_at _ _ (merged_well_keyed L R)).
  rewrite fill_get. simpl. now destruct (last_with k (L ++ R)).
Qed.

(** ** Theorems about [mergeIssues] *)

Example mergeIssues_test_panel :
  mergeIssues test_local test_remote =
  [ issue 1 "A" [("start", VStr "2025-01-01")];
    issue 3 "B" [("start", VStr "2025-02-02"); ("marker", VStr "remote")];
    issue 4 "C" [("start", VStr "2025-01-03")] ].
Proof. reflexivity. Qed.

Lemma mergeIssues_all_truthy (L R : list value) :
  Forall has_truthy_id (mergeIssues L R).
Proof.
  apply Forall_forall. intros e He. apply mergeIssues_In in He.
  destruct He as [k [Hk _]]. now apply entry_key_truthy in Hk.
Qed.

Lemma ids_all_truthy (l : list value) :
  Forall has_truthy_id l -> ids l = map (fun e => key_of (opt_chain e "id")) l.
Proof.
  induction 1 as [|i l Hi F IH]; simpl; [reflexivity|].
  now rewrite (has_truthy_id_entry_key i Hi), IH.
Qed.

(** C1.  When every entry of [L] and of [R] has a truthy id, the merged list
    has exactly one entry per id of the union of the ids of [L] and [R]
    (every merged entry has an id, the ids are pairwise distinct, and they
    are the ids of [L] together with those of [R]); for an id present in both
    lists the merged entry is the entry of [R] itself (its last one under
    that id), as a whole object, and an entry of [L] under that id that is
    not an entry of [R] is not in the merged list. *)
Theorem mergeIssues_union_remote_wins (L R : list value) :
  Forall has_truthy_id L -> Forall has_truthy_id R ->
  let M := mergeIssues L R in
  (Forall has_truthy_id M /\ NoDup (ids M) /\
   forall k, In k (ids M) <-> In k (ids L) \/ In k (ids R)) /\
  (forall k, In k (ids L) -> In k (ids R) ->
     exists e, In e R /\ last_with k R = Some e /\ entry_at k M = Some e /\
       forall e', In e' M -> entry_key e' = Some k -> e' = e) /\
  (forall k eL, In eL L -> entry_key eL = Some k -> In k (ids R) ->
     ~ In eL R -> ~ In eL M).
Proof.
  intros HL HR M. subst M.
  assert (Hwin : forall k, In k (ids R) ->
     exists e, In e R /\ last_with k R = Some e /\
       last_with k (L ++ R) = Some e).
  { intros k Hk. destruct (last_with_present k R Hk) as [e He].
    exists e. split; [now apply last_with_Some in He|].
    split; [assumption|]. now rewrite last_with_app, He. }
  split; [split; [|split]|split].
  - apply mergeIssues_all_truthy.
  - rewrite mergeIssues_ids. apply first_seen_NoDup.
  - intros k. rewrite mergeIssues_ids, first_seen_In. apply in_app_iff.
  - intros k _ Hk. destruct (Hwin k Hk) as [e [HeR [Hlast Hall]]].
    exists e. split; [assumption|]. split; [assumption|].
    split; [now rewrite mergeIssues_entry_at|].
    intros e' He' Hk'. apply mergeIssues_In in He'.
    destruct He' as [k' [Hk'' Hl]]. congruence.
  - intros k eL _ HkL Hk Hnot Hin. apply mergeIssues_In in Hin.
    destruct Hin as [k' [Hk' Hl]].
    destruct (Hwin k Hk) as [e [HeR [_ Hall]]].
    assert (k' = k) by congruence. subst k'.
    assert (eL = e) by congruence. subst. contradiction.
Qed.

Lemma mergeIssues_union_remote_wins_witness :
  let M := mergeIssues test_local test_remote in
  (Forall has_truthy_id M /\ NoDup (ids M) /\
   forall k, In k (ids M) <-> In k (ids test_local) \/ In k (ids test_remote)) /\
  (forall k, In k (ids test_local) -> In k (ids test_remote) ->
     exists e, In e test_remote /\ last_with k test_remote = Some e /\
       entry_at k M = Some e /\
       forall e', In e' M -> entry_key e' = Some k -> e' = e) /\
  (forall k eL, In eL test_local -> entry_key eL = Some k ->
     In k (ids test_remote) -> ~ In eL test_remote -> ~ In eL M).
Proof.
  apply (mergeIssues_union_remote_wins test_local test_remote);
    repeat constructor.
Defined.

(** C2.  Whatever the two lists hold (entries without an id, with a falsy
    id, [null], [undefined], primitives), [mergeIssues] returns a list every
    element of which has a truthy id, and the ids of its elements are
    pairwise distinct as [Map] keys. *)
Theorem mergeIssues_truthy_distinct (L R : list value) :
  Forall has_truthy_id (mergeIssues L R) /\
  NoDup (map (fun e => key_of (opt_chain e "id")) (mergeIssues L R)).
Proof.
  split; [apply mergeIssues_all_truthy|].
  rewrite <- ids_all_truthy by apply mergeIssues_all_truthy.
  rewrite mergeIssues_ids. apply first_seen_NoDup.
Qed.

(** C3.  Merging the result of [mergeIssues L R] with [R] once more gives
    the same list again, in the same order. *)
Theorem mergeIssues_fixed_point (L R : list value) :
  mergeIssues (mergeIssues L R) R = mergeIssues L R.
Proof.
  unfold mergeIssues at 1. unfold mergeIssues at 1.
  rewrite refill by (apply fill_well_keyed, fill_well_keyed, well_keyed_nil).
  rewrite fill_twice; [reflexivity|].
  apply (fill_well_keyed L []), well_keyed_nil.
Qed.

Lemma last_with_split (k : key) (pre mid post : list value) (e1 e2 : value) :
  entry_key e2 = Some k -> ~ In k (ids post) ->
  last_with k (pre ++ e1 :: mid ++ e2 :: post) = Some e2.
Proof.
  intros H2 Hpost.
  change (pre ++ e1 :: mid ++ e2 :: post)
    with (pre ++ (e1 :: mid) ++ e2 :: post).
  rewrite !last_with_app. simpl.
  apply last_with_None in Hpost. rewrite Hpost, H2, key_eqb_refl. reflexivity.
Qed.

Example local_duplicates_alone :
  mergeIssues [dup_first; other_b; dup_second] [] = [dup_second; other_b].
Proof. reflexivity. Qed.

Example remote_duplicates_after_local :
  mergeIssues [VNull; other_b] [dup_first; dup_remote] = [other_b; dup_remote].
Proof. reflexivity. Qed.

(** C10, as stated, fails for the local list: the later of two local entries
    under one id is not in the merged list when the remote list has an entry
    under that id too. *)
Lemma local_duplicate_overwritten_by_remote :
  ~ (forall (L R pre mid post : list value) (e1 e2 : value) (k : key),
       entry_key e1 = Some k -> entry_key e2 = Some k -> ~ In k (ids post) ->
       L = pre ++ e1 :: mid ++ e2 :: post \/ R = pre ++ e1 :: mid ++ e2 :: post ->
       In e2 (mergeIssues L R)).
Proof.
  intros H.
  specialize (H [dup_first; dup_second] [dup_remote] [] [] []
                dup_first dup_second (KStr "A")
                eq_refl eq_refl (fun F => F) (or_introl eq_refl)).
  vm_compute in H. destruct H as [H | []]. discriminate H.
Qed.

(** C10, amended.  Take two entries [e1], [e2] of one input list under the
    same truthy id [k], [e2] being the last entry of that list under [k].
    If the list is the remote one, [e2] is the merged entry under [k] and no
    other merged entry has that id; the same holds for the local list when
    no remote entry has the id [k].  In both cases the merged ids come in
    the order in which the ids first appear in the local list followed by
    the remote list, so the surviving entry stands where its id first
    appeared among the distinct ids. *)
Theorem mergeIssues_last_occurrence_wins
    (L R pre mid post : list value) (e1 e2 : value) (k : key) :
  entry_key e1 = Some k -> entry_key e2 = Some k -> ~ In k (ids post) ->
  let M := mergeIssues L R in
  let wins := In e2 M /\ entry_at k M = Some e2 /\
              forall e, In e M -> entry_key e = Some k -> e = e2 in
  (R = pre ++ e1 :: mid ++ e2 :: post -> wins) /\
  (L = pre ++ e1 :: mid ++ e2 :: post -> ~ In k (ids R) -> wins) /\
  ids M = first_seen (ids L ++ ids R) /\
  index_of k (ids M) = index_of k (first_seen (ids L ++ ids R)).
Proof.
  intros H1 H2 Hpost M wins. subst M wins.
  assert (Hgen : last_with k (L ++ R) = Some e2 ->
    In e2 (mergeIssues L R) /\ entry_at k (mergeIssues L R) = Some e2 /\
    forall e, In e (mergeIssues L R) -> entry_key e = Some k -> e = e2).
  { intros Hl. split; [|split].
    - apply mergeIssues_In. now exists k.
    - now rewrite mergeIssues_entry_at.
    - intros e He Hk. apply mergeIssues_In in He.
      destruct He as [k' [Hk' Hl']]. congruence. }
  split; [|split; [|split]].
  - intros ->. apply Hgen. rewrite last_with_app.
    now rewrite (last_with_split k pre mid post e1 e2 H2 Hpost).
  - intros -> HR. apply Hgen. rewrite last_with_app.
    apply last_with_None in HR. rewrite HR.
    now apply last_with_split.
  - apply mergeIssues_ids.
  - now rewrite mergeIssues_ids.
Qed.

Lemma mergeIssues_last_occurrence_wins_witness :
  let L := [VNull; other_b] in
  let R := [dup_first; other_b; dup_remote] in
  let M := mergeIssues L R in
  In dup_remote M /\ entry_at (KStr "A") M = Some dup_remote /\
  (forall e, In e M -> entry_key e = Some (KStr "A") -> e = dup_remote) /\
  ids M = [KStr "B"; KStr "A"].
Proof.
  pose proof (mergeIssues_last_occurrence_wins
                [VNull; other_b] [dup_first; other_b; dup_remote]
                [] [other_b] [] dup_first dup_remote (KStr "A")
                eq_refl eq_refl (fun F => F)) as H.
  cbv zeta in H. destruct H as [HR [_ [Hids _]]].
  destruct (HR eq_refl) as [Hin [Hat Huniq]].
  repeat split; assumption.
Defined.

(** ** Strings and patterns *)

Lemma lower_char_idem (c : ascii) : lower_char (lower_char c) = lower_char c.
Proof. destruct c as [[] [] [] [] [] [] [] []]; reflexivity. Qed.

Lemma toLowerCase_idem (s : string) : toLowerCase (toLowerCase s) = toLowerCase s.
Proof.
  induction s as [|c s IH]; simpl; [reflexivity|].
  now rewrite lower_char_idem, IH.
Qed.

Lemma strip_exact (p t : string) : strip false p (p ++ t)%string = Some t.
Proof.
  induction p as [|a p IH]; simpl; [reflexivity|].
  now rewrite Ascii.eqb_refl.
Qed.

Lemma strip_ci (p x t : string) :
  toLowerCase x = toLowerCase p -> strip true p (x ++ t)%string = Some t.
Proof.
  revert x. induction p as [|a p IH]; intros [|b x]; simpl; try discriminate.
  - reflexivity.
  - intros [= Hc Hx]. rewrite Hc, Ascii.eqb_refl. now apply IH.
Qed.

Lemma test_from_here (ci : bool) (r : regex) (pre s : string) (start : bool) :
  (forall b, run ci r (start_at b s) <> []) ->
  test_from ci r start (pre ++ s)%string = true.
Proof.
  intros Hrun. revert start. induction pre as [|c pre IH]; intros start.
  - simpl. specialize (Hrun start).
    destruct s; simpl; destruct (run ci r _); congruence.
  - simpl. destruct (run ci r _); [apply IH | reflexivity].
Qed.

Lemma flat_map_nonempty {A B : Type} (f : A -> list B) (x : A) (l : list A) :
  In x l -> f x <> [] -> flat_map f l <> [].
Proof.
  induction l as [|y l IH]; simpl; [contradiction|].
  intros [-> | Hin] Hx E; apply app_eq_nil in E; destruct E as [E1 E2].
  - contradiction.
  - now apply IH.
Qed.

Lemma test_Words (w : string) (ws : list string) (s : string) :
  In w ws -> includes w s -> test false (Words ws) s = true.
Proof.
  intros Hin [a [b ->]]. apply test_from_here. intros st.
  simpl. apply (flat_map_nonempty _ w); [assumption|].
  unfold literal. simpl. now rewrite strip_exact.
Qed.

Lemma test_extension (ext x q : string) (p : string) :
  toLowerCase x = toLowerCase ext ->
  (q = "" \/ exists q', q = ("?" ++ q')%string) ->
  test true (Cat (Chars ext) query_or_end) (p ++ x ++ q)%string = true.
Proof.
  intros Hx Hq. apply test_from_here. intros b.
  cbn [run]. unfold literal at 1. cbn [rest start_at].
  rewrite (strip_ci ext x q Hx). cbn [flat_map]. rewrite app_nil_r.
  unfold query_or_end. cbn [run]. unfold literal. cbn [rest move].
  destruct Hq as [-> | [q' ->]]; simpl; discriminate.
Qed.

Lemma bad_extension_isBadExt (u : string) :
  bad_extension_shape u -> isBadExt u = true.
Proof.
  intros [p [x [q [-> [[Hx | Hx] Hq]]]]]; unfold isBadExt, re_svg, re_gif.
  - now rewrite (test_extension ".svg" x q p Hx Hq).
  - rewrite (test_extension ".gif" x q p Hx Hq). apply orb_true_r.
Qed.

(** ** The scorer *)

Example score_hint_size_svg : scoreImage "https://cdn.example.com/hero-1200.svg" = 2%Z.
Proof. reflexivity. Qed.

Example score_logo_with_everything :
  scoreImage "https://cdn.example.com/logo/hero-1200.jpg" = (-3)%Z.
Proof. reflexivity. Qed.

(** C4.  A url whose lowercase form contains [logo] scores at most
    10 + 5 + 2 - 20 = -3, hence strictly below the acceptance threshold 1,
    whatever hint words, extension and size markers it has. *)
Theorem scoreImage_logo_below_threshold (u : string) :
  includes "logo" (toLowerCase u) ->
  (scoreImage u <= -3)%Z /\ (scoreImage u < THRESHOLD)%Z.
Proof.
  intros Hlogo.
  assert (H : isLogoish (toLowerCase u) = true).
  { unfold isLogoish. rewrite toLowerCase_idem.
    apply (test_Words "logo"); [now left | assumption]. }
  unfold scoreImage, THRESHOLD. rewrite H.
  destruct (test false re_hint (toLowerCase u)),
           (goodExt (toLowerCase u)),
           (test false re_size (toLowerCase u)),
           (isBadExt (toLowerCase u)); lia.
Qed.

Lemma scoreImage_logo_below_threshold_witness :
  (scoreImage "https://cdn.example.com/LOGO/hero-1200.jpg" <= -3)%Z /\
  (scoreImage "https://cdn.example.com/LOGO/hero-1200.jpg" < THRESHOLD)%Z.
Proof.
  apply (scoreImage_logo_below_threshold "https://cdn.example.com/LOGO/hero-1200.jpg").
  exists "https://cdn.example.com/", "/hero-1200.jpg". reflexivity.
Defined.

(** ** Sets of strings and the stable sort *)

Lemma set_add_In (x y : string) (set : list string) :
  In y (set_add set x) <-> In y set \/ y = x.
Proof.
  unfold set_add. destruct (existsb (String.eqb x) set) eqn:E.
  - apply existsb_exists in E. destruct E as [z [Hz E]].
    apply String.eqb_eq in E. subst z. split; [tauto|].
    intros [Hy | ->]; assumption.
  - rewrite in_app_iff. simpl. intuition congruence.
Qed.

Lemma set_add_NoDup (x : string) (set : list string) :
  NoDup set -> NoDup (set_add set x).
Proof.
  unfold set_add. intros ND. destruct (existsb (String.eqb x) set) eqn:E.
  - assumption.
  - apply NoDup_app; [assumption | repeat constructor; intros [] |].
    intros y Hy [<- | []].
    assert (Ht : existsb (String.eqb x) set = true).
    { apply existsb_exists. exists x. split; [assumption | apply String.eqb_refl]. }
    congruence.
Qed.

Lemma add_matches_NoDup (abs : string -> string) (ms : list (option string))
    (set : list string) :
  NoDup set -> NoDup (add_matches abs set ms).
Proof.
  unfold add_matches. revert set.
  induction ms as [|m ms IH]; intros set ND; simpl; [assumption|].
  apply IH. destruct m as [g|]; [|assumption].
  destruct (nonempty g); [now apply set_add_NoDup | assumption].
Qed.

Lemma insert_by_In (cmp : string -> string -> Z) (x y : string) (l : list string) :
  In y (insert_by cmp x l) <-> y = x \/ In y l.
Proof.
  induction l as [|z l IH]; simpl.
  - intuition congruence.
  - destruct (cmp x z <=? 0)%Z; simpl; [intuition congruence|].
    rewrite IH. intuition congruence.
Qed.

Lemma sort_by_In (cmp : string -> string -> Z) (y : string) (l : list string) :
  In y (sort_by cmp l) <-> In y l.
Proof.
  induction l as [|x l IH]; simpl; [tauto|].
  rewrite insert_by_In, IH. intuition congruence.
Qed.

Lemma insert_by_score_sorted (x : string) (l : list string) :
  StronglySorted (fun a b => (scoreImage b <= scoreImage a)%Z) l ->
  StronglySorted (fun a b => (scoreImage b <= scoreImage a)%Z)
                 (insert_by by_score_desc x l).
Proof.
  induction 1 as [|y l Hs IH Hall]; simpl.
  - repeat constructor.
  - unfold by_score_desc at 1. destruct (scoreImage y - scoreImage x <=? 0)%Z eqn:E.
    + apply Z.leb_le in E. constructor; [now constructor|].
      constructor; [lia|]. rewrite Forall_forall in *.
      intros z Hz. specialize (Hall z Hz). lia.
    + apply Z.leb_gt in E. constructor; [assumption|].
      rewrite Forall_forall in *. intros z Hz.
      apply insert_by_In in Hz. destruct Hz as [-> | Hz]; [lia | now apply Hall].
Qed.

Lemma sort_by_score_sorted (l : list string) :
  StronglySorted (fun a b => (scoreImage b <= scoreImage a)%Z)
                 (sort_by by_score_desc l).
Proof.
  induction l as [|x l IH]; simpl; [constructor|].
  now apply insert_by_score_sorted.
Qed.

Lemma sort_by_score_head (l : list string) (best : string) (others : list string) :
  sort_by by_score_desc l = best :: others ->
  In best l /\ forall c, In c l -> (scoreImage c <= scoreImage best)%Z.
Proof.
  intros E. split.
  - apply (sort_by_In by_score_desc). rewrite E. now left.
  - intros c Hc. apply (sort_by_In by_score_desc) in Hc. rewrite E in Hc.
    pose proof (sort_by_score_sorted l) as S. rewrite E in S.
    inversion S as [|? ? _ Hall]; subst.
    destruct Hc as [-> | Hc]; [lia|].
    rewrite Forall_forall in Hall. now apply Hall.
Qed.

(** ** [resolveArticleImage] *)

Section Resolver.
Context `{Browser}.

Lemma candidates_of_In (url html c : string) :
  In c (candidates_of url html) <->
  In c (extracted url html) /\ c <> "" /\ isBadExt c = false /\ isLogoish c = false.
Proof.
  unfold candidates_of. rewrite !filter_In, !negb_true_iff.
  unfold nonempty. rewrite negb_true_iff, String.eqb_neq. tauto.
Qed.

Lemma candidates_of_NoDup (url html : string) : NoDup (candidates_of url html).
Proof.
  unfold candidates_of, extracted.
  repeat apply NoDup_filter. repeat apply add_matches_NoDup. constructor.
Qed.

Lemma toJinaProxy_nonempty (url : string) :
  URL_parse url <> None -> nonempty (toJinaProxy url) = true.
Proof.
  unfold toJinaProxy. destruct (URL_parse url); [reflexivity | congruence].
Qed.

Lemma toJinaProxy_unparsed (url : string) :
  URL_parse url = None -> toJinaProxy url = "".
Proof. unfold toJinaProxy. now intros ->. Qed.

(** After a successful response the result is read off the sorted candidates. *)
Lemma resolve_after_response (url html : string) :
  nonempty (toJinaProxy url) = true ->
  fetch (toJinaProxy url) = Response true (Some html) ->
  resolveArticleImage url =
  match sort_by by_score_desc (candidates_of url html) with
  | [] => Returns ""
  | best :: _ =>
      if (scoreImage best <? THRESHOLD)%Z then Returns "" else Returns best
  end.
Proof.
  intros Hp Hf. unfold resolveArticleImage. rewrite Hp, Hf. simpl.
  destruct (candidates_of url html); reflexivity.
Qed.

(** What a returned string can be. *)
Lemma resolve_returned (url r : string) :
  resolveArticleImage url = Returns r ->
  r = "" \/
  exists html,
    fetch (toJinaProxy url) = Response true (Some html) /\
    In r (candidates_of url html) /\
    (THRESHOLD <= scoreImage r)%Z /\
    forall c, In c (candidates_of url html) -> (scoreImage c <= scoreImage r)%Z.
Proof.
  intros E. destruct (nonempty (toJinaProxy url)) eqn:Hp.
  - destruct (fetch (toJinaProxy url)) as [|ok [html|]] eqn:Hf.
    + unfold resolveArticleImage in E. rewrite Hp, Hf in E. discriminate.
    + destruct ok.
      * rewrite (resolve_after_response url html Hp Hf) in E.
        destruct (sort_by by_score_desc (candidates_of url html))
          as [|best others] eqn:Es; [left; congruence|].
        destruct (scoreImage best <? THRESHOLD)%Z eqn:Et; [left; congruence|].
        injection E as <-. right. exists html.
        destruct (sort_by_score_head _ _ _ Es) as [Hin Hmax].
        apply Z.ltb_ge in Et. auto.
      * unfold resolveArticleImage in E. rewrite Hp, Hf in E. simpl in E.
        left. congruence.
    + unfold resolveArticleImage in E. rewrite Hp, Hf in E.
      destruct ok; simpl in E; [discriminate | left; congruence].
  - unfold resolveArticleImage in E. rewrite Hp in E. simpl in E.
    left. congruence.
Qed.

(** A rejected [fetch], or a body that cannot be read, rejects the call;
    the caller, [useResolvedImage], catches that and keeps the placeholder. *)
Lemma resolve_rejects (url : string) :
  URL_parse url <> None ->
  fetch (toJinaProxy url) = NetworkError \/
  fetch (toJinaProxy url) = Response true None ->
  resolveArticleImage url = Rejects.
Proof.
  intros Hu Hf. unfold resolveArticleImage.
  rewrite (toJinaProxy_nonempty url Hu). simpl.
  destruct Hf as [-> | ->]; reflexivity.
Qed.

Lemma bad_extension_nonempty (u : string) : bad_extension_shape u -> u <> "".
Proof.
  intros [p [x [q [-> [Hx _]]]]] E.
  destruct p; [|discriminate]. destruct x; [|discriminate].
  destruct Hx; discriminate.
Qed.

(** C5.  A url of the bad-extension shape (ending in [.svg] or [.gif] in
    any letter case, possibly followed by a query string) is recognised by
    [isBadExt], is in the candidate list of no page, and is never what
    [resolveArticleImage] returns: the filter removes it before the ranking
    looks at its score. *)
Theorem bad_extension_never_returned (url u : string) :
  bad_extension_shape u ->
  isBadExt u = true /\
  (forall html, ~ In u (candidates_of url html)) /\
  resolveArticleImage url <> Returns u.
Proof.
  intros Hshape. pose proof (bad_extension_isBadExt u Hshape) as Hbad.
  assert (Hout : forall html, ~ In u (candidates_of url html)).
  { intros html Hin. apply candidates_of_In in Hin.
    destruct Hin as [_ [_ [Hok _]]]. congruence. }
  split; [assumption|]. split; [assumption|].
  intros E. apply resolve_returned in E.
  destruct E as [-> | [html [_ [Hin _]]]].
  - now apply (bad_extension_nonempty "").
  - now apply (Hout html).
Qed.

Lemma resolve_rejects_inv (url : string) :
  resolveArticleImage url = Rejects ->
  URL_parse url <> None /\
  (fetch (toJinaProxy url) = NetworkError \/
   fetch (toJinaProxy url) = Response true None).
Proof.
  intros E. destruct (URL_parse url) as [u|] eqn:Hu.
  - split; [discriminate|]. unfold resolveArticleImage in E.
    destruct (negb (nonempty (toJinaProxy url))); [discriminate|].
    destruct (fetch (toJinaProxy url)) as [|ok [html|]]; [now left | |].
    + destruct ok; [|discriminate]. cbn [negb] in E.
      destruct (candidates_of url html); [discriminate|].
      destruct (sort_by _ _); [discriminate|].
      now destruct (scoreImage _ <? THRESHOLD)%Z.
    + destruct ok; [now right | discriminate].
  - unfold resolveArticleImage in E.
    rewrite (toJinaProxy_unparsed url Hu) in E. discriminate.
Qed.

(** C6, amended.  [resolveArticleImage] returns the empty string when the
    url cannot be parsed, when the response is not successful, when no
    candidate is left after the set and the filters, and when every
    candidate (so the best one) scores below the threshold.  It returns
    nothing at all, the call being rejected, exactly when the url parses
    and the fetch of the proxy is rejected or the body of a successful
    response cannot be read.  When the url parses, the response is
    successful, its body is read and some candidate reaches the threshold,
    it returns a candidate of maximal score, whose score reaches the
    threshold.  The candidates are the extracted urls, each once, that are
    not empty, have no bad extension and are not logo-like. *)
Theorem resolveArticleImage_cases (url : string) :
  (URL_parse url = None -> resolveArticleImage url = Returns "") /\
  (forall body, fetch (toJinaProxy url) = Response false body ->
     resolveArticleImage url = Returns "") /\
  (resolveArticleImage url = Rejects <->
   URL_parse url <> None /\
   (fetch (toJinaProxy url) = NetworkError \/
    fetch (toJinaProxy url) = Response true None)) /\
  (forall html, fetch (toJinaProxy url) = Response true (Some html) ->
     let cs := candidates_of url html in
     (cs = [] -> resolveArticleImage url = Returns "") /\
     ((forall c, In c cs -> (scoreImage c < THRESHOLD)%Z) ->
        resolveArticleImage url = Returns "") /\
     (URL_parse url <> None ->
      (exists c, In c cs /\ (THRESHOLD <= scoreImage c)%Z) ->
      exists best,
        resolveArticleImage url = Returns best /\
        In best cs /\
        (forall c, In c cs -> (scoreImage c <= scoreImage best)%Z) /\
        (THRESHOLD <= scoreImage best)%Z)) /\
  (forall html,
     NoDup (candidates_of url html) /\
     forall c, In c (candidates_of url html) <->
       In c (extracted url html) /\ c <> "" /\
       isBadExt c = false /\ isLogoish c = false).
Proof.
  split; [|split; [|split; [|split]]].
  - intros Hu. unfold resolveArticleImage.
    now rewrite (toJinaProxy_unparsed url Hu).
  - intros body Hf. unfold resolveArticleImage. rewrite Hf.
    now destruct (nonempty (toJinaProxy url)).
  - split; [apply resolve_rejects_inv|].
    intros [Hu Hf]. now apply resolve_rejects.
  - intros html Hf cs. subst cs.
    destruct (nonempty (toJinaProxy url)) eqn:Hp.
    + pose proof (resolve_after_response url html Hp Hf) as Hres.
      split; [|split].
      * intros Hnil. rewrite Hres, Hnil. reflexivity.
      * intros Hlow. rewrite Hres.
        destruct (sort_by by_score_desc (candidates_of url html))
          as [|best others] eqn:Es; [reflexivity|].
        destruct (sort_by_score_head _ _ _ Es) as [Hin _].
        specialize (Hlow best Hin). apply Z.ltb_lt in Hlow. now rewrite Hlow.
      * intros _ [c [Hc Hs]]. rewrite Hres.
        destruct (sort_by by_score_desc (candidates_of url html))
          as [|best others] eqn:Es.
        { apply (sort_by_In by_score_desc) in Hc. rewrite Es in Hc.
          contradiction. }
        destruct (sort_by_score_head _ _ _ Es) as [Hin Hmax].
        pose proof (Hmax c Hc) as Hle.
        assert (Ht : (scoreImage best <? THRESHOLD)%Z = false)
          by (apply Z.ltb_ge; lia).
        rewrite Ht. exists best. repeat split; try assumption. lia.
    + assert (Hempty : resolveArticleImage url = Returns "")
        by (unfold resolveArticleImage; now rewrite Hp).
      split; [now intros _|]. split; [now intros _|].
      intros Hu _. rewrite (toJinaProxy_nonempty url Hu) in Hp. discriminate.
  - intros html. split; [apply candidates_of_NoDup|].
    intros c. apply candidates_of_In.
Qed.

End Resolver.

Lemma bad_extension_never_returned_witness :
  (THRESHOLD <= scoreImage demo_svg)%Z /\
  In demo_svg (@extracted demo_browser demo_article demo_page) /\
  isBadExt demo_svg = true /\
  (forall html, ~ In demo_svg (@candidates_of demo_browser demo_article html)) /\
  @resolveArticleImage demo_browser demo_article <> Returns demo_svg.
Proof.
  split; [vm_compute; discriminate|].
  split; [vm_compute; tauto|].
  apply (@bad_extension_never_returned demo_browser demo_article demo_svg).
  exists "https://cdn.example.com/media/chart-1600", ".svg", "".
  repeat split; auto.
Defined.

(** C6, as stated, fails: a call need not return the empty string or a
    candidate.  When the fetch of the proxy is rejected the call is
    rejected too and returns nothing. *)
Lemma rejected_fetch_returns_nothing :
  ~ (forall (B : Browser) (url : string),
       @resolveArticleImage B url = Returns "" \/
       exists best,
         @resolveArticleImage B url = Returns best /\
         (THRESHOLD <= scoreImage best)%Z).
Proof.
  intros H. destruct (H unreachable_browser demo_article) as [E | [best [E _]]];
    vm_compute in E; discriminate E.
Qed.

Lemma resolveArticleImage_cases_witness :
  @resolveArticleImage demo_browser "not a url" = Returns "" /\
  @resolveArticleImage unreachable_browser demo_article = Rejects /\
  exists best,
    @resolveArticleImage demo_browser demo_article = Returns best /\
    In best (@candidates_of demo_browser demo_article demo_page) /\
    (forall c, In c (@candidates_of demo_browser demo_article demo_page) ->
       (scoreImage c <= scoreImage best)%Z) /\
    (THRESHOLD <= scoreImage best)%Z.
Proof.
  destruct (@resolveArticleImage_cases demo_browser "not a url") as [Hbad _].
  destruct (@resolveArticleImage_cases unreachable_browser demo_article)
    as (_ & _ & Hrej & _).
  destruct (@resolveArticleImage_cases demo_browser demo_article)
    as (_ & _ & _ & Hpage & _).
  split; [|split].
  - apply Hbad. reflexivity.
  - apply Hrej. split; [vm_compute; discriminate | left; reflexivity].
  - destruct (Hpage demo_page eq_refl) as (_ & _ & Hbest).
    apply Hbest.
    + vm_compute. discriminate.
    + exists demo_hero. split; [vm_compute; tauto | vm_compute; discriminate].
Defined.

(** ** The hash router *)

Example parse_empty : parseHashFromString "" = home.
Proof. reflexivity. Qed.

Example parse_hash_slash : parseHashFromString "#/" = home.
Proof. reflexivity. Qed.

Example parse_issue :
  parseHashFromString "#/issue/2025-08-18_2025-08-24" =
  {| name := "issue"; params := ["2025-08-18_2025-08-24"] |}.
Proof. reflexivity. Qed.

Example parse_issue_without_slash :
  parseHashFromString "#issue/2025-08-18_2025-08-24" =
  {| name := "issue"; params := ["2025-08-18_2025-08-24"] |}.
Proof. reflexivity. Qed.

Example parse_issue_extra_segment :
  parseHashFromString "#/issue/a/b" = {| name := "issue"; params := ["a"] |}.
Proof. reflexivity. Qed.

Lemma replace_not_at_start (t : string) :
  replace_from false re_leading_hash false "" t = t.
Proof. induction t as [|c t IH]; simpl; [reflexivity | now rewrite IH]. Qed.

Lemma replace_leading_hash (s : string) :
  replace false re_leading_hash "" s =
  match s with String "#" t => t | _ => s end.
Proof.
  destruct s as [|c t]; [reflexivity|].
  unfold replace. cbn [replace_from run re_leading_hash start_at at_start flat_map].
  unfold literal. cbn [rest strip char_eqb].
  destruct (Ascii.eqb "#" c) eqn:E.
  - apply Ascii.eqb_eq in E. subst c. reflexivity.
  - cbn [app]. rewrite replace_not_at_start.
    destruct c as [[] [] [] [] [] [] [] []]; try reflexivity; discriminate.
Qed.

Lemma nonempty_filter_segments (parts : list string) :
  Forall (fun p => nonempty p = true) (filter nonempty parts).
Proof. apply Forall_forall. intros p Hp. now apply filter_In in Hp. Qed.

Lemma parseHashFromString_segments (s : string) :
  parseHashFromString s = route_of (segments s).
Proof.
  unfold parseHashFromString, segments. rewrite replace_leading_hash.
  set (raw := split_slash _).
  pose proof (nonempty_filter_segments raw) as Hne.
  destruct (filter nonempty raw) as [|p0 [|p1 rest]]; try reflexivity.
  - unfold route_of. destruct p0 as [|c0 p0]; [reflexivity|].
    repeat (destruct c0 as [[] [] [] [] [] [] [] []]; try reflexivity;
            destruct p0 as [|c0 p0]; try reflexivity).
  - inversion Hne as [|? ? _ Hne']; subst. inversion Hne' as [|? ? H1 _]; subst.
    rewrite H1, andb_true_r. unfold route_of.
    destruct (p0 =? "issue") eqn:E.
    + apply String.eqb_eq in E. now subst.
    + destruct p0 as [|c0 p0]; [reflexivity|].
      repeat (destruct c0 as [[] [] [] [] [] [] [] []]; try reflexivity;
              destruct p0 as [|c0 p0]; try reflexivity).
      discriminate.
Qed.

Lemma split_slash_free (id : string) :
  slash_free id = true -> nonempty id = true -> split_slash id = [id].
Proof.
  induction id as [|c id IH]; [discriminate|].
  simpl. intros H _. apply andb_true_iff in H. destruct H as [Hc Hid].
  apply negb_true_iff in Hc. rewrite Hc.
  destruct id as [|d id]; [reflexivity|].
  now rewrite (IH Hid eq_refl).
Qed.

(** C7, as stated, fails: a route string that does not have the shape
    [#/issue/<id>] can still be sent to the issue view. *)
Lemma other_shape_reaches_issue_view :
  ~ (forall s : string,
       s <> "" -> s <> "#/" ->
       (forall id, s <> ("#/issue/" ++ id)%string) ->
       parseHashFromString s = home).
Proof.
  intros H. specialize (H "#issue/2025-08-18_2025-08-24").
  assert (E : parseHashFromString "#issue/2025-08-18_2025-08-24" = home).
  { apply H; [discriminate | discriminate | intros id; discriminate]. }
  discriminate E.
Qed.

(** C7, amended.  The empty string and [#/] go to the home view with no
    parameter; [#/issue/2025-08-18_2025-08-24], and every [#/issue/<id>]
    with a non-empty id without a slash, goes to the issue view with the id
    as its only parameter.  In general the router drops one leading [#],
    cuts at the slashes and ignores empty pieces: a string goes to the issue
    view, with the second piece as parameter, exactly when the first piece
    is [issue] and a second piece exists, and to the home view with no
    parameter otherwise. *)
Theorem parseHashFromString_routes (s id : string) :
  parseHashFromString "" = home /\
  parseHashFromString "#/" = home /\
  parseHashFromString "#/issue/2025-08-18_2025-08-24" =
    {| name := "issue"; params := ["2025-08-18_2025-08-24"] |} /\
  (nonempty id = true -> slash_free id = true ->
   parseHashFromString ("#/issue/" ++ id)%string =
     {| name := "issue"; params := [id] |}) /\
  ((forall p rest, segments s <> "issue" :: p :: rest) ->
   parseHashFromString s = home) /\
  (forall p rest, segments s = "issue" :: p :: rest ->
   parseHashFromString s = {| name := "issue"; params := [p] |}).
Proof.
  repeat split; try reflexivity.
  - intros Hne Hfree. rewrite parseHashFromString_segments.
    unfold segments. simpl. rewrite (split_slash_free id Hfree Hne).
    simpl. rewrite Hne. reflexivity.
  - intros Hno. rewrite parseHashFromString_segments.
    destruct (segments s) as [|p0 [|p1 rest]] eqn:E; try reflexivity.
    + unfold route_of. destruct p0 as [|c0 p0]; [reflexivity|].
      repeat (destruct c0 as [[] [] [] [] [] [] [] []]; try reflexivity;
              destruct p0 as [|c0 p0]; try reflexivity).
    + destruct (String.eqb_spec p0 "issue") as [-> | Hp].
      * exfalso. now apply (Hno p1 rest).
      * unfold route_of. destruct p0 as [|c0 p0]; [reflexivity|].
        repeat (destruct c0 as [[] [] [] [] [] [] [] []]; try reflexivity;
                destruct p0 as [|c0 p0]; try reflexivity).
        contradiction.
  - intros p rest E. rewrite parseHashFromString_segments, E. reflexivity.
Qed.

Lemma parseHashFromString_routes_witness :
  parseHashFromString "#/issue/2025-08-11_2025-08-17" =
    {| name := "issue"; params := ["2025-08-11_2025-08-17"] |} /\
  parseHashFromString "#/about/team" = home /\
  parseHashFromString "#issue/x/y" = {| name := "issue"; params := ["x"] |}.
Proof.
  split; [|split].
  - apply (parseHashFromString_routes "" "2025-08-11_2025-08-17"); reflexivity.
  - apply (parseHashFromString_routes "#/about/team" "").
    intros p rest. discriminate.
  - destruct (parseHashFromString_routes "#issue/x/y" "") as (_ & _ & _ & _ & _ & Hissue).
    apply (Hissue "x" ["y"]). reflexivity.
Defined.

(** ** The importer *)

Section Importer.
Context `{Browser}.

Lemma read_opt_chain (i : value) (name : string) (v : value) :
  read i name = Some v -> opt_chain i name = v.
Proof. unfold opt_chain. now intros ->. Qed.

Lemma read_None_falsy (i : value) (name : string) :
  read i name = None -> truthy (opt_chain i name) = false.
Proof. unfold opt_chain. now intros ->. Qed.

Lemma check_ids_None (items : list value) :
  check_ids items = None <-> Forall has_truthy_id items.
Proof.
  induction items as [|i items IH]; simpl.
  - split; [constructor | reflexivity].
  - destruct (read i "id") as [id|] eqn:E.
    + apply read_opt_chain in E. destruct (truthy id) eqn:T; simpl.
      * rewrite IH. split.
        -- intros F. constructor; [|assumption].
           unfold has_truthy_id. now rewrite E.
        -- intros F. now inversion F.
      * split; [discriminate|]. intros F. inversion F as [|? ? Hi _]; subst.
        unfold has_truthy_id in Hi. congruence.
    + apply read_None_falsy in E. split; [discriminate|].
      intros F. inversion F as [|? ? Hi _]; subst.
      unfold has_truthy_id in Hi. congruence.
Qed.

Lemma check_ids_Some (items : list value) (msg : string) :
  check_ids items = Some msg -> msg = MSG_NO_ID \/ msg = null_read_message.
Proof.
  induction items as [|i items IH]; simpl; [discriminate|].
  destruct (read i "id") as [id|].
  - destruct (truthy id); simpl; [assumption|]. intros [= <-]. now left.
  - intros [= <-]. now right.
Qed.

Lemma get_array_truthy (payload : value) (name : string) (r : ref) (items : list value) :
  get payload name = VArr r items -> truthy payload = true.
Proof. destruct payload; simpl; try discriminate. reflexivity. Qed.

Lemma checked_payload_inr (text : string) (payload : value) :
  checked_payload text = inr payload <->
  JSON_parse text = inr payload /\
  exists r items, get payload "issues" = VArr r items /\ Forall has_truthy_id items.
Proof.
  unfold checked_payload. destruct (JSON_parse text) as [msg | p] eqn:Ep.
  - split; [discriminate | intros [[=] _]].
  - destruct (get p "issues") as [| | | | | |r items|] eqn:Eg;
      try (cbn [isArray negb]; rewrite orb_true_r; split;
           [discriminate | intros [[= <-] [r0 [items0 [Hg _]]]]; congruence]).
    rewrite (get_array_truthy p "issues" r items Eg). simpl.
    destruct (check_ids items) as [msg|] eqn:Ec.
    + split; [discriminate|]. intros [[= <-] [r' [items' [Hg F]]]].
      rewrite Eg in Hg. injection Hg as _ <-. apply check_ids_None in F. congruence.
    + apply check_ids_None in Ec. split.
      * intros [= <-]. split; [reflexivity|]. now exists r, items.
      * now intros [[= <-] _].
Qed.

Lemma checked_payload_accepted (text : string) :
  accepted text <-> exists payload, checked_payload text = inr payload.
Proof.
  unfold accepted. split.
  - intros [payload [r [items [Hp [Hg F]]]]]. exists payload.
    apply checked_payload_inr. split; [assumption|]. now exists r, items.
  - intros [payload Hc]. apply checked_payload_inr in Hc.
    destruct Hc as [Hp [r [items [Hg F]]]]. now exists payload, r, items.
Qed.

Lemma checked_payload_inl (text msg : string) :
  checked_payload text = inl msg -> describes text msg.
Proof.
  unfold checked_payload, describes.
  destruct (JSON_parse text) as [m | p] eqn:Ep.
  - intros [= <-]. now left.
  - destruct (isArray (get p "issues")) eqn:Ea.
    + destruct (get p "issues") as [| | | | | |r items|] eqn:Eg; try discriminate.
      rewrite (get_array_truthy p "issues" r items Eg). simpl.
      destruct (check_ids items) as [m|] eqn:Ec; [|discriminate].
      intros [= <-]. right. right. exists p, r, items.
      repeat split; try assumption.
      * intros F. apply check_ids_None in F. congruence.
      * now apply check_ids_Some in Ec.
    + rewrite orb_true_r. intros [= <-]. right. left. now exists p.
Qed.

End Importer.

(** *** The pattern of the backslash hint *)

Lemma test_from_inv (ci : bool) (r : regex) (s : string) (start : bool) :
  test_from ci r start s = true ->
  exists pre suf b, s = (pre ++ suf)%string /\ run ci r (start_at b suf) <> [].
Proof.
  revert start. induction s as [|c s IH]; intros start; simpl.
  - destruct (run ci r (start_at start "")) eqn:E; [discriminate|].
    intros _. exists "", "", start. split; [reflexivity | congruence].
  - destruct (run ci r (start_at start (String c s))) eqn:E.
    + intros Ht. destruct (IH false Ht) as [pre [suf [b [-> Hrun]]]].
      now exists (String c pre), suf, b.
    + intros _. exists "", (String c s), start. split; [reflexivity | congruence].
Qed.

Lemma run_backslash (b : bool) (suf : string) :
  run false re_backslash (start_at b suf) <> [] <->
  exists c post,
    suf = String "\" (String c post) /\ mem_char false c escape_chars = false.
Proof.
  unfold re_backslash. cbn [run]. unfold literal. cbn [rest start_at strip char_eqb].
  destruct suf as [|a t].
  - split; [intros Hn; now contradiction Hn | intros [c [post [[=] _]]]].
  - destruct (Ascii.eqb "\" a) eqn:Ea.
    + apply Ascii.eqb_eq in Ea. subst a. cbn [flat_map rest move].
      rewrite app_nil_r. destruct t as [|c post].
      * split; [intros Hn; now contradiction Hn | intros [c [post [[=] _]]]].
      * cbn [in_class]. destruct (mem_char false c escape_chars) eqn:Em; cbn [negb].
        -- split; [intros Hn; now contradiction Hn|].
           intros [c' [post' [[= <- <-] Hm]]]. congruence.
        -- split; [|discriminate]. intros _. now exists c, post.
    + cbn [flat_map]. split; [intros Hn; now contradiction Hn|].
      intros [c [post [E _]]]. injection E as E _. subst a.
      rewrite Ascii.eqb_refl in Ea. discriminate.
Qed.

Lemma test_backslash (text : string) :
  test false re_backslash text = true <-> illegal_escape text.
Proof.
  unfold illegal_escape. split.
  - intros Ht. apply test_from_inv in Ht.
    destruct Ht as [pre [suf [b [-> Hrun]]]].
    apply run_backslash in Hrun. destruct Hrun as [c [post [-> Hm]]].
    now exists pre, c, post.
  - intros [pre [c [post [-> Hm]]]]. apply test_from_here.
    intros b. apply run_backslash. now exists c, post.
Qed.

(** *** The update of the store *)

Lemma truthy_id_read (i : value) :
  has_truthy_id i -> read i "id" = Some (opt_chain i "id").
Proof.
  unfold has_truthy_id, opt_chain. destruct (read i "id"); [reflexivity|].
  discriminate.
Qed.

Lemma keyed_truthy (xs : list value) :
  Forall has_truthy_id xs ->
  keyed xs = Some (map (fun i => (key_of (opt_chain i "id"), i)) xs).
Proof.
  induction 1 as [|i xs Hi F IH]; simpl; [reflexivity|].
  now rewrite (truthy_id_read i Hi), IH.
Qed.

Lemma set_pairs_truthy (xs : list value) (m : jsmap) :
  Forall has_truthy_id xs ->
  fold_left set_pair (map (fun i => (key_of (opt_chain i "id"), i)) xs) m =
  fold_left set_if_id xs m.
Proof.
  intros F. revert m. induction F as [|i xs Hi F IH]; intros m; simpl.
  - reflexivity.
  - rewrite IH. unfold set_pair, set_if_id. simpl.
    unfold has_truthy_id in Hi. now rewrite Hi.
Qed.

(** On entries that all carry a truthy id, the update of [onImport] is
    [mergeIssues] with the payload as the remote list. *)
Lemma import_update_merges (payload prev : value) (r r' : ref) (items : list value) :
  Forall has_truthy_id (issues_or_empty prev) ->
  get payload "issues" = VArr r' items ->
  Forall has_truthy_id items ->
  import_update payload prev r =
  Some (new_data r (mergeIssues (issues_or_empty prev) items)).
Proof.
  intros Fp Hg Fi. unfold import_update.
  rewrite (keyed_truthy _ Fp), Hg. cbn [elements].
  rewrite (keyed_truthy _ Fi), !set_pairs_truthy by assumption.
  reflexivity.
Qed.

(** *** [handleImport] *)

Section ImportTheorem.
Context `{Browser}.

Lemma opt_chain_of_object (payload : value) (name : string) (r : ref) (items : list value) :
  get payload name = VArr r items -> opt_chain payload name = VArr r items.
Proof. destruct payload; simpl; try discriminate. unfold opt_chain. now simpl. Qed.

(** C8.  [handleImport] hands the payload to [onImport] exactly when the
    text parses to an object with an [issues] array whose issues all have a
    truthy id; the store then takes the payload's issues, which replace the
    stored issues of the same id.  In every other case it calls neither
    [onImport] nor [close]: the store is unchanged and the error shown is
    the message that describes the violation (the parser's message, the
    missing [issues] array, the issue without id), followed by the hint
    exactly when the text has a backslash before a character that starts no
    JSON escape. *)
Theorem handleImport_validates (text : string) (a : page) :
  (accepted text <->
   exists payload after, handleImport text a = Applied payload after) /\
  (accepted text ->
   Forall has_truthy_id (issues_or_empty (data a)) ->
   exists payload r items,
     JSON_parse text = inr payload /\
     get payload "issues" = VArr r items /\
     handleImport text a =
     Applied payload
       (Some {| data := new_data (next_ref a)
                          (mergeIssues (issues_or_empty (data a)) items);
                error := "";
                showImporter := false;
                next_ref := S (S (next_ref a)) |})) /\
  (~ accepted text ->
   exists msg hint,
     describes text msg /\
     (illegal_escape text -> hint = BACKSLASH_HINT) /\
     (~ illegal_escape text -> hint = "") /\
     handleImport text a =
     Rejected {| data := data a;
                 error := (msg ++ hint)%string;
                 showImporter := showImporter a;
                 next_ref := next_ref a |}).
Proof.
  split; [|split].
  - rewrite checked_payload_accepted. unfold handleImport. split.
    + intros [payload ->]. eauto.
    + destruct (checked_payload text) as [msg | payload].
      * intros [p [after [=]]].
      * intros _. now exists payload.
  - intros [payload [r [items [Hp [Hg Fi]]]]] Fa. exists payload, r, items.
    split; [assumption|]. split; [assumption|].
    assert (Hc : checked_payload text = inr payload).
    { apply checked_payload_inr. split; [assumption|]. now exists r, items. }
    unfold handleImport. rewrite Hc. unfold onImport.
    rewrite (opt_chain_of_object payload "issues" r items Hg).
    cbn [truthy negb setError data next_ref].
    rewrite (import_update_merges payload (data a) (next_ref a) r items Fa Hg Fi).
    reflexivity.
  - intros Hno. destruct (checked_payload text) as [msg | payload] eqn:Hc.
    + exists msg, (if test false re_backslash text then BACKSLASH_HINT else "").
      split; [now apply checked_payload_inl|].
      split; [|split].
      * intros Hesc. apply test_backslash in Hesc. now rewrite Hesc.
      * intros Hesc. destruct (test false re_backslash text) eqn:Et;
          [|reflexivity].
        apply test_backslash in Et. contradiction.
      * unfold handleImport. rewrite Hc. reflexivity.
    + exfalso. apply Hno. apply checked_payload_accepted. now exists payload.
Qed.

End ImportTheorem.

Example array_id_is_accepted :
  @handleImport demo_browser array_id_text empty_page =
  Applied array_id_payload
    (Some {| data := array_id_store; error := ""; showImporter := false;
             next_ref := 4 |}).
Proof. reflexivity. Qed.

Lemma handleImport_validates_witness :
  (exists payload r items,
     @JSON_parse demo_browser demo_import_text = inr payload /\
     get payload "issues" = VArr r items /\
     @handleImport demo_browser demo_import_text empty_page =
     Applied payload
       (Some {| data := new_data 2 (mergeIssues [] items); error := "";
                showImporter := false; next_ref := 4 |})) /\
  (exists msg hint,
     @describes demo_browser demo_bad_text msg /\
     (illegal_escape demo_bad_text -> hint = BACKSLASH_HINT) /\
     (~ illegal_escape demo_bad_text -> hint = "") /\
     @handleImport demo_browser demo_bad_text empty_page =
     Rejected {| data := data empty_page; error := (msg ++ hint)%string;
                 showImporter := true; next_ref := 2 |}).
Proof.
  split.
  - destruct (@handleImport_validates demo_browser demo_import_text empty_page)
      as (_ & Happly & _).
    apply Happly.
    + exists demo_import_payload, 61,
        [issue 62 "B" [("start", VStr "2025-02-02")];
         issue 63 "C" [("start", VStr "2025-01-03")]].
      repeat split; repeat constructor.
    + constructor.
  - destruct (@handleImport_validates demo_browser demo_bad_text empty_page)
      as (_ & _ & Hreject).
    apply Hreject. intros [payload [r [items [Hp _]]]].
    vm_compute in Hp. discriminate Hp.
Defined.

(** ** Export and import again *)

Lemma json_eqb_primitive (v w : value) :
  primitive v = true -> json_eqb v w = true -> w = v.
Proof.
  destruct v, w; simpl; try discriminate; intros _ E; try reflexivity.
  - apply Bool.eqb_prop in E. now subst.
  - apply Z.eqb_eq in E. now subst.
  - apply String.eqb_eq in E. now subst.
Qed.

Lemma props2_own_prop (n : string) (ps qs : list (string * value)) :
  props2 json_eqb ps qs = true ->
  json_eqb match own_prop n ps with Some v => v | None => VUndefined end
           match own_prop n qs with Some v => v | None => VUndefined end = true.
Proof.
  revert qs. induction ps as [|[k x] ps IH]; intros [|[k' y] qs]; simpl;
    try discriminate; [reflexivity|].
  intros E. apply andb_true_iff in E. destruct E as [E Hrest].
  apply andb_true_iff in E. destruct E as [Hk Hxy].
  apply String.eqb_eq in Hk. subst k'.
  destruct (k =? n); [assumption | now apply IH].
Qed.

Lemma deep_equal_opt_chain (n : string) (v w : value) :
  deep_equal v w -> deep_equal (opt_chain v n) (opt_chain w n).
Proof.
  unfold deep_equal. destruct v, w; simpl; try discriminate; try reflexivity.
  apply props2_own_prop.
Qed.

Lemma deep_equal_truthy (v w : value) : deep_equal v w -> truthy v = truthy w.
Proof.
  unfold deep_equal. destruct v, w; simpl; try discriminate; try reflexivity;
    intros E.
  - apply Bool.eqb_prop in E. now subst.
  - apply Z.eqb_eq in E. now subst.
  - apply String.eqb_eq in E. now subst.
Qed.

Lemma all2_Forall2 (xs ys : list value) :
  all2 json_eqb xs ys = true -> Forall2 deep_equal xs ys.
Proof.
  revert ys. induction xs as [|x xs IH]; intros [|y ys]; simpl;
    try discriminate; [constructor|].
  intros E. apply andb_true_iff in E. destruct E as [Hxy Hrest].
  constructor; [assumption | now apply IH].
Qed.

Lemma deep_equal_elements (v w : value) :
  deep_equal v w -> Forall2 deep_equal (elements v) (elements w).
Proof.
  unfold deep_equal. destruct v, w; simpl; try discriminate; try constructor.
  apply all2_Forall2.
Qed.

Lemma issues_deep_equal (store imported : value) :
  deep_equal store imported ->
  Forall2 deep_equal (issues_or_empty store) (issues_or_empty imported).
Proof.
  intros E. unfold issues_or_empty.
  pose proof (deep_equal_opt_chain "issues" store imported E) as Ei.
  rewrite <- (deep_equal_truthy _ _ Ei).
  destruct (truthy (opt_chain store "issues")); [|constructor].
  now apply deep_equal_elements.
Qed.

Lemma entry_key_deep_equal (e e' : value) :
  deep_equal e e' -> primitive (opt_chain e "id") = true ->
  entry_key e' = entry_key e.
Proof.
  intros E P. pose proof (deep_equal_opt_chain "id" e e' E) as Ei.
  unfold entry_key. now rewrite (json_eqb_primitive _ _ P Ei).
Qed.

Lemma copied_ids (L R : list value) :
  Forall2 deep_equal L R ->
  Forall (fun e => has_truthy_id e /\ primitive (opt_chain e "id") = true) L ->
  ids R = ids L /\ Forall has_truthy_id R.
Proof.
  induction 1 as [|e e' L R E F2 IH]; intros F; [split; [reflexivity|constructor]|].
  inversion F as [|? ? [Ht Hp] F']; subst.
  destruct (IH F') as [Hids Hall].
  pose proof (entry_key_deep_equal e e' E Hp) as Hk.
  split.
  - simpl. now rewrite Hk, Hids.
  - constructor; [|assumption].
    rewrite (has_truthy_id_entry_key e Ht) in Hk.
    now apply entry_key_truthy in Hk.
Qed.

Lemma first_seen_twice (ks : list key) : NoDup ks -> first_seen (ks ++ ks) = ks.
Proof.
  intros ND. unfold first_seen. rewrite fold_left_app.
  fold (first_seen ks). rewrite (first_seen_id ks ND).
  now apply add_keys_present.
Qed.

(** Merging a list with a list that has the same distinct ids in the same
    order gives the second list. *)
Lemma merge_same_ids (L R : list value) :
  Forall has_truthy_id R -> NoDup (ids L) -> ids R = ids L ->
  mergeIssues L R = R.
Proof.
  intros FR ND Hids.
  set (pairs := map (fun i => (key_of (opt_chain i "id"), i)) R).
  assert (Hvalues : map_values pairs = R).
  { unfold pairs, map_values. rewrite map_map. simpl. apply map_id. }
  assert (Hkeys : map_keys pairs = ids R).
  { unfold pairs, map_keys. rewrite map_map. simpl.
    symmetry. now apply ids_all_truthy. }
  assert (W : well_keyed pairs).
  { split.
    - rewrite Hkeys, Hids. assumption.
    - unfold pairs. apply Forall_forall. intros [k e] Hin.
      apply in_map_iff in Hin. destruct Hin as [i [[= <- <-] Hi]]. simpl.
      apply has_truthy_id_entry_key. rewrite Forall_forall in FR. now apply FR. }
  rewrite mergeIssues_fill. rewrite <- Hvalues at 2. f_equal.
  apply jsmap_ext.
  - apply merged_well_keyed.
  - rewrite fill_keys, ids_app, Hkeys, Hids. simpl.
    now apply first_seen_twice.
  - intros k. rewrite fill_get, last_with_app. simpl.
    rewrite <- (well_keyed_last k pairs W), Hvalues.
    destruct (last_with k R) eqn:ER; [reflexivity|].
    apply last_with_None in ER. rewrite Hids in ER.
    apply last_with_None in ER. now rewrite ER.
Qed.

(** The loops of [mergeIssues] establish the invariant of the store when
    the ids they meet are primitives. *)
Lemma mergeIssues_store_invariant (L R : list value) :
  (forall e, In e (L ++ R) -> primitive (opt_chain e "id") = true) ->
  store_invariant (mergeIssues L R).
Proof.
  intros P. split.
  - apply Forall_forall. intros e He. apply mergeIssues_In in He.
    destruct He as [k [Hk Hl]]. split.
    + now apply entry_key_truthy in Hk.
    + apply P. now apply last_with_Some in Hl.
  - rewrite mergeIssues_ids. apply first_seen_NoDup.
Qed.

(** The invariant holds of the built-in data and of every store that a
    merge writes, as long as the ids are primitives. *)
Lemma bootstrap_store_invariant : store_invariant (issues_or_empty bootstrapData).
Proof.
  split.
  - repeat constructor.
  - repeat constructor. intros [].
Qed.

Lemma issues_of_new_data (r : ref) (xs : list value) :
  issues_or_empty (new_data r xs) = xs.
Proof. reflexivity. Qed.

Lemma merged_store_invariant (r : ref) (prev : value) (remote : list value) :
  (forall e, In e (issues_or_empty prev ++ remote) ->
     primitive (opt_chain e "id") = true) ->
  store_invariant
    (issues_or_empty (new_data r (mergeIssues (issues_or_empty prev) remote))).
Proof.
  intros P. rewrite issues_of_new_data. now apply mergeIssues_store_invariant.
Qed.

Example entry_without_id_is_dropped :
  mergeIssues [VObj 1 [("title", VStr "draft")]] [VObj 2 [("title", VStr "draft")]] = [].
Proof. reflexivity. Qed.

Example array_id_copies_are_two_entries :
  mergeIssues (issues_or_empty array_id_store) (issues_or_empty array_id_reparsed) =
  [VObj 32 [("id", VArr 33 [VStr "x"])]; VObj 72 [("id", VArr 73 [VStr "x"])]].
Proof. reflexivity. Qed.

(** C9, as stated, fails: the importer accepts an issue whose id is an
    array; the store that holds it is exported and parsed again into a copy
    with an array of its own, a different [Map] key, and merging the store
    with the copy gives two entries where the store has one. *)
Lemma array_id_breaks_round_trip :
  ~ (forall (B : Browser) (store imported : value),
       @JSON_parse B (file_text (@downloadJSON B STORAGE_KEY store)) = inr imported ->
       deep_equal store imported ->
       fresh_for store imported ->
       Forall2 deep_equal
         (issues_or_empty store)
         (mergeIssues (issues_or_empty store) (issues_or_empty imported))).
Proof.
  intros Hclaim.
  specialize (Hclaim demo_browser array_id_store array_id_reparsed
                eq_refl eq_refl).
  assert (Hfresh : fresh_for array_id_store array_id_reparsed).
  { unfold fresh_for. simpl. repeat constructor; simpl; intros Hin;
      repeat (destruct Hin as [Hin | Hin]; [discriminate Hin|]); exact Hin. }
  specialize (Hclaim Hfresh).
  rewrite array_id_copies_are_two_entries in Hclaim.
  vm_compute in Hclaim.
  inversion Hclaim as [|? ? ? ? _ Htail]. inversion Htail.
Qed.

Section RoundTrip.
Context `{Browser}.

(** C9, amended.  Take a store whose issues all have a truthy primitive id
    (a non-empty string, as in the data model) and pairwise distinct ids.
    When the text that [downloadJSON] writes for it is parsed again into a
    value that serialises to the same JSON, merging the store's issues with
    the imported issues gives the imported issues, which are equal, entry by
    entry and in the same order, to the store's issues. *)
Theorem export_import_round_trip (store imported : value) :
  JSON_parse (file_text (downloadJSON STORAGE_KEY store)) = inr imported ->
  deep_equal store imported ->
  store_invariant (issues_or_empty store) ->
  mergeIssues (issues_or_empty store) (issues_or_empty imported) =
    issues_or_empty imported /\
  Forall2 deep_equal
    (issues_or_empty store)
    (mergeIssues (issues_or_empty store) (issues_or_empty imported)).
Proof.
  intros _ Heq [Fstore ND].
  pose proof (issues_deep_equal store imported Heq) as F2.
  destruct (copied_ids _ _ F2 Fstore) as [Hids Fimp].
  assert (Hmerge : mergeIssues (issues_or_empty store) (issues_or_empty imported)
                   = issues_or_empty imported)
    by now apply merge_same_ids.
  split; [assumption|]. now rewrite Hmerge.
Qed.

End RoundTrip.

Lemma export_import_round_trip_witness :
  mergeIssues (issues_or_empty demo_store) (issues_or_empty demo_store_reparsed) =
    issues_or_empty demo_store_reparsed /\
  Forall2 deep_equal
    (issues_or_empty demo_store)
    (mergeIssues (issues_or_empty demo_store) (issues_or_empty demo_store_reparsed)).
Proof.
  apply (@export_import_round_trip demo_browser demo_store demo_store_reparsed).
  - reflexivity.
  - reflexivity.
  - split.
    + repeat constructor.
    + repeat constructor; simpl; intros Hin;
        repeat (destruct Hin as [Hin | Hin]; [discriminate Hin|]); exact Hin.
Defined.

(* ================================================================== *)
(** * Part II, continued: the rest of the page *)
(* ================================================================== *)

(** ** More about [mergeIssues] *)

Lemma add_key_present (k : key) (seen : list key) :
  In k seen -> add_key seen k = seen.
Proof.
  intros Hk. unfold add_key. apply existsb_key_In in Hk. now rewrite Hk.
Qed.

Lemma add_key_absent (k : key) (seen : list key) :
  ~ In k seen -> add_key seen k = seen ++ [k].
Proof.
  intros Hk. unfold add_key. apply existsb_key_notIn in Hk. now rewrite Hk.
Qed.

Lemma add_keys_absorb (ks seen acc : list key) :
  fold_left add_key (fold_left add_key ks seen) acc =
  fold_left add_key ks (fold_left add_key seen acc).
Proof.
  revert seen. induction ks as [|k ks IH]; intros seen; simpl; [reflexivity|].
  rewrite IH. f_equal.
  destruct (existsb (key_eqb k) seen) eqn:E.
  - apply existsb_key_In in E. rewrite (add_key_present k seen E).
    symmetry. apply add_key_present. apply add_keys_In. now right.
  - apply existsb_key_notIn in E. rewrite (add_key_absent k seen E).
    now rewrite fold_left_app.
Qed.

Lemma merge_then_more (A B C : list value) :
  mergeIssues (mergeIssues A B) C = mergeIssues A (B ++ C).
Proof.
  unfold mergeIssues at 1. rewrite (mergeIssues_fill A B).
  rewrite refill by apply merged_well_keyed.
  rewrite <- fold_left_app, <- app_assoc. symmetry. apply mergeIssues_fill.
Qed.

Lemma merge_of_merged (A B C : list value) :
  mergeIssues A (mergeIssues B C) = mergeIssues A (B ++ C).
Proof.
  rewrite !mergeIssues_fill. f_equal. apply jsmap_ext.
  - apply fill_well_keyed, well_keyed_nil.
  - rewrite !fill_keys, !ids_app. simpl.
    rewrite <- mergeIssues_fill, mergeIssues_ids.
    rewrite !fold_left_app. unfold first_seen.
    rewrite add_keys_absorb. now rewrite fold_left_app.
  - intros k. rewrite !fill_get. simpl. rewrite !last_with_app.
    rewrite (well_keyed_last k _ (merged_well_keyed B C)), fill_get. simpl.
    rewrite last_with_app.
    destruct (last_with k C); [reflexivity|]. now destruct (last_with k B).
Qed.

(** X1.  Merging is associative, and merging twice is merging the
    concatenation: what the root does for a manifest of files (concatenate
    the files' issues, merge once) is what merging file by file gives. *)
Theorem mergeIssues_assoc (A B C : list value) :
  mergeIssues (mergeIssues A B) C = mergeIssues A (B ++ C) /\
  mergeIssues A (mergeIssues B C) = mergeIssues A (B ++ C) /\
  mergeIssues (mergeIssues A B) C = mergeIssues A (mergeIssues B C).
Proof.
  split; [apply merge_then_more|]. split; [apply merge_of_merged|].
  now rewrite merge_then_more, merge_of_merged.
Qed.

Lemma merged_from_inputs (L R : list value) (e : value) :
  In e (mergeIssues L R) -> In e (L ++ R).
Proof.
  intros He. apply mergeIssues_In in He. destruct He as [k [_ Hl]].
  now apply last_with_Some in Hl.
Qed.

Lemma merged_keeps_ids (L R : list value) (k : key) :
  In k (ids L) \/ In k (ids R) -> In k (ids (mergeIssues L R)).
Proof.
  intros Hk. rewrite mergeIssues_ids. apply first_seen_In.
  now apply in_app_iff.
Qed.

(** ** Fresh copies *)

Lemma deep_equal_get (n : string) (v w : value) :
  deep_equal v w -> deep_equal (get v n) (get w n).
Proof.
  unfold deep_equal. destruct v, w; simpl; try discriminate; try reflexivity.
  apply props2_own_prop.
Qed.

Lemma deep_equal_isArray (v w : value) : deep_equal v w -> isArray v = isArray w.
Proof. unfold deep_equal. now destruct v, w. Qed.

Lemma Forall2_deep_equal_length (xs ys : list value) :
  Forall2 deep_equal xs ys -> length xs = length ys.
Proof. induction 1; simpl; congruence. Qed.

Lemma deep_equal_ToString (v : value) :
  forall w, deep_equal v w -> ToString v = ToString w.
Proof.
  unfold deep_equal.
  induction v as [| |b|n| |s|r items IH|r props _] using value_induction;
    intros w; destruct w; simpl; try discriminate; try reflexivity; intros E.
  - apply Bool.eqb_prop in E. now subst.
  - apply Z.eqb_eq in E. now subst.
  - apply String.eqb_eq in E. now subst.
  - f_equal. revert items0 E.
    induction IH as [|x items Hx _ IHl]; intros [|y ys]; simpl;
      try discriminate; [reflexivity|].
    intros E. apply andb_true_iff in E. destruct E as [Exy Erest].
    rewrite (IHl ys Erest). f_equal.
    pose proof (Hx y Exy) as Hs.
    destruct x, y; simpl in Exy; try discriminate; try reflexivity; exact Hs.
Qed.

Lemma refresh_deep_equal (n : nat) (v : value) : deep_equal v (refresh n v).
Proof.
  unfold deep_equal.
  induction v as [| |b|z| |s|r items IH|r props IH] using value_induction;
    simpl; try reflexivity.
  - now destruct b.
  - apply Z.eqb_refl.
  - apply String.eqb_refl.
  - induction IH as [|x items Hx _ IHl]; simpl; [reflexivity|].
    now rewrite Hx, IHl.
  - induction IH as [|[k x] props Hx _ IHl]; simpl; [reflexivity|].
    simpl in Hx. now rewrite String.eqb_refl, Hx, IHl.
Qed.

(** A later parse answers again. *)
Lemma later_answers_again (B : Browser) (n : nat) : answers_again B (later B n).
Proof.
  intros u. unfold fetchJSON. cbn [fetch later JSON_parse].
  destruct (@fetch B u) as [|[|] [body|]]; try exact I.
  destruct (@JSON_parse B body) as [msg|v]; [exact I|].
  apply refresh_deep_equal.
Qed.

Lemma primitive_key (v w : value) :
  key_of v = key_of w -> primitive w = true -> primitive v = true.
Proof. destruct v, w; simpl; try discriminate; reflexivity. Qed.



(** A copy is stored under the key of its original when the id is a
    primitive, and is not stored when the original is not. *)
Lemma entry_key_copy (e e' : value) :
  deep_equal e e' ->
  (has_truthy_id e -> primitive (opt_chain e "id") = true) ->
  entry_key e' = entry_key e.
Proof.
  intros E P. unfold entry_key.
  pose proof (deep_equal_opt_chain "id" e e' E) as Ei.
  rewrite <- (deep_equal_truthy _ _ Ei).
  destruct (truthy (opt_chain e "id")) eqn:Ht; [|reflexivity].
  now rewrite (json_eqb_primitive _ _ (P Ht) Ei).
Qed.

Lemma ids_copy (R R' : list value) :
  Forall2 deep_equal R R' ->
  Forall (fun e => has_truthy_id e -> primitive (opt_chain e "id") = true) R ->
  ids R' = ids R.
Proof.
  induction 1 as [|e e' R R' E _ IH]; intros F; [reflexivity|].
  inversion F as [|? ? P F']; subst. simpl.
  now rewrite (entry_key_copy e e' E P), (IH F').
Qed.

(** When the merged ids are primitives, so were the ids that went in. *)
Lemma merged_primitive (L R : list value) :
  primitive_ids (mergeIssues L R) ->
  Forall (fun e => has_truthy_id e -> primitive (opt_chain e "id") = true) R.
Proof.
  intros P. apply Forall_forall. intros e He Ht.
  assert (Hk : In (key_of (opt_chain e "id")) (ids (mergeIssues L R))).
  { apply merged_keeps_ids. right. apply ids_In. exists e.
    split; [assumption | now apply has_truthy_id_entry_key]. }
  apply ids_In in Hk. destruct Hk as [e0 [He0 Hk0]].
  apply entry_key_truthy in Hk0. destruct Hk0 as [_ Hk0].
  apply (primitive_key _ _ Hk0).
  unfold primitive_ids in P. rewrite Forall_forall in P. now apply P.
Qed.

Lemma first_seen_again (ks ks' : list key) :
  (forall k, In k ks' -> In k ks) ->
  first_seen (first_seen ks ++ ks') = first_seen ks.
Proof.
  intros Hsub. unfold first_seen at 1. rewrite fold_left_app.
  fold (first_seen (first_seen ks)).
  rewrite (first_seen_id _ (first_seen_NoDup ks)).
  apply add_keys_present. intros k Hk. apply first_seen_In. now apply Hsub.
Qed.

(** Merging fresh copies of the remote issues into the merge changes no id
    and no position, when the ids are primitives. *)
Lemma merge_copy_ids (L R R' : list value) :
  Forall2 deep_equal R R' ->
  primitive_ids (mergeIssues L R) ->
  ids (mergeIssues (mergeIssues L R) R') = ids (mergeIssues L R).
Proof.
  intros E P.
  rewrite (mergeIssues_ids (mergeIssues L R) R').
  rewrite (ids_copy R R' E (merged_primitive L R P)).
  rewrite mergeIssues_ids. apply first_seen_again.
  intros k Hk. apply in_or_app. now right.
Qed.

(** ** The root: loading remote content *)

Section Loading.
Context `{Browser}.


(** Whatever [load_manifest] writes, it is the merge of the store with one
    list of remote issues that depends on the site only. *)
Lemma load_manifest_merges (prev d : value) (r : ref) :
  load_manifest prev r = Some d ->
  exists remote,
    d = new_data r (mergeIssues (issues_or_empty prev) remote) /\
    forall prev' r',
      load_manifest prev' r' =
      Some (new_data r' (mergeIssues (issues_or_empty prev') remote)).
Proof.
  unfold load_manifest. destruct (fetchJSON MANIFEST_URL) as [idx|]; [|discriminate].
  destruct (truthy idx && isArray (get idx "issues")).
  - intros [= <-]. now exists (elements (get idx "issues")).
  - destruct (truthy idx && isArray (get idx "files")
              && negb (length (elements (get idx "files")) =? 0)%nat);
      [|discriminate].
    cbv zeta.
    destruct (negb (length (flat_map file_issues
                 (fetch_files (elements (get idx "files")))) =? 0)%nat);
      [|discriminate].
    intros [= <-].
    now exists (flat_map file_issues (fetch_files (elements (get idx "files")))).
Qed.


End Loading.


(** *** Loading again *)

Lemma file_issues_copy (p p' : option value) :
  match p, p' with
  | Some v, Some w => deep_equal v w
  | None, None => True
  | _, _ => False
  end ->
  Forall2 deep_equal (file_issues p) (file_issues p').
Proof.
  destruct p as [v|], p' as [w|]; try contradiction; [|constructor].
  intros E. unfold file_issues.
  pose proof (deep_equal_get "issues" v w E) as Eg.
  rewrite <- (deep_equal_truthy v w E), <- (deep_equal_isArray _ _ Eg).
  destruct (truthy v && isArray (get v "issues")); [|constructor].
  now apply deep_equal_elements.
Qed.

Lemma fetch_files_copy (first second : Browser) (files files' : list value) :
  answers_again first second ->
  Forall2 deep_equal files files' ->
  Forall2 deep_equal (flat_map file_issues (@fetch_files first files))
                     (flat_map file_issues (@fetch_files second files')).
Proof.
  intros Ha. induction 1 as [|x y files files' E _ IH]; [constructor|].
  cbn [fetch_files map flat_map]. apply Forall2_app; [|exact IH].
  apply file_issues_copy. unfold content_url.
  rewrite <- (deep_equal_ToString x y E). apply Ha.
Qed.

(** What a load writes is the merge of the store with a list of remote
    issues; a browser that is answered again merges fresh copies of them. *)
Lemma load_manifest_again (first second : Browser) (prev d : value) (r : ref) :
  answers_again first second ->
  @load_manifest first prev r = Some d ->
  exists R R',
    d = new_data r (mergeIssues (issues_or_empty prev) R) /\
    Forall2 deep_equal R R' /\
    forall prev' r',
      @load_manifest second prev' r' =
      Some (new_data r' (mergeIssues (issues_or_empty prev') R')).
Proof.
  intros Ha. unfold load_manifest. pose proof (Ha MANIFEST_URL) as Hm.
  destruct (@fetchJSON first MANIFEST_URL) as [idx|]; [|discriminate].
  destruct (@fetchJSON second MANIFEST_URL) as [idx'|]; [|contradiction].
  pose proof (deep_equal_get "issues" idx idx' Hm) as Ei.
  pose proof (deep_equal_get "files" idx idx' Hm) as Ef.
  pose proof (deep_equal_elements _ _ Ei) as Fi.
  pose proof (deep_equal_elements _ _ Ef) as Ff.
  rewrite <- (deep_equal_truthy idx idx' Hm), <- (deep_equal_isArray _ _ Ei),
          <- (deep_equal_isArray _ _ Ef),
          <- (Forall2_deep_equal_length _ _ Ff).
  destruct (truthy idx && isArray (get idx "issues")).
  - intros [= <-]. now exists (elements (get idx "issues")), (elements (get idx' "issues")).
  - destruct (truthy idx && isArray (get idx "files")
              && negb (length (elements (get idx "files")) =? 0)%nat);
      [|discriminate].
    cbv zeta.
    pose proof (fetch_files_copy first second _ _ Ha Ff) as Fc.
    rewrite <- (Forall2_deep_equal_length _ _ Fc).
    destruct (negb (length (flat_map file_issues
                 (@fetch_files first (elements (get idx "files")))) =? 0)%nat);
      [|discriminate].
    intros [= <-]. eexists _, _. split; [reflexivity|]. split; [exact Fc|].
    reflexivity.
Qed.

(** X3.  Whatever the site answers, a load that writes the store leaves it
    with entries that all have a truthy id, no two of them the same id, and
    with every id it had before.  When the site answers again as it did,
    in objects that are fresh as those of every parse are, and the ids of
    the store are primitives, loading again writes a store with the same
    ids in the same order, and so with as many issues. *)
Theorem load_manifest_keeps_ids (first second : Browser) (prev d : value) (r : ref) :
  @load_manifest first prev r = Some d ->
  Forall has_truthy_id (issues_or_empty d) /\
  NoDup (ids (issues_or_empty d)) /\
  (forall k, In k (ids (issues_or_empty prev)) -> In k (ids (issues_or_empty d))) /\
  (answers_again first second ->
   primitive_ids (issues_or_empty d) ->
   forall r', exists d',
     @load_manifest second d r' = Some d' /\
     ids (issues_or_empty d') = ids (issues_or_empty d) /\
     length (issues_or_empty d') = length (issues_or_empty d)).
Proof.
  intros Hload.
  destruct (load_manifest_merges prev d r Hload) as [remote [Ed _]].
  split; [|split; [|split]].
  - rewrite Ed, issues_of_new_data. apply mergeIssues_all_truthy.
  - rewrite Ed, issues_of_new_data, mergeIssues_ids. apply first_seen_NoDup.
  - intros k Hk. rewrite Ed, issues_of_new_data. apply merged_keeps_ids. now left.
  - intros Ha P r'.
    destruct (load_manifest_again first second prev d r Ha Hload)
      as [R [R' [-> [Fc Hany]]]].
    rewrite issues_of_new_data in *.
    eexists. split; [apply Hany|]. rewrite !issues_of_new_data.
    pose proof (merge_copy_ids _ R R' Fc P) as Hids.
    split; [exact Hids|].
    rewrite <- (length_map (fun e => key_of (opt_chain e "id")) (mergeIssues _ R')).
    rewrite <- (length_map (fun e => key_of (opt_chain e "id"))
                  (mergeIssues (issues_or_empty prev) R)).
    rewrite <- !ids_all_truthy by apply mergeIssues_all_truthy.
    now rewrite Hids.
Qed.

Lemma load_manifest_keeps_ids_witness :
  In (KStr "2025-08-18_2025-08-24")
     (ids (issues_or_empty (new_data 300 [week34; week35]))) /\
  exists d',
    @load_manifest (later site_browser 1000) (new_data 300 [week34; week35]) 400
      = Some d' /\
    ids (issues_or_empty d') = ids (issues_or_empty (new_data 300 [week34; week35])) /\
    length (issues_or_empty d') = length (issues_or_empty (new_data 300 [week34; week35])).
Proof.
  destruct (load_manifest_keeps_ids site_browser (later site_browser 1000)
              bootstrapData (new_data 300 [week34; week35]) 300 eq_refl)
    as (_ & _ & Hids & Hagain).
  split.
  - apply Hids. now left.
  - apply (Hagain (later_answers_again site_browser 1000)).
    repeat constructor.
Defined.

(** ** The root: the lazy load *)

Lemma key_of_string (v : value) (s : string) : key_of v = KStr s -> v = VStr s.
Proof. destruct v; simpl; try discriminate. now intros [= ->]. Qed.

Lemma has_issue_absent (id : string) (xs : list value) :
  has_issue id xs = Some false ->
  forall e, In e xs -> opt_chain e "id" <> VStr id.
Proof.
  induction xs as [|i xs IH]; simpl; [intros _ e []|].
  destruct (read i "id") as [v|] eqn:Er; [|discriminate].
  apply read_opt_chain in Er.
  intros Hh e [<- | He].
  - rewrite Er. intros ->. rewrite String.eqb_refl in Hh. discriminate.
  - apply IH; [|assumption].
    destruct v; try assumption. now destruct (s =? id).
Qed.

Lemma has_issue_with_ids (id : string) (xs : list value) :
  Forall has_truthy_id xs ->
  ((exists e, In e xs /\ opt_chain e "id" = VStr id) -> has_issue id xs = Some true) /\
  ((forall e, In e xs -> opt_chain e "id" <> VStr id) -> has_issue id xs = Some false).
Proof.
  induction 1 as [|i xs Hi F [IHt IHf]]; simpl.
  - split; [intros [e [[] _]] | reflexivity].
  - rewrite (truthy_id_read i Hi). split.
    + intros [e [[<- | He] Hid]].
      * rewrite Hid, String.eqb_refl. reflexivity.
      * assert (Hrest : has_issue id xs = Some true) by (apply IHt; eauto).
        destruct (opt_chain i "id"); try assumption. now destruct (s =? id).
    + intros Hno.
      assert (Hrest : has_issue id xs = Some false)
        by (apply IHf; intros e He; apply Hno; now right).
      destruct (opt_chain i "id") as [| | | | |s| |] eqn:Ei; try assumption.
      destruct (String.eqb_spec s id) as [-> | Hne]; [|assumption].
      exfalso. apply (Hno i); [now left | assumption].
Qed.

Lemma chars_deep_equal (s : string) : Forall2 deep_equal (chars s) (chars s).
Proof.
  induction s as [|c s IH]; simpl; constructor; [|exact IH].
  unfold deep_equal. cbn [json_eqb]. apply String.eqb_refl.
Qed.

Lemma length_of_copy (x y : value) :
  deep_equal x y -> truthy (length_of x) = truthy (length_of y).
Proof.
  intros E. destruct x, y; try discriminate E; try reflexivity.
  - unfold deep_equal in E. simpl in E. apply String.eqb_eq in E. now subst.
  - pose proof (Forall2_deep_equal_length _ _ (deep_equal_elements _ _ E)) as Hl.
    simpl in Hl. simpl. now rewrite Hl.
  - unfold length_of. apply deep_equal_truthy. now apply deep_equal_get.
Qed.

Lemma iterate_copy (x y : value) (xs : list value) :
  deep_equal x y -> iterate x = Some xs ->
  exists xs', iterate y = Some xs' /\ Forall2 deep_equal xs xs'.
Proof.
  intros E. destruct x, y; try discriminate E; try discriminate.
  - unfold deep_equal in E. simpl in E. apply String.eqb_eq in E. subst.
    intros [= <-]. eexists. split; [reflexivity | apply chars_deep_equal].
  - intros [= <-]. eexists. split; [reflexivity|].
    exact (deep_equal_elements _ _ E).
Qed.

Section LazyLoad.
Variables first second : Browser.

(** X4.  When the lazy load writes the store, what it writes is the merge
    of the store with the issues of the fetched file.  If that file has the
    issue of the route, the next run of the effect finds it and does
    nothing, whatever the site then answers.  If it has not, and the site
    answers again as it did, the next run fetches and writes again, merging
    fresh copies of the file's issues; the ids of the store stay as they
    are when they are primitives.  The effect, which runs after every
    change of the data, does not come to rest. *)
Theorem lazy_load_next_run
    (route_name : string) (params : list string) (d d' : value) (r : ref) :
  @lazy_load first route_name params d r = Update d' ->
  exists id rest payload xs,
    params = id :: rest /\
    @fetchJSON first (issue_url id) = Some payload /\
    iterate (opt_chain payload "issues") = Some xs /\
    d' = new_data r (mergeIssues (issues_or_empty d) xs) /\
    ((exists e, In e xs /\ opt_chain e "id" = VStr id) ->
     forall r', @lazy_load second route_name params d' r' = NoUpdate) /\
    ((forall e, In e xs -> opt_chain e "id" <> VStr id) ->
     answers_again first second ->
     forall r', exists d'' xs',
       @lazy_load second route_name params d' r' = Update d'' /\
       d'' = new_data r' (mergeIssues (issues_or_empty d') xs') /\
       Forall2 deep_equal xs xs' /\
       (primitive_ids (issues_or_empty d') ->
        ids (issues_or_empty d'') = ids (issues_or_empty d'))).
Proof.
  unfold lazy_load.
  destruct (negb (route_name =? "issue")) eqn:Eroute; [discriminate|].
  destruct params as [|id rest]; [discriminate|].
  destruct (negb (nonempty id)) eqn:Eid; [discriminate|].
  destruct (has_issue id (issues_or_empty d)) as [[|]|] eqn:Ehas; try discriminate.
  destruct (@fetchJSON first (issue_url id)) as [payload|] eqn:Ef; [|discriminate].
  cbv zeta.
  destruct (truthy (length_of (opt_chain payload "issues"))) eqn:El; [|discriminate].
  destruct (iterate (opt_chain payload "issues")) as [xs|] eqn:Ei; [|discriminate].
  intros [= <-]. exists id, rest, payload, xs.
  split; [reflexivity|]. split; [assumption|]. split; [assumption|].
  split; [reflexivity|]. split.
  - intros [e [He Hid]] r'. rewrite issues_of_new_data.
    assert (Hk : entry_key e = Some (KStr id)).
    { unfold entry_key. rewrite Hid. simpl.
      apply negb_false_iff in Eid. unfold nonempty in Eid. now rewrite Eid. }
    assert (Hin : In (KStr id) (ids (issues_or_empty d ++ xs))).
    { apply ids_In. exists e. split; [|assumption]. apply in_or_app. now right. }
    destruct (last_with_present _ _ Hin) as [e' He'].
    assert (Hfound : has_issue id (mergeIssues (issues_or_empty d) xs) = Some true).
    { apply has_issue_with_ids; [apply mergeIssues_all_truthy|].
      exists e'. split.
      - apply mergeIssues_In. exists (KStr id). split; [|assumption].
        now apply last_with_Some in He'.
      - apply last_with_Some in He'. destruct He' as [_ Hk'].
        apply entry_key_truthy in Hk'. destruct Hk' as [_ Hk'].
        now apply key_of_string. }
    now rewrite Hfound.
  - intros Hno Ha r'. rewrite issues_of_new_data.
    assert (Hmiss : has_issue id (mergeIssues (issues_or_empty d) xs) = Some false).
    { apply has_issue_with_ids; [apply mergeIssues_all_truthy|].
      intros e He. apply merged_from_inputs in He.
      apply in_app_or in He. destruct He as [He | He].
      - now apply (has_issue_absent id _ Ehas).
      - now apply Hno. }
    rewrite Hmiss. pose proof (Ha (issue_url id)) as Hu. rewrite Ef in Hu.
    destruct (@fetchJSON second (issue_url id)) as [payload'|]; [|contradiction].
    pose proof (deep_equal_opt_chain "issues" payload payload' Hu) as Eo.
    rewrite <- (length_of_copy _ _ Eo), El.
    destruct (iterate_copy _ _ xs Eo Ei) as [xs' [-> Fc]].
    exists (new_data r' (mergeIssues (mergeIssues (issues_or_empty d) xs) xs')), xs'.
    split; [reflexivity|]. split; [reflexivity|]. split; [assumption|].
    intros P. rewrite issues_of_new_data. now apply merge_copy_ids.
Qed.

End LazyLoad.

Lemma lazy_load_next_run_witness :
  (forall r', @lazy_load (later site_browser 1000) "issue" ["2025-09-01_2025-09-07"]
                (new_data 300 (mergeIssues (issues_or_empty bootstrapData) [week36])) r'
              = NoUpdate) /\
  (forall r', exists d'' xs',
     @lazy_load (later site_browser 1000) "issue" ["2025-09-08_2025-09-14"]
       (new_data 300 (mergeIssues (issues_or_empty bootstrapData) [week36])) r'
     = Update d'' /\
     d'' = new_data r'
             (mergeIssues
                (issues_or_empty
                   (new_data 300 (mergeIssues (issues_or_empty bootstrapData) [week36])))
                xs') /\
     Forall2 deep_equal [week36] xs' /\
     (primitive_ids
        (issues_or_empty
           (new_data 300 (mergeIssues (issues_or_empty bootstrapData) [week36]))) ->
      ids (issues_or_empty d'') =
      ids (issues_or_empty
             (new_data 300 (mergeIssues (issues_or_empty bootstrapData) [week36]))))).
Proof.
  split.
  - destruct (lazy_load_next_run site_browser (later site_browser 1000)
                "issue" ["2025-09-01_2025-09-07"] bootstrapData _ 300 eq_refl)
      as (id & rest & payload & xs & Hp & Hf & Hi & _ & Hyes & _).
    injection Hp as <- <-. vm_compute in Hf. injection Hf as <-.
    vm_compute in Hi. injection Hi as <-.
    apply Hyes. exists week36. split; [now left | reflexivity].
  - destruct (lazy_load_next_run site_browser (later site_browser 1000)
                "issue" ["2025-09-08_2025-09-14"] bootstrapData _ 300 eq_refl)
      as (id & rest & payload & xs & Hp & Hf & Hi & _ & _ & Hno).
    injection Hp as <- <-. vm_compute in Hf. injection Hf as <-.
    vm_compute in Hi. injection Hi as <-.
    apply Hno; [|apply later_answers_again]. intros e [<- | []]. discriminate.
Defined.

(** ** Navigation *)

Lemma segments_pieces (s : string) : segments s = filter nonempty (pieces s).
Proof. reflexivity. Qed.

Lemma split_slash_cons (s : string) : exists part parts, split_slash s = part :: parts.
Proof.
  destruct s as [|c s]; simpl; [eauto|].
  destruct (Ascii.eqb c "/"); [eauto|].
  destruct (split_slash s); eauto.
Qed.

Lemma hex_digit_not_slash (n : N) : Ascii.eqb (hex_digit n) "/" = false.
Proof.
  destruct n as [|p]; [reflexivity|].
  do 4 (destruct p as [p|p|]; try reflexivity).
Qed.

Lemma fragment_keeps_slash (c : ascii) :
  Ascii.eqb c "/" = true -> tab_or_newline c = false /\ fragment_keeps c = true.
Proof. intros E. apply Ascii.eqb_eq in E. subst c. now split. Qed.

(** The url parser encodes piece by piece: it leaves the slashes alone and
    makes no new one. *)
Lemma split_slash_encode (s : string) :
  split_slash (fragment_encode s) = map fragment_encode (split_slash s).
Proof.
  induction s as [|c s IH]; [reflexivity|].
  cbn [fragment_encode split_slash].
  destruct (Ascii.eqb c "/") eqn:Ec.
  - destruct (fragment_keeps_slash c Ec) as [-> ->].
    cbn [split_slash map]. now rewrite Ec, IH.
  - destruct (split_slash_cons s) as [part [parts Es]].
    rewrite Es in *. cbn [map] in *. cbn [fragment_encode].
    destruct (tab_or_newline c); [assumption|].
    destruct (fragment_keeps c).
    + cbn [split_slash]. now rewrite Ec, IH.
    + unfold percent_byte. cbn [append split_slash].
      change (Ascii.eqb "%" "/") with false. cbv iota.
      rewrite !hex_digit_not_slash, IH. reflexivity.
Qed.

Lemma split_slash_one (s : string) :
  slash_free s = true -> split_slash s = [s].
Proof.
  induction s as [|c s IH]; [reflexivity|].
  simpl. intros Hs. apply andb_true_iff in Hs. destruct Hs as [Hc Hs].
  apply negb_true_iff in Hc. now rewrite Hc, (IH Hs).
Qed.

Lemma split_slash_prefix (id tail : string) :
  slash_free id = true ->
  split_slash (id ++ String "/" tail) = id :: split_slash tail.
Proof.
  induction id as [|c id IH]; intros Hs; [reflexivity|].
  simpl in Hs. apply andb_true_iff in Hs. destruct Hs as [Hc Hs].
  apply negb_true_iff in Hc. simpl. now rewrite Hc, (IH Hs).
Qed.

(** The segments of the hash that the browser hands back after [go(to)]. *)
Lemma segments_after_go (to : string) :
  segments (location_hash (go_hash to)) =
  filter nonempty (map fragment_encode (pieces to)).
Proof.
  unfold go_hash, location_hash, pieces. rewrite replace_leading_hash.
  cbv zeta. set (rest := match to with String "#" t => t | _ => to end).
  change (match ("#" ++ rest)%string with String "#" t => t | _ => ("#" ++ rest)%string end)
    with rest.
  rewrite <- split_slash_encode.
  destruct (nonempty (fragment_encode rest)) eqn:E; [reflexivity|].
  unfold nonempty in E. apply negb_false_iff, String.eqb_eq in E. now rewrite E.
Qed.

Lemma plain_rest (to : string) :
  plain to = true ->
  map fragment_encode (pieces to) = pieces to.
Proof.
  unfold plain, pieces. intros E. apply String.eqb_eq in E.
  rewrite <- split_slash_encode. f_equal.
  destruct to as [|c t]; [reflexivity|].
  destruct (Ascii.eqb c "#") eqn:Ec.
  - apply Ascii.eqb_eq in Ec. subst c. cbn [fragment_encode] in E.
    change (tab_or_newline "#") with false in E.
    change (fragment_keeps "#") with true in E. cbv iota in E.
    now injection E.
  - assert (Hsame : match String c t with String "#" t0 => t0 | _ => String c t end
                    = String c t).
    { destruct c as [[] [] [] [] [] [] [] []]; try reflexivity; discriminate. }
    now rewrite Hsame.
Qed.

Lemma route_after_go_pieces (to : string) :
  route_after_go to =
  route_of (filter nonempty (map fragment_encode (pieces to))).
Proof.
  unfold route_after_go.
  now rewrite parseHashFromString_segments, segments_after_go.
Qed.

(** Where the card of an id without a slash leads. *)
Lemma route_after_open (id : string) :
  slash_free id = true ->
  parseHashFromString (location_hash (openIssue (VStr id))) =
  if nonempty (fragment_encode id)
  then {| name := "issue"; params := [fragment_encode id] |}
  else home.
Proof.
  intros Hfree. unfold openIssue. cbn [ToString].
  fold (route_after_go ("/issue/" ++ id)). rewrite route_after_go_pieces.
  unfold pieces. cbn [append split_slash Ascii.eqb Bool.eqb].
  rewrite (split_slash_one id Hfree). simpl.
  now destruct (nonempty (fragment_encode id)).
Qed.

(** X5.  The route after [go(to)] is read from the hash that the browser
    hands back, which is the percent-encoding of what [go] assigned: the
    router sees the pieces of [to], each encoded.  A [to] of plain
    characters leads to the route that [to] itself parses to, with or
    without a leading [#], and going back leads home.  Opening an issue
    whose id has no slash leads to the issue view with the encoded id as
    parameter: the id itself when its characters are plain, another string
    when it has a space or a character outside ASCII; and of an id with a
    slash only the part before the slash arrives. *)
Theorem go_then_parse (to id tail : string) :
  route_after_go to =
    route_of (filter nonempty (map fragment_encode (pieces to))) /\
  (plain to = true -> route_after_go to = parseHashFromString to) /\
  parseHashFromString (location_hash onBack) = home /\
  (slash_free id = true -> nonempty (fragment_encode id) = true ->
   parseHashFromString (location_hash (openIssue (VStr id))) =
     {| name := "issue"; params := [fragment_encode id] |} /\
   parseHashFromString (location_hash (openIssue (VStr (id ++ "/" ++ tail)))) =
     {| name := "issue"; params := [fragment_encode id] |}).
Proof.
  split; [apply route_after_go_pieces|]. split; [|split].
  - intros Hp. rewrite route_after_go_pieces, (plain_rest to Hp).
    now rewrite parseHashFromString_segments, segments_pieces.
  - reflexivity.
  - intros Hfree Hne. split.
    + now rewrite (route_after_open id Hfree), Hne.
    + unfold openIssue. cbn [ToString].
      fold (route_after_go ("/issue/" ++ id ++ "/" ++ tail)).
      rewrite route_after_go_pieces. unfold pieces.
      cbn [append split_slash Ascii.eqb Bool.eqb].
      rewrite (split_slash_prefix id tail Hfree). simpl. now rewrite Hne.
Qed.

Lemma go_then_parse_witness :
  parseHashFromString (location_hash (openIssue (VStr "week 34"))) =
    {| name := "issue"; params := ["week%2034"] |} /\
  parseHashFromString (location_hash (openIssue (VStr "week 34/draft"))) =
    {| name := "issue"; params := ["week%2034"] |}.
Proof.
  destruct (go_then_parse "" "week 34" "draft") as (_ & _ & _ & Hopen).
  apply Hopen; reflexivity.
Defined.

(** ** More about the patterns of the image helpers *)

Lemma lower_char_question (c : ascii) : lower_char c = "?"%char -> c = "?"%char.
Proof.
  destruct c as [[] [] [] [] [] [] [] []]; vm_compute; intros E;
    try reflexivity; discriminate E.
Qed.

Lemma strip_ci_inv (p s t : string) :
  strip true p s = Some t ->
  exists x, s = (x ++ t)%string /\ toLowerCase x = toLowerCase p.
Proof.
  revert s. induction p as [|a p IH]; intros s; simpl.
  - intros [= ->]. now exists EmptyString.
  - destruct s as [|b s]; [discriminate|].
    destruct (Ascii.eqb (lower_char a) (lower_char b)) eqn:E; [|discriminate].
    apply Ascii.eqb_eq in E. intros Hs. destruct (IH s Hs) as [x [-> Hx]].
    exists (String b x). split; [reflexivity|]. simpl. now rewrite Hx, E.
Qed.

Lemma run_query_or_end (b : mstate) :
  run true query_or_end b <> [] ->
  rest b = EmptyString \/ exists q', rest b = ("?" ++ q')%string.
Proof.
  unfold query_or_end. cbn [run]. unfold literal.
  destruct (rest b) as [|c q'] eqn:Er; [now left|].
  cbn [strip char_eqb].
  destruct (Ascii.eqb (lower_char "?") (lower_char c)) eqn:E.
  - intros _. right. exists q'. apply Ascii.eqb_eq in E.
    symmetry in E. apply lower_char_question in E. now subst.
  - intros Hn. now contradiction Hn.
Qed.

Lemma test_extension_inv (ext u : string) :
  test true (Cat (Chars ext) query_or_end) u = true ->
  exists p x q,
    u = (p ++ x ++ q)%string /\ toLowerCase x = toLowerCase ext /\
    (q = EmptyString \/ exists q', q = ("?" ++ q')%string).
Proof.
  intros Ht. apply test_from_inv in Ht.
  destruct Ht as [pre [suf [b [-> Hrun]]]].
  cbn [run] in Hrun. unfold literal at 1 in Hrun. cbn [rest start_at] in Hrun.
  destruct (strip true ext suf) as [t|] eqn:Es; [|now contradiction Hrun].
  destruct (strip_ci_inv ext suf t Es) as [x [-> Hx]].
  cbn [flat_map] in Hrun. rewrite app_nil_r in Hrun.
  apply run_query_or_end in Hrun. cbn [rest move] in Hrun.
  now exists pre, x, t.
Qed.

Lemma isBadExt_inv (u : string) : isBadExt u = true -> bad_extension_shape u.
Proof.
  unfold isBadExt, re_svg, re_gif, bad_extension_shape.
  intros Hb. apply orb_true_iff in Hb.
  destruct Hb as [Hb | Hb]; apply test_extension_inv in Hb;
    destruct Hb as [p [x [q [-> [Hx Hq]]]]]; exists p, x, q; auto.
Qed.

(** X6.  [isBadExt] answers yes exactly on the urls that end in [.svg] or
    [.gif], in any letter case, or continue with a question mark right
    after that extension: nothing else is filtered out for its extension. *)
Theorem isBadExt_exactly (u : string) :
  isBadExt u = true <-> bad_extension_shape u.
Proof.
  split; [apply isBadExt_inv | apply bad_extension_isBadExt].
Qed.

Lemma toLowerCase_app (a b : string) :
  toLowerCase (a ++ b) = (toLowerCase a ++ toLowerCase b)%string.
Proof. induction a as [|c a IH]; simpl; [reflexivity | now rewrite IH]. Qed.

Lemma toLowerCase_app_inv (s a b : string) :
  toLowerCase s = (a ++ b)%string ->
  exists a' b', s = (a' ++ b')%string /\ toLowerCase a' = a /\ toLowerCase b' = b.
Proof.
  revert s. induction a as [|c a IH]; intros s; simpl.
  - intros Hs. now exists EmptyString, s.
  - destruct s as [|d s]; [discriminate|]. simpl. intros [= Hc Hs].
    destruct (IH s Hs) as [a' [b' [-> [Ha Hb]]]].
    exists (String d a'), b'. simpl. now rewrite Hc, Ha.
Qed.

Lemma bad_extension_shape_lower (u : string) :
  bad_extension_shape (toLowerCase u) <-> bad_extension_shape u.
Proof.
  unfold bad_extension_shape. split.
  - intros [p [x [q [Hu [Hx Hq]]]]].
    apply toLowerCase_app_inv in Hu. destruct Hu as [p' [r' [-> [Hp Hr]]]].
    apply toLowerCase_app_inv in Hr. destruct Hr as [x' [q' [-> [Hx' Hq']]]].
    exists p', x', q'. split; [reflexivity|]. split.
    + subst x. now rewrite toLowerCase_idem in Hx.
    + destruct Hq as [-> | [q0 ->]].
      * left. destruct q'; [reflexivity | discriminate].
      * right. destruct q' as [|c q']; [discriminate|].
        simpl in Hq'. injection Hq' as Hc _.
        apply lower_char_question in Hc. subst c. now exists q'.
  - intros [p [x [q [-> [Hx Hq]]]]].
    exists (toLowerCase p), (toLowerCase x), (toLowerCase q).
    rewrite !toLowerCase_app, toLowerCase_idem. split; [reflexivity|].
    split; [assumption|].
    destruct Hq as [-> | [q' ->]]; [now left|]. right.
    now exists (toLowerCase q').
Qed.

Lemma isBadExt_lower (u : string) : isBadExt (toLowerCase u) = isBadExt u.
Proof.
  destruct (isBadExt u) eqn:E.
  - apply bad_extension_isBadExt, bad_extension_shape_lower.
    now apply isBadExt_inv.
  - destruct (isBadExt (toLowerCase u)) eqn:E'; [|reflexivity].
    apply isBadExt_inv in E'.
    apply (proj1 (bad_extension_shape_lower u)) in E'.
    apply bad_extension_isBadExt in E'. congruence.
Qed.

Lemma isLogoish_lower (u : string) : isLogoish (toLowerCase u) = isLogoish u.
Proof. unfold isLogoish. now rewrite toLowerCase_idem. Qed.

(** ** More about the scorer and the resolver *)

Lemma scoreImage_sum (u : string) :
  scoreImage u =
  ((if has_hint u then 10 else 0) + (if has_good_ext u then 5 else 0) +
   (if has_size u then 2 else 0) - (if isLogoish u then 20 else 0) -
   (if isBadExt u then 10 else 0))%Z.
Proof.
  unfold scoreImage, has_hint, has_good_ext, has_size.
  rewrite isLogoish_lower, isBadExt_lower.
  destruct (test false re_hint (toLowerCase u)), (goodExt (toLowerCase u)),
           (test false re_size (toLowerCase u)), (isLogoish u), (isBadExt u);
    reflexivity.
Qed.

Lemma filtered_score (u : string) :
  isLogoish u = false -> isBadExt u = false ->
  (0 <= scoreImage u)%Z /\
  ((THRESHOLD <= scoreImage u)%Z <->
   has_hint u = true \/ has_good_ext u = true \/ has_size u = true).
Proof.
  rewrite scoreImage_sum. unfold THRESHOLD. intros -> ->.
  destruct (has_hint u), (has_good_ext u), (has_size u);
    (split; [lia|]); split; intros Hs; try lia; auto;
    destruct Hs as [Hs | [Hs | Hs]]; discriminate Hs.
Qed.

(** X7.  A score lies between -30 and 17.  A url that passes the two
    filters scores at least 0, and reaches the threshold exactly when it
    has a hint word, an accepted extension or a size marker: the filters
    and the penalties of the score agree, although the score looks at the
    lowercase url and the filters at the url as it is. *)
Theorem scoreImage_range (u : string) :
  (-30 <= scoreImage u <= 17)%Z /\
  (isLogoish u = false -> isBadExt u = false ->
   (0 <= scoreImage u)%Z /\
   ((THRESHOLD <= scoreImage u)%Z <->
    has_hint u = true \/ has_good_ext u = true \/ has_size u = true)).
Proof.
  split; [|apply filtered_score].
  rewrite scoreImage_sum.
  destruct (has_hint u), (has_good_ext u), (has_size u), (isLogoish u),
           (isBadExt u); lia.
Qed.

Lemma scoreImage_range_witness :
  (0 <= scoreImage "https://cdn.example.com/a/b.bmp")%Z /\
  ((THRESHOLD <= scoreImage "https://cdn.example.com/a/b.bmp")%Z <->
   has_hint "https://cdn.example.com/a/b.bmp" = true \/
   has_good_ext "https://cdn.example.com/a/b.bmp" = true \/
   has_size "https://cdn.example.com/a/b.bmp" = true).
Proof.
  apply (scoreImage_range "https://cdn.example.com/a/b.bmp"); reflexivity.
Defined.

(** In a stable sort by falling score the first place goes to the first of
    the entries of highest score. *)
Lemma sort_by_score_first (pre post : list string) (best : string) :
  (forall x, In x pre -> (scoreImage x < scoreImage best)%Z) ->
  (forall x, In x post -> (scoreImage x <= scoreImage best)%Z) ->
  exists others, sort_by by_score_desc (pre ++ best :: post) = best :: others.
Proof.
  intros Hpre Hpost. induction pre as [|x pre IH].
  - simpl. destruct (sort_by by_score_desc post) as [|h t] eqn:Es.
    + simpl. eauto.
    + destruct (sort_by_score_head post h t Es) as [Hin _].
      simpl. unfold by_score_desc at 1.
      assert (Hle : (scoreImage h - scoreImage best <=? 0)%Z = true)
        by (apply Z.leb_le; specialize (Hpost h Hin); lia).
      rewrite Hle. eauto.
  - destruct IH as [others Hs].
    + intros y Hy. apply Hpre. now right.
    + simpl. rewrite Hs. simpl. unfold by_score_desc at 1.
      assert (Hgt : (scoreImage best - scoreImage x <=? 0)%Z = false)
        by (apply Z.leb_gt; specialize (Hpre x (or_introl eq_refl)); lia).
      rewrite Hgt. eauto.
Qed.

Section ResolverMore.
Context `{Browser}.

(** X8.  What [resolveArticleImage] returns, when it is not the empty
    string, is a url extracted from the page that the proxy answered with,
    that is not logo-like, has no bad extension and carries a hint word, an
    accepted extension or a size marker: an image without any of the three
    marks is never chosen, even when it is the only image of the page. *)
Theorem resolved_image_is_marked (url r : string) :
  resolveArticleImage url = Returns r -> r <> EmptyString ->
  (exists html,
     fetch (toJinaProxy url) = Response true (Some html) /\
     In r (extracted url html)) /\
  isLogoish r = false /\ isBadExt r = false /\
  (has_hint r = true \/ has_good_ext r = true \/ has_size r = true).
Proof.
  intros Hres Hne. apply resolve_returned in Hres.
  destruct Hres as [-> | [html [Hf [Hin [Hth _]]]]]; [now contradiction Hne|].
  apply candidates_of_In in Hin. destruct Hin as [Hex [_ [Hbad Hlogo]]].
  split; [now exists html|]. split; [assumption|]. split; [assumption|].
  now apply (filtered_score r).
Qed.

(** X9.  Ties are broken by the order of the page: among the candidates of
    highest score the one extracted first is returned, the [meta] images
    coming before the [img] elements. *)
Theorem resolved_image_is_first_best
    (url html best : string) (pre post : list string) :
  URL_parse url <> None ->
  fetch (toJinaProxy url) = Response true (Some html) ->
  candidates_of url html = pre ++ best :: post ->
  (forall x, In x pre -> (scoreImage x < scoreImage best)%Z) ->
  (forall x, In x post -> (scoreImage x <= scoreImage best)%Z) ->
  (THRESHOLD <= scoreImage best)%Z ->
  resolveArticleImage url = Returns best.
Proof.
  intros Hu Hf Hc Hpre Hpost Hth.
  rewrite (resolve_after_response url html (toJinaProxy_nonempty url Hu) Hf), Hc.
  destruct (sort_by_score_first pre post best Hpre Hpost) as [others ->].
  assert (Ht : (scoreImage best <? THRESHOLD)%Z = false) by (apply Z.ltb_ge; lia).
  now rewrite Ht.
Qed.

End ResolverMore.

Lemma resolved_image_is_marked_witness :
  (exists html,
     @fetch demo_browser (@toJinaProxy demo_browser demo_article)
       = Response true (Some html) /\
     In demo_hero (@extracted demo_browser demo_article html)) /\
  isLogoish demo_hero = false /\ isBadExt demo_hero = false /\
  (has_hint demo_hero = true \/ has_good_ext demo_hero = true \/
   has_size demo_hero = true).
Proof.
  apply (@resolved_image_is_marked demo_browser demo_article demo_hero).
  - reflexivity.
  - discriminate.
Defined.

Lemma resolved_image_is_first_best_witness :
  @resolveArticleImage tie_browser demo_article = Returns "https://cdn.example.com/a.png".
Proof.
  apply (@resolved_image_is_first_best tie_browser demo_article tie_page
           "https://cdn.example.com/a.png" []
           ["https://cdn.example.com/b.jpg"; "https://cdn.example.com/c.webp"]).
  - vm_compute. discriminate.
  - reflexivity.
  - reflexivity.
  - intros x [].
  - intros x [<- | [<- | []]]; vm_compute; discriminate.
  - vm_compute. discriminate.
Defined.

(** ** [toAbsoluteUrl] *)

Lemma run_Chars_Cat (ci : bool) (p : string) (r : regex) (st : mstate) :
  run ci (Cat (Chars p) r) st =
  match strip ci p (rest st) with
  | Some t => run ci r (move st t)
  | None => []
  end.
Proof.
  cbn [run]. unfold literal. destruct (strip ci p (rest st)); [|reflexivity].
  cbn [flat_map]. apply app_nil_r.
Qed.

Lemma re_http_not_at_start (t : string) : test_from true re_http false t = false.
Proof. induction t as [|c t IH]; simpl; [reflexivity | exact IH]. Qed.

Lemma re_http_at_start (s : string) :
  test true re_http s =
  match run true (seq [Chars "http"; Opt (Chars "s"); Chars "://"])
            (start_at true s) with
  | [] => false
  | _ :: _ => true
  end.
Proof.
  unfold test, re_http.
  change (seq [Bol; Chars "http"; Opt (Chars "s"); Chars "://"])
    with (Cat Bol (seq [Chars "http"; Opt (Chars "s"); Chars "://"])).
  destruct s as [|c s]; cbn [test_from].
  - cbn [run start_at at_start flat_map]. rewrite app_nil_r.
    now destruct (run true _ _).
  - cbn [run start_at at_start flat_map]. rewrite app_nil_r.
    fold (start_at true (String c s)).
    destruct (run true _ (start_at true (String c s))); [|reflexivity].
    apply re_http_not_at_start.
Qed.

Lemma strip_ci_of (p x t : string) :
  toLowerCase x = p -> toLowerCase p = p -> strip true p (x ++ t)%string = Some t.
Proof. intros Hx Hp. apply strip_ci. congruence. Qed.

Lemma string_append_assoc (a b c : string) :
  ((a ++ b) ++ c = a ++ (b ++ c))%string.
Proof. induction a as [|x a IH]; simpl; [reflexivity | now rewrite IH]. Qed.

Lemma run_Opt_Chars_Cat (p : string) (r : regex) (st : mstate) :
  run true (Cat (Opt (Chars p)) r) st =
  match strip true p (rest st) with
  | Some t => run true r (move st t)
  | None => []
  end ++ run true r st.
Proof.
  change (run true (Cat (Opt (Chars p)) r) st)
    with (flat_map (run true r) (literal true st p ++ [st])).
  rewrite flat_map_app. unfold literal.
  destruct (strip true p (rest st)); cbn [flat_map]; now rewrite !app_nil_r.
Qed.

Lemma run_scheme_end (st : mstate) :
  run true (Cat (Chars "://") (Chars "")) st <> [] <->
  exists t, strip true "://" (rest st) = Some t.
Proof.
  rewrite run_Chars_Cat. destruct (strip true "://" (rest st)) as [t|].
  - split; [eauto | intros _; discriminate].
  - split; [intros Hn; now contradiction Hn | intros [t [=]]].
Qed.

Lemma run_scheme (s : string) :
  run true (seq [Chars "http"; Opt (Chars "s"); Chars "://"]) (start_at true s) <> [] <->
  exists t1, strip true "http" s = Some t1 /\
    ((exists t2 t3, strip true "s" t1 = Some t2 /\ strip true "://" t2 = Some t3) \/
     (exists t3, strip true "://" t1 = Some t3)).
Proof.
  unfold seq. cbn [fold_right]. rewrite run_Chars_Cat. cbn [rest start_at].
  destruct (strip true "http" s) as [t1|].
  - rewrite run_Opt_Chars_Cat. cbn [rest move]. split.
    + intros Hn. exists t1. split; [reflexivity|].
      destruct (strip true "s" t1) as [t2|].
      * destruct (run true (Cat (Chars "://") (Chars "")) (move _ t2)) eqn:E2.
        -- right. cbn [app] in Hn. apply run_scheme_end in Hn. exact Hn.
        -- left. assert (Hne : run true (Cat (Chars "://") (Chars ""))
                                  (move (move (start_at true s) t1) t2) <> [])
             by (rewrite E2; discriminate).
           apply run_scheme_end in Hne. destruct Hne as [t3 Ht3]. eauto.
      * right. cbn [app] in Hn. apply run_scheme_end in Hn. exact Hn.
    + intros [t1' [[= <-] [[t2 [t3 [H2 H3]]] | [t3 H3]]]].
      * rewrite H2. intros E. apply app_eq_nil in E. destruct E as [E _].
        revert E. apply run_scheme_end. cbn [rest move]. eauto.
      * intros E. apply app_eq_nil in E. destruct E as [_ E].
        revert E. apply run_scheme_end. cbn [rest move]. eauto.
  - split; [intros Hn; now contradiction Hn | intros [t1 [[=] _]]].
Qed.

Lemma test_re_http (s : string) : test true re_http s = true <-> absolute_http s.
Proof.
  rewrite re_http_at_start.
  assert (Hrun : run true (seq [Chars "http"; Opt (Chars "s"); Chars "://"])
                     (start_at true s) <> [] <-> absolute_http s).
  { rewrite run_scheme. unfold absolute_http. split.
    - intros [t1 [E1 [[t2 [t3 [E2 E3]]] | [t3 E3]]]];
        destruct (strip_ci_inv _ _ _ E1) as [x1 [-> Hx1]].
      + destruct (strip_ci_inv _ _ _ E2) as [x2 [-> Hx2]].
        destruct (strip_ci_inv _ _ _ E3) as [x3 [-> Hx3]].
        exists (x1 ++ x2 ++ x3)%string, t3. split.
        * now rewrite !string_append_assoc.
        * right. rewrite !toLowerCase_app, Hx1, Hx2, Hx3. reflexivity.
      + destruct (strip_ci_inv _ _ _ E3) as [x3 [-> Hx3]].
        exists (x1 ++ x3)%string, t3. split.
        * now rewrite !string_append_assoc.
        * left. rewrite !toLowerCase_app, Hx1, Hx3. reflexivity.
    - intros [x [t [-> [Hx | Hx]]]].
      + change "http://" with ("http" ++ "://")%string in Hx.
        apply toLowerCase_app_inv in Hx. destruct Hx as [x1 [x3 [-> [H1 H3]]]].
        exists (x3 ++ t)%string. split.
        * rewrite string_append_assoc. now apply strip_ci_of.
        * right. exists t. now apply strip_ci_of.
      + change "https://" with ("http" ++ "s" ++ "://")%string in Hx.
        apply toLowerCase_app_inv in Hx. destruct Hx as [x1 [x' [-> [H1 H']]]].
        apply toLowerCase_app_inv in H'. destruct H' as [x2 [x3 [-> [H2 H3]]]].
        exists ((x2 ++ x3) ++ t)%string. split.
        * rewrite string_append_assoc. now apply strip_ci_of.
        * left. exists (x3 ++ t)%string, t. split.
          -- rewrite string_append_assoc. now apply strip_ci_of.
          -- now apply strip_ci_of. }
  destruct (run true _ (start_at true s)) eqn:E.
  - split; [discriminate|]. intros Ha. apply Hrun in Ha. now contradiction Ha.
  - split; [|reflexivity]. intros _. apply Hrun. discriminate.
Qed.

Lemma absolute_http_nonempty (u : string) : absolute_http u -> nonempty u = true.
Proof.
  intros [x [t [-> [Hx | Hx]]]]; destruct x; try discriminate; reflexivity.
Qed.

Lemma slashes_not_absolute (u : string) :
  startsWith "//" u = true -> test true re_http u = false.
Proof.
  intros Hs. destruct (test true re_http u) eqn:E; [|reflexivity].
  apply test_re_http in E. destruct E as [x [t [-> [Hx | Hx]]]];
    destruct x as [|c x]; try discriminate;
    cbn [startsWith append] in Hs; apply andb_true_iff in Hs;
    destruct Hs as [Hc _]; apply Ascii.eqb_eq in Hc; subst c; discriminate.
Qed.

Lemma https_prefix_absolute (u : string) :
  startsWith "//" u = true -> absolute_http ("https:" ++ u).
Proof.
  intros Hs. destruct u as [|a u]; [discriminate|].
  cbn [startsWith] in Hs. apply andb_true_iff in Hs. destruct Hs as [Ha Hb].
  destruct u as [|b u]; [discriminate|].
  cbn [startsWith] in Hb. apply andb_true_iff in Hb. destruct Hb as [Hb _].
  apply Ascii.eqb_eq in Ha, Hb. subst a b.
  exists "https://", u. split; [reflexivity | now right].
Qed.

Section AbsoluteUrl.
Context `{Browser}.

Lemma toAbsoluteUrl_absolute (u baseUrl : string) :
  absolute_http u -> toAbsoluteUrl u baseUrl = u.
Proof.
  intros Ha. unfold toAbsoluteUrl.
  rewrite (absolute_http_nonempty u Ha). apply test_re_http in Ha.
  now rewrite Ha.
Qed.

(** X10.  [toAbsoluteUrl] gives the empty string for the empty string,
    leaves a url that begins with [http://] or [https://] (in any letter
    case) as it is, and puts [https:] before a url that begins with two
    slashes; on these urls a second application, with any base, changes
    nothing.  Any other url is returned as it is when the article url does
    not parse or the url cannot be resolved against it. *)
Theorem toAbsoluteUrl_cases (maybe baseUrl other : string) :
  toAbsoluteUrl EmptyString baseUrl = EmptyString /\
  (absolute_http maybe -> toAbsoluteUrl maybe baseUrl = maybe) /\
  (startsWith "//" maybe = true ->
   toAbsoluteUrl maybe baseUrl = ("https:" ++ maybe)%string) /\
  (absolute_http maybe \/ startsWith "//" maybe = true ->
   toAbsoluteUrl (toAbsoluteUrl maybe baseUrl) other = toAbsoluteUrl maybe baseUrl) /\
  (nonempty maybe = true -> ~ absolute_http maybe ->
   startsWith "//" maybe = false ->
   URL_parse baseUrl = None \/
   (forall base, URL_parse baseUrl = Some base ->
      URL_resolve maybe (protocol base ++ "//" ++ host base)%string = None) ->
   toAbsoluteUrl maybe baseUrl = maybe).
Proof.
  assert (Hslash : forall b, startsWith "//" maybe = true ->
            toAbsoluteUrl maybe b = ("https:" ++ maybe)%string).
  { intros b Hs. unfold toAbsoluteUrl.
    rewrite (slashes_not_absolute maybe Hs), Hs.
    destruct maybe; [discriminate | reflexivity]. }
  split; [reflexivity|]. split; [apply toAbsoluteUrl_absolute|].
  split; [apply Hslash|]. split.
  - intros [Ha | Hs].
    + rewrite (toAbsoluteUrl_absolute maybe baseUrl Ha).
      now apply toAbsoluteUrl_absolute.
    + rewrite (Hslash baseUrl Hs). apply toAbsoluteUrl_absolute.
      now apply https_prefix_absolute.
  - intros Hne Hrel Hs Hfail. unfold toAbsoluteUrl. rewrite Hne, Hs.
    destruct (test true re_http maybe) eqn:E.
    + apply test_re_http in E. contradiction.
    + cbn [negb]. destruct Hfail as [-> | Hres]; [reflexivity|].
      destruct (URL_parse baseUrl) as [base|]; [|reflexivity].
      now rewrite (Hres base eq_refl).
Qed.

End AbsoluteUrl.

Lemma toAbsoluteUrl_cases_witness :
  @toAbsoluteUrl demo_browser "HTTPS://cdn.example.com/a.png" "no base" =
    "HTTPS://cdn.example.com/a.png" /\
  @toAbsoluteUrl demo_browser "//cdn.example.com/a.png" "no base" =
    "https://cdn.example.com/a.png" /\
  @toAbsoluteUrl demo_browser
     (@toAbsoluteUrl demo_browser "//cdn.example.com/a.png" "no base") demo_article =
    "https://cdn.example.com/a.png" /\
  @toAbsoluteUrl demo_browser "/a.png" "no base" = "/a.png".
Proof.
  destruct (@toAbsoluteUrl_cases demo_browser "HTTPS://cdn.example.com/a.png"
              "no base" "") as (_ & Habs & _).
  destruct (@toAbsoluteUrl_cases demo_browser "//cdn.example.com/a.png"
              "no base" demo_article) as (_ & _ & Hslash & Htwice & _).
  destruct (@toAbsoluteUrl_cases demo_browser "/a.png" "no base" "")
    as (_ & _ & _ & _ & Hrel).
  split; [|split; [|split]].
  - apply Habs. exists "HTTPS://", "cdn.example.com/a.png".
    split; [reflexivity | now right].
  - apply Hslash. reflexivity.
  - rewrite Htwice; [apply Hslash; reflexivity | now right].
  - apply Hrel; try reflexivity.
    + intros Ha. apply test_re_http in Ha. discriminate Ha.
    + now left.
Defined.

(** ** The placeholder chain *)

Lemma fallbacks_exhausted (more : list Z) (el : img_el) (w h : Z) :
  fidx el = Some "3" ->
  fallbacks more el w h =
  (map (fun _ => false) more,
   match more with
   | [] => el
   | _ :: _ => {| src_attr := src_attr el; fidx := fidx el; hidden := true |}
   end).
Proof.
  revert el. induction more as [|s more IH]; intros el Hf; [reflexivity|].
  cbn [fallbacks]. unfold setNextFallback at 1. rewrite Hf.
  cbn -[fallbacks parseInt10]. change (parseInt10 "3") with (Some 3%Z).
  cbn -[fallbacks]. rewrite IH by reflexivity.
  destruct more; reflexivity.
Qed.

(** X11.  An image that fails to load is given, failure after failure, the
    Unsplash placeholder, the Picsum placeholder and the grey inline
    graphic, each with the random number drawn at that failure; the fourth
    failure hides the element and returns false, and so does every later
    one, without touching the source again. *)
Theorem fallback_chain (w h s1 s2 s3 : Z) (more : list Z) (src0 : string) :
  let fresh := {| src_attr := src0; fidx := None; hidden := false |} in
  let el1 := {| src_attr := randomUnsplash w h s1; fidx := Some "1"; hidden := false |} in
  let el2 := {| src_attr := picsum w h s2; fidx := Some "2"; hidden := false |} in
  let el3 := {| src_attr := grey_svg w h; fidx := Some "3"; hidden := false |} in
  setNextFallback s1 fresh w h = (true, el1) /\
  setNextFallback s2 el1 w h = (true, el2) /\
  setNextFallback s3 el2 w h = (true, el3) /\
  fallbacks (s1 :: s2 :: s3 :: more) fresh w h =
  (true :: true :: true :: map (fun _ => false) more,
   {| src_attr := grey_svg w h; fidx := Some "3";
      hidden := negb (length more =? 0)%nat |}).
Proof.
  cbv zeta.
  assert (H1 : setNextFallback s1 {| src_attr := src0; fidx := None; hidden := false |} w h
               = (true, {| src_attr := randomUnsplash w h s1; fidx := Some "1";
                           hidden := false |})) by reflexivity.
  assert (H2 : setNextFallback s2 {| src_attr := randomUnsplash w h s1; fidx := Some "1";
                                     hidden := false |} w h
               = (true, {| src_attr := picsum w h s2; fidx := Some "2";
                           hidden := false |})) by reflexivity.
  assert (H3 : setNextFallback s3 {| src_attr := picsum w h s2; fidx := Some "2";
                                     hidden := false |} w h
               = (true, {| src_attr := grey_svg w h; fidx := Some "3";
                           hidden := false |})) by reflexivity.
  split; [exact H1|]. split; [exact H2|]. split; [exact H3|].
  cbn [fallbacks]. rewrite H1, H2, H3.
  rewrite fallbacks_exhausted by reflexivity.
  destruct more; reflexivity.
Qed.

(** ** The image of an item *)

Lemma own_prop_set_same (k : string) (v : value) (props : list (string * value)) :
  own_prop k (set_prop k v props) = Some v.
Proof.
  induction props as [|[k' v'] props IH]; simpl.
  - now rewrite String.eqb_refl.
  - destruct (k' =? k) eqn:E; simpl; [now rewrite String.eqb_refl | now rewrite E].
Qed.

Lemma own_prop_set_other (k k' : string) (v : value) (props : list (string * value)) :
  k' <> k -> own_prop k' (set_prop k v props) = own_prop k' props.
Proof.
  intros Hk. induction props as [|[n x] props IH]; simpl.
  - apply String.eqb_neq in Hk. rewrite String.eqb_sym. now rewrite Hk.
  - destruct (n =? k) eqn:E; simpl.
    + apply String.eqb_eq in E. subst n.
      apply String.eqb_neq in Hk. rewrite String.eqb_sym. now rewrite Hk.
    + now rewrite IH.
Qed.

Lemma deep_equal_get_string (n s : string) (v w : value) :
  deep_equal v w -> get v n = VStr s -> get w n = VStr s.
Proof.
  intros Hd Hg.
  assert (E : deep_equal (get v n) (get w n)).
  { revert Hd. unfold deep_equal. destruct v, w; simpl; try discriminate;
      try reflexivity. apply props2_own_prop. }
  rewrite Hg in E. now apply json_eqb_primitive in E.
Qed.

Lemma deep_equal_object (r : ref) (props : list (string * value)) (w : value) :
  deep_equal (VObj r props) w -> exists r' props', w = VObj r' props'.
Proof. destruct w; try discriminate. intros _. now eexists _, _. Qed.

Lemma truthy_nonempty (s : string) : truthy (VStr s) = nonempty s.
Proof. reflexivity. Qed.

Section ItemImage.
Context `{Browser}.

Lemma scraped_passes_filters (u s : string) :
  resolveArticleImage u = Returns s -> nonempty s = true ->
  isBadExt s = false /\ isLogoish s = false /\ (THRESHOLD <= scoreImage s)%Z.
Proof.
  intros Hr Hs. apply resolve_returned in Hr.
  destruct Hr as [-> | [html [_ [Hin [Hth _]]]]]; [discriminate|].
  apply candidates_of_In in Hin. tauto.
Qed.

(** X12.  The hook writes the image cache in one case only: the item has no
    usable image of its own, the component is still mounted, and the scrape
    of the item's first link returned a non-empty url.  The image then
    shown is that url, which has no bad extension, is no logo and scores at
    least the threshold, and it links to the article.  So a failed or empty
    scrape, a cache hit and an explicit image all leave the storage as it
    was: failures are not remembered. *)
Theorem storage_changes_only_after_scrape (it : item) (sig : Z) (alive : bool)
    (st st' : storage) (img : resolved) :
  useResolvedImage it sig alive st = (img, st') ->
  st' <> st ->
  usable (explicit_src it) = false /\ alive = true /\
  exists s,
    resolveArticleImage (firstUrl it) = Returns s /\ nonempty s = true /\
    src img = VStr s /\ href img = firstUrl it /\
    isBadExt s = false /\ isLogoish s = false /\ (THRESHOLD <= scoreImage s)%Z /\
    exists written, st' = Holds (Some (JSON_stringify written)).
Proof.
  unfold useResolvedImage, resolve_effect. intros E Hne.
  destruct (usable (explicit_src it)); [injection E as _ <-; now contradiction Hne|].
  destruct (negb (nonempty (firstUrl it)));
    [injection E as _ <-; now contradiction Hne|].
  destruct (read (loadImgCache st) (firstUrl it)) as [hit|];
    [|injection E as _ <-; now contradiction Hne].
  destruct (truthy hit); [injection E as _ <-; now contradiction Hne|].
  destruct (resolveArticleImage (firstUrl it)) as [s|] eqn:Hr;
    [|injection E as _ <-; now contradiction Hne].
  destruct alive; cbn [negb] in E; [|injection E as _ <-; now contradiction Hne].
  destruct (nonempty s) eqn:Hs; [|injection E as _ <-; now contradiction Hne].
  destruct (assign (loadImgCache st) (firstUrl it) (VStr s)) as [written|];
    [|injection E as _ <-; now contradiction Hne].
  injection E as <- <-.
  destruct (scraped_passes_filters _ _ Hr Hs) as (Hb & Hl & Ht).
  split; [reflexivity|]. split; [reflexivity|]. exists s.
  split; [reflexivity|]. split; [assumption|]. split; [reflexivity|].
  split; [reflexivity|]. split; [assumption|]. split; [assumption|].
  split; [assumption|].
  exists written. destruct st as [|t]; [now contradiction Hne | reflexivity].
Qed.

End ItemImage.

Lemma storage_changes_only_after_scrape_witness :
  @useResolvedImage cache_browser demo_item 7 true (Holds None)
    = (@og_image cache_browser (VStr demo_hero) demo_article, Holds (Some cache_text)) /\
  Holds (Some cache_text) <> Holds None /\
  (usable (explicit_src demo_item) = false /\ true = true /\
   exists s,
     @resolveArticleImage cache_browser (firstUrl demo_item) = Returns s /\
     nonempty s = true /\
     src (@og_image cache_browser (VStr demo_hero) demo_article) = VStr s /\
     href (@og_image cache_browser (VStr demo_hero) demo_article) = firstUrl demo_item /\
     isBadExt s = false /\ isLogoish s = false /\ (THRESHOLD <= scoreImage s)%Z /\
     exists written,
       Holds (Some cache_text) = Holds (Some (@JSON_stringify cache_browser written))).
Proof.
  split; [vm_compute; reflexivity|]. split; [discriminate|].
  apply (@storage_changes_only_after_scrape cache_browser demo_item 7 true
           (Holds None) (Holds (Some cache_text))).
  - vm_compute; reflexivity.
  - discriminate.
Defined.

Section ImageCache.
Variables writer reader : Browser.

(** X13.  What a scrape found is found again without the network.  When an
    item without a usable image of its own misses the cache, which holds an
    object, and the scrape of its first link returns a non-empty url, the
    hook shows that url and stores the cache object with the url under the
    link, every other entry as it was.  Any later item with the same first
    link, in any browser that reads the stored text back, mounted or not,
    then shows the same url whatever its network answers, and leaves the
    storage alone. *)
Theorem scraped_image_is_cached (it later : item) (sig sig' : Z) (alive' : bool)
    (text0 : option string) (r : ref) (props : list (string * value))
    (s : string) (stored : value) :
  usable (explicit_src it) = false ->
  nonempty (firstUrl it) = true ->
  @loadImgCache writer (Holds text0) = VObj r props ->
  truthy (get (VObj r props) (firstUrl it)) = false ->
  @resolveArticleImage writer (firstUrl it) = Returns s ->
  nonempty s = true ->
  usable (explicit_src later) = false ->
  firstUrl later = firstUrl it ->
  reads_back writer reader (VObj r (set_prop (firstUrl it) (VStr s) props)) stored ->
  exists written st1,
    @useResolvedImage writer it sig true (Holds text0)
      = (@og_image writer (VStr s) (firstUrl it), st1) /\
    st1 = Holds (Some (@JSON_stringify writer written)) /\
    get written (firstUrl it) = VStr s /\
    (forall k, k <> firstUrl it -> get written k = get (VObj r props) k) /\
    @useResolvedImage reader later sig' alive' st1
      = (@og_image reader (VStr s) (firstUrl it), st1).
Proof.
  intros Hex Hu Hload Hmiss Hscrape Hs Hex' Hsame (Hne & Hparse & Hdeep).
  exists (VObj r (set_prop (firstUrl it) (VStr s) props)).
  exists (Holds (Some (@JSON_stringify writer
                         (VObj r (set_prop (firstUrl it) (VStr s) props))))).
  split; [|split; [reflexivity|]].
  - unfold useResolvedImage, resolve_effect.
    rewrite Hex, Hu, Hload. cbn [negb read]. rewrite Hmiss, Hscrape, Hs.
    reflexivity.
  - assert (Hg : get (VObj r (set_prop (firstUrl it) (VStr s) props)) (firstUrl it)
                 = VStr s).
    { cbn [get]. now rewrite own_prop_set_same. }
    split; [exact Hg|]. split.
    + intros k Hk. cbn [get]. now rewrite own_prop_set_other.
    + unfold useResolvedImage, resolve_effect.
      rewrite Hex', Hsame, Hu. cbn [negb loadImgCache].
      rewrite Hne, Hparse.
      destruct (deep_equal_object _ _ _ Hdeep) as [r' [props' ->]].
      cbn [read]. rewrite (deep_equal_get_string _ _ _ _ Hdeep Hg).
      rewrite truthy_nonempty, Hs. reflexivity.
Qed.

End ImageCache.

Lemma scraped_image_is_cached_witness :
  exists written st1,
    @useResolvedImage cache_browser demo_item 7 true (Holds None)
      = (@og_image cache_browser (VStr demo_hero) (firstUrl demo_item), st1) /\
    st1 = Holds (Some (@JSON_stringify cache_browser written)) /\
    get written (firstUrl demo_item) = VStr demo_hero /\
    (forall k, k <> firstUrl demo_item -> get written k = get (VObj 0 []) k) /\
    @useResolvedImage offline_browser demo_item 8 false st1
      = (@og_image offline_browser (VStr demo_hero) (firstUrl demo_item), st1).
Proof.
  apply (scraped_image_is_cached cache_browser offline_browser demo_item demo_item
           7 8 false None 0 [] demo_hero
           (VObj 500 [(demo_article, VStr demo_hero)])).
  - vm_compute; reflexivity.
  - vm_compute; reflexivity.
  - vm_compute; reflexivity.
  - vm_compute; reflexivity.
  - vm_compute; reflexivity.
  - vm_compute; reflexivity.
  - vm_compute; reflexivity.
  - reflexivity.
  - unfold reads_back, deep_equal. repeat split; vm_compute; reflexivity.
Defined.

(** ** The issue on screen *)

Lemma ids_Permutation (l l' : list value) :
  Permutation l l' -> Permutation (ids l) (ids l').
Proof.
  induction 1 as [|x l l' _ IH|x y l|l l' l'' _ IH1 _ IH2]; simpl.
  - constructor.
  - destruct (entry_key x); [now constructor | assumption].
  - destruct (entry_key x), (entry_key y); try apply Permutation_refl.
    apply perm_swap.
  - now apply Permutation_trans with (ids l').
Qed.

Lemma truthy_id_object (i : value) :
  has_truthy_id i -> exists r props, i = VObj r props.
Proof.
  unfold has_truthy_id, opt_chain. destruct i; try discriminate.
  intros _. now eexists _, _.
Qed.

Lemma strict_eq_string (v : value) (s : string) :
  strict_eq v (VStr s) = true <-> v = VStr s.
Proof.
  split.
  - destruct v; try discriminate. simpl. intros E.
    apply String.eqb_eq in E. now subst.
  - intros ->. simpl. apply String.eqb_refl.
Qed.

Lemma find_id_sound (id i : value) (xs : list value) :
  find_id id xs = Some (Some i) ->
  In i xs /\ exists v, read i "id" = Some v /\ strict_eq v id = true.
Proof.
  induction xs as [|j xs IH]; simpl; [discriminate|].
  destruct (read j "id") as [v|] eqn:Er; [|discriminate].
  destruct (strict_eq v id) eqn:E.
  - intros [= <-]. split; [now left | now exists v].
  - intros Hf. destruct (IH Hf) as [Hin Hv]. split; [now right | assumption].
Qed.

Lemma find_id_total (id : value) (xs : list value) :
  Forall has_truthy_id xs -> find_id id xs <> None.
Proof.
  induction 1 as [|j xs Hj _ IH]; simpl; [discriminate|].
  rewrite (truthy_id_read j Hj). now destruct (strict_eq _ id).
Qed.

Lemma find_id_unique (s : string) (i : value) (xs : list value) :
  Forall has_truthy_id xs -> NoDup (ids xs) -> In i xs ->
  opt_chain i "id" = VStr s ->
  find_id (VStr s) xs = Some (Some i).
Proof.
  intros F. induction F as [|j xs Hj F IH]; intros Hnd Hin Hid; [contradiction|].
  simpl. rewrite (truthy_id_read j Hj).
  simpl in Hnd. rewrite (has_truthy_id_entry_key j Hj) in Hnd.
  inversion Hnd as [|? ? Hfresh Hnd']; subst.
  destruct (strict_eq (opt_chain j "id") (VStr s)) eqn:E.
  - apply strict_eq_string in E.
    destruct Hin as [-> | Hin]; [reflexivity|].
    exfalso. apply Hfresh. apply ids_In. exists i. split; [assumption|].
    rewrite Forall_forall in F.
    rewrite (has_truthy_id_entry_key i (F i Hin)), Hid, E. reflexivity.
  - destruct Hin as [-> | Hin]; [|now apply IH].
    rewrite Hid in E. simpl in E. now rewrite String.eqb_refl in E.
Qed.

Lemma split_slash_parts_free (s : string) :
  Forall (fun p => slash_free p = true) (split_slash s).
Proof.
  induction s as [|c s IH]; simpl; [now repeat constructor|].
  destruct (Ascii.eqb c "/") eqn:E; [now constructor|].
  destruct (split_slash s) as [|part parts]; [now repeat constructor; simpl; rewrite E|].
  inversion IH; subst. constructor; [|assumption]. simpl. now rewrite E.
Qed.

Lemma route_param_slash_free (h p : string) (more : list string) :
  params (parseHashFromString h) = p :: more -> slash_free p = true.
Proof.
  rewrite parseHashFromString_segments. unfold segments.
  set (raw := split_slash _).
  assert (F : Forall (fun p => slash_free p = true) (filter nonempty raw)).
  { apply Forall_forall. intros x Hx. apply filter_In in Hx.
    pose proof (split_slash_parts_free
                  match h with String "#" t => t | _ => h end) as Hs.
    rewrite Forall_forall in Hs. now apply Hs. }
  destruct (filter nonempty raw) as [|p0 [|p1 rest]]; try discriminate.
  - unfold route_of. destruct p0 as [|c0 p0]; [discriminate|].
    repeat (destruct c0 as [[] [] [] [] [] [] [] []]; try discriminate;
            destruct p0 as [|c0 p0]; try discriminate).
  - inversion F as [|? ? _ F']; subst. inversion F' as [|? ? H1 _]; subst.
    unfold route_of. destruct p0 as [|c0 p0]; [discriminate|].
    repeat (destruct c0 as [[] [] [] [] [] [] [] []]; try discriminate;
            destruct p0 as [|c0 p0]; try discriminate).
    simpl. now intros [= <- _].
Qed.

(** X14.  Clicking the card of a stored issue opens that very issue exactly
    when its id is a string without a slash that the url parser leaves as
    it is.  The issues carry distinct truthy ids, as every merge leaves
    them, and [sorted] is the order the sort by date put them in, whichever
    it is; the route is read from the hash that the browser hands back
    after [openIssue].  The issue page then shows the issue of the card; an
    issue whose id is a number, or a string with a slash, a space or a
    character outside ASCII in it, is listed but its card never opens it.
    No reading throws. *)
Theorem card_opens_its_issue (issues sorted : list value) (i : value) :
  Permutation issues sorted ->
  Forall has_truthy_id issues ->
  NoDup (ids issues) ->
  In i issues ->
  let rt := parseHashFromString (location_hash (openIssue (get i "id"))) in
  currentIssue rt sorted <> None /\
  (currentIssue rt sorted = Some i <->
   exists s, get i "id" = VStr s /\ slash_free s = true /\ plain s = true) /\
  (currentIssue rt sorted = Some i -> shown rt i = IssuePage i).
Proof.
  intros P F Hnd Hin rt.
  assert (Fs : Forall has_truthy_id sorted) by exact (Permutation_Forall P F).
  assert (Hnds : NoDup (ids sorted))
    by exact (Permutation_NoDup (ids_Permutation _ _ P) Hnd).
  assert (Hins : In i sorted) by exact (Permutation_in i P Hin).
  assert (Hi : has_truthy_id i) by (rewrite Forall_forall in F; now apply F).
  destruct (truthy_id_object i Hi) as [r [props Ei]].
  assert (Hget : get i "id" = opt_chain i "id") by now rewrite Ei.
  assert (Hopen : forall s, get i "id" = VStr s -> slash_free s = true ->
                  plain s = true ->
                  rt = {| name := "issue"; params := [s] |}).
  { intros s Hid Hfree Hplain. unfold rt. rewrite Hid.
    rewrite (route_after_open s Hfree).
    unfold plain in Hplain. apply String.eqb_eq in Hplain. rewrite Hplain.
    unfold has_truthy_id in Hi. rewrite <- Hget, Hid in Hi.
    rewrite truthy_nonempty in Hi. now rewrite Hi. }
  assert (Hback : currentIssue rt sorted = Some i ->
                  (name rt =? "issue") = true /\
                  exists s, get i "id" = VStr s /\ slash_free s = true /\
                            plain s = true).
  { unfold currentIssue. destruct (name rt =? "issue") eqn:En; cbn [negb].
    2:{ intros [= E]. rewrite Ei in E. discriminate. }
    intros Hc. split; [reflexivity|].
    destruct (find_id _ sorted) as [[j|]|] eqn:Ef; try discriminate.
    2:{ injection Hc as E. rewrite Ei in E. discriminate. }
    destruct (truthy j); [|injection Hc as E; rewrite Ei in E; discriminate].
    injection Hc as ->.
    destruct (find_id_sound _ _ _ Ef) as [_ [v [Hr Hv]]].
    apply read_opt_chain in Hr.
    destruct (params rt) as [|p more] eqn:Ep.
    - exfalso. unfold has_truthy_id in Hi. rewrite Hr in Hi.
      destruct v; discriminate.
    - apply strict_eq_string in Hv. subst v. exists p.
      assert (Hid : get i "id" = VStr p) by now rewrite Hget.
      assert (Hfree : slash_free p = true)
        by exact (route_param_slash_free _ _ _ Ep).
      split; [assumption|]. split; [assumption|].
      unfold rt in Ep, En. rewrite Hid, (route_after_open p Hfree) in Ep, En.
      destruct (nonempty (fragment_encode p)); [|discriminate En].
      injection Ep as Ep _. unfold plain. rewrite Ep. apply String.eqb_refl. }
  split; [|split].
  - unfold currentIssue. destruct (negb (name rt =? "issue")); [discriminate|].
    pose proof (find_id_total
                  match params rt with p :: _ => VStr p | [] => VUndefined end
                  sorted Fs) as Ht.
    destruct (find_id _ sorted) as [[j|]|]; [|discriminate|now contradiction Ht].
    now destruct (truthy j).
  - split; [intros Hc; now apply Hback|].
    intros [s [Hid [Hfree Hplain]]]. rewrite (Hopen s Hid Hfree Hplain).
    unfold currentIssue. cbn [name params negb String.eqb Ascii.eqb Bool.eqb].
    rewrite (find_id_unique s i sorted Fs Hnds Hins) by now rewrite <- Hget.
    now rewrite Ei.
  - intros Hc. destruct (Hback Hc) as [En _]. unfold shown. rewrite En.
    now rewrite Ei.
Qed.

Lemma card_opens_its_issue_witness :
  currentIssue
    (parseHashFromString
       (location_hash
          (openIssue (get (issue 1 "A" [("start", VStr "2025-01-01")]) "id"))))
    (rev test_local) <> None /\
  (currentIssue
     (parseHashFromString
        (location_hash
           (openIssue (get (issue 1 "A" [("start", VStr "2025-01-01")]) "id"))))
     (rev test_local) = Some (issue 1 "A" [("start", VStr "2025-01-01")]) <->
   exists s,
     get (issue 1 "A" [("start", VStr "2025-01-01")]) "id" = VStr s /\
     slash_free s = true /\ plain s = true) /\
  (currentIssue
     (parseHashFromString
        (location_hash
           (openIssue (get (issue 1 "A" [("start", VStr "2025-01-01")]) "id"))))
     (rev test_local) = Some (issue 1 "A" [("start", VStr "2025-01-01")]) ->
   shown
     (parseHashFromString
        (location_hash
           (openIssue (get (issue 1 "A" [("start", VStr "2025-01-01")]) "id"))))
     (issue 1 "A" [("start", VStr "2025-01-01")])
   = IssuePage (issue 1 "A" [("start", VStr "2025-01-01")])).
Proof.
  apply (card_opens_its_issue test_local (rev test_local)
           (issue 1 "A" [("start", VStr "2025-01-01")])).
  - apply Permutation_rev.
  - repeat constructor.
  - repeat constructor; simpl; intuition discriminate.
  - now left.
Defined.

(** ** The admin gate *)

(** X15.  A grant is for good.  Once [useAdmin] has answered yes on a
    device whose storage works, the storage holds the flag, and every later
    visit answers yes and leaves the flag there, whatever its url says and
    whatever key the build then carries: changing or adding the key takes
    the right from no one who had it. *)
Theorem admin_grant_persists (envKey : string) (q : query)
    (text : option string) (st' : storage) :
  useAdmin envKey q (Holds text) = (true, st') ->
  st' = Holds (Some "1") /\
  forall envKey' q', useAdmin envKey' q' st' = (true, st').
Proof.
  intros Hu.
  assert (E : st' = Holds (Some "1")).
  { unfold useAdmin in Hu.
    destruct (if nonempty envKey then _ else _).
    - now injection Hu as <-.
    - injection Hu as Hs <-. destruct text as [t|]; [|discriminate].
      simpl in Hs. apply String.eqb_eq in Hs. now subst. }
  split; [assumption|]. subst st'. intros envKey' q'. unfold useAdmin.
  now destruct (if nonempty envKey' then _ else _).
Qed.

Lemma admin_grant_persists_witness :
  Holds (Some "1") = Holds (Some "1") /\
  forall envKey' q', useAdmin envKey' q' (Holds (Some "1")) = (true, Holds (Some "1")).
Proof.
  apply (admin_grant_persists "s3cret"
           {| key_param := Some "s3cret"; admin_param := None |} None).
  reflexivity.
Defined.

(** X16.  With a key in the build and no flag stored, [useAdmin] answers
    yes exactly when the url carries that key; [admin=1] opens nothing
    then, and neither does an empty [key].  Without a key in the build,
    [admin=1] alone decides. *)
Theorem admin_key_decides (envKey : string) (q : query) (st : storage) :
  stored_admin st = false ->
  (nonempty envKey = true ->
   (fst (useAdmin envKey q st) = true <-> key_param q = Some envKey)) /\
  (nonempty envKey = false ->
   (fst (useAdmin envKey q st) = true <-> admin_param q = Some "1")).
Proof.
  intros Hs. unfold useAdmin. rewrite Hs. split; intros He; rewrite He.
  - destruct (key_param q) as [k|].
    + destruct (nonempty k) eqn:Hk.
      * destruct (k =? envKey) eqn:E; simpl.
        -- apply String.eqb_eq in E. subst. now split.
        -- apply String.eqb_neq in E. split; [discriminate|].
           intros [= ->]. now contradiction E.
      * unfold nonempty in Hk. apply negb_false_iff, String.eqb_eq in Hk. subst k.
        destruct envKey; [discriminate|]. simpl. split; discriminate.
    + destruct envKey; [discriminate|]. simpl. split; discriminate.
  - destruct (admin_param q) as [a|]; simpl; [|split; discriminate].
    destruct (a =? "1") eqn:E; simpl.
    + apply String.eqb_eq in E. subst. now split.
    + apply String.eqb_neq in E. split; [discriminate|].
      intros [= ->]. now contradiction E.
Qed.

Lemma admin_key_decides_witness :
  fst (useAdmin "s3cret" {| key_param := None; admin_param := Some "1" |}
         (Holds None)) = true <->
  key_param {| key_param := None; admin_param := Some "1" |} = Some "s3cret".
Proof.
  apply (admin_key_decides "s3cret"
           {| key_param := None; admin_param := Some "1" |} (Holds None));
    reflexivity.
Defined.

(** ** Importing again *)



Section ImportAgain.
Variables first second : Browser.


End ImportAgain.


(** ** The store under all its writers *)

Section Writers.
Context `{Browser}.

Lemma lazy_load_merges (route_name : string) (params : list string)
    (d d' : value) (r : ref) :
  lazy_load route_name params d r = Update d' ->
  exists xs, d' = new_data r (mergeIssues (issues_or_empty d) xs).
Proof.
  unfold lazy_load.
  destruct (negb (route_name =? "issue")); [discriminate|].
  destruct params as [|id rest]; [discriminate|].
  destruct (negb (nonempty id)); [discriminate|].
  destruct (has_issue id (issues_or_empty d)) as [[|]|]; try discriminate.
  destruct (fetchJSON (issue_url id)) as [payload|]; [|discriminate].
  cbv zeta.
  destruct (truthy (length_of (opt_chain payload "issues"))); [|discriminate].
  destruct (iterate (opt_chain payload "issues")) as [xs|]; [|discriminate].
  intros [= <-]. now exists xs.
Qed.

Lemma applied_import_merges (text : string) (a a' : page) (payload : value) :
  Forall has_truthy_id (issues_or_empty (data a)) ->
  handleImport text a = Applied payload (Some a') ->
  exists xs,
    data a' = new_data (next_ref a) (mergeIssues (issues_or_empty (data a)) xs).
Proof.
  intros F Hh. unfold handleImport in Hh.
  destruct (checked_payload text) as [msg | p] eqn:Ec; [discriminate|].
  injection Hh as -> Ho.
  destruct (proj1 (checked_payload_inr text payload) Ec) as [_ [r [items [Hg Fi]]]].
  unfold onImport in Ho.
  rewrite (opt_chain_of_object payload "issues" r items Hg) in Ho.
  cbn [truthy negb data setError next_ref] in Ho.
  rewrite (import_update_merges payload (data a) (next_ref a) r items F Hg Fi) in Ho.
  injection Ho as <-. now exists items.
Qed.

Lemma write_merges (d d' : value) :
  Forall has_truthy_id (issues_or_empty d) ->
  writes d d' ->
  exists xs, issues_or_empty d' = mergeIssues (issues_or_empty d) xs.
Proof.
  intros F Hw.
  inversion Hw as [prev d1 r Hl | rn ps prev d1 r Hl | text a a' payload Hi]; subst.
  - destruct (load_manifest_merges _ _ _ Hl) as [xs [-> _]]. now exists xs.
  - destruct (lazy_load_merges _ _ _ _ _ Hl) as [xs ->]. now exists xs.
  - destruct (applied_import_merges _ _ _ _ F Hi) as [xs ->]. now exists xs.
Qed.

(** X18.  No write loses an issue.  Start from a store whose issues all
    carry a truthy id, as the built-in data does, and let the manifest
    load, the lazy loads and applied imports write it any number of times,
    in any order: the issues of the store still all carry a truthy id,
    every id that was there at the start is still there, and after the
    first write no two issues share an id. *)
Theorem store_never_loses_an_issue (d0 d : value) :
  history d0 d ->
  Forall has_truthy_id (issues_or_empty d0) ->
  Forall has_truthy_id (issues_or_empty d) /\
  (forall k, In k (ids (issues_or_empty d0)) -> In k (ids (issues_or_empty d))) /\
  (d = d0 \/ NoDup (ids (issues_or_empty d))).
Proof.
  induction 1 as [d | d0 d d' _ IH Hw]; intros F0.
  - split; [assumption|]. split; [auto | now left].
  - destruct (IH F0) as (F & Hkeep & _).
    destruct (write_merges d d' F Hw) as [xs ->].
    split; [apply mergeIssues_all_truthy|]. split.
    + intros k Hk. apply merged_keeps_ids. left. now apply Hkeep.
    + right. rewrite mergeIssues_ids. apply first_seen_NoDup.
Qed.

End Writers.

Lemma store_never_loses_an_issue_witness :
  Forall has_truthy_id (issues_or_empty later_store) /\
  (forall k, In k (ids (issues_or_empty bootstrapData)) ->
             In k (ids (issues_or_empty later_store))) /\
  (later_store = bootstrapData \/ NoDup (ids (issues_or_empty later_store))).
Proof.
  apply (@store_never_loses_an_issue site_browser bootstrapData later_store).
  - apply (@then_write site_browser bootstrapData loaded_store later_store).
    + apply (@then_write site_browser bootstrapData bootstrapData loaded_store).
      * apply no_write.
      * apply (@manifest_loaded site_browser bootstrapData loaded_store 300).
        vm_compute. reflexivity.
    + apply (@issue_loaded site_browser "issue" ["2025-09-01_2025-09-07"]
               loaded_store later_store 310).
      vm_compute. reflexivity.
  - repeat constructor.
Defined.
